(** * BEE2 package loader: object model and resolution engine

    A shallow embedding of [src/packageLoader.py]: the style resolver and
    item completion engine ([setup_style_tree]), the variant patch engine
    ([ItemVariant.modify]), duplicate handling in [parse_package], the
    palette and voxel stages of [Item._get_export_data], and
    [Package.enabled].

    Python dictionaries are insertion-ordered association lists, raised
    exceptions are values of [result], mutable objects shared between
    variants live in an explicit heap. *)

From Stdlib Require Import String Ascii List ZArith Lia Bool DecimalString.
From stdpp Require Import base option list strings gmap.

Local Open Scope list_scope.
Set Warnings "-register-all".

(** ** Exceptions and results *)

Inductive PyExc : Type :=
| Exception (msg : string)
| ValueError (msg : string)
| KeyError (key : string)
| IndexError (msg : string)
| AttributeError (msg : string)
| TypeError (msg : string).

Inductive result (A : Type) : Type :=
| Ok (a : A)
| Raise (e : PyExc).
Arguments Ok {A} a.
Arguments Raise {A} e.

#[global] Instance result_ret : MRet result := fun _ a => Ok a.
#[global] Instance result_bind : MBind result := fun _ _ k r =>
  match r with
  | Ok a => k a
  | Raise e => Raise e
  end.

#[global] Instance result_fmap : FMap result := fun _ _ f r =>
  match r with
  | Ok a => Ok (f a)
  | Raise e => Raise e
  end.

(** A [for] loop whose body may raise. *)
Fixpoint for_each {A B} (body : A -> B -> result A) (a : A) (l : list B)
    : result A :=
  match l with
  | [] => Ok a
  | x :: r => a' ← body a x; for_each body a' r
  end.

Definition is_ok {A} (r : result A) : bool :=
  match r with Ok _ => true | Raise _ => false end.

(** The double-quote character, used inside formatted messages. *)
Definition dq : string := String (ascii_of_nat 34) EmptyString.

(** ** Strings *)

(** [str.casefold()] on ASCII text: upper-case letters become lower-case. *)
Definition casefold_ascii (c : ascii) : ascii :=
  let n := nat_of_ascii c in
  if (65 <=? n)%nat && (n <=? 90)%nat then ascii_of_nat (n + 32) else c.

Fixpoint casefold (s : string) : string :=
  match s with
  | EmptyString => EmptyString
  | String c r => String (casefold_ascii c) (casefold r)
  end.

Definition str_eqb (a b : string) : bool := bool_decide (a = b).
Arguments str_eqb : simpl never.

(** [needle in haystack] for strings. *)
Fixpoint str_contains (needle hay : string) : bool :=
  String.prefix needle hay ||
  match hay with
  | EmptyString => false
  | String _ r => str_contains needle r
  end.

(** [str(n)] for a non-negative integer. *)
Definition str_of_nat (n : nat) : string :=
  NilEmpty.string_of_uint (Nat.to_uint n).

(** ** Dictionaries

    A Python [dict] keeps its keys in insertion order; assigning to a key
    that is present replaces the value in place, assigning to a new key
    appends it. *)

Section Dict.
Context {V : Type}.

Definition dict : Type := list (string * V).

Fixpoint dict_get (d : dict) (k : string) : option V :=
  match d with
  | [] => None
  | (k', v) :: r => if str_eqb k' k then Some v else dict_get r k
  end.

Definition dict_mem (d : dict) (k : string) : bool :=
  match dict_get d k with Some _ => true | None => false end.

Fixpoint dict_set (d : dict) (k : string) (v : V) : dict :=
  match d with
  | [] => [(k, v)]
  | (k', v') :: r =>
      if str_eqb k' k then (k', v) :: r else (k', v') :: dict_set r k v
  end.

Definition dict_keys (d : dict) : list string := map fst d.
Definition dict_values (d : dict) : list V := map snd d.

(** [d[k]], raising [KeyError] when the key is missing. *)
Definition dict_item (d : dict) (k : string) : result V :=
  match dict_get d k with
  | Some v => Ok v
  | None => Raise (KeyError k)
  end.
End Dict.
Arguments dict V : clear implicits.

(** [s.strip()] and [s.split(delim)] on ASCII text. *)
Definition is_space (c : ascii) : bool :=
  let n := nat_of_ascii c in
  ((9 <=? n)%nat && (n <=? 13)%nat) || ((28 <=? n)%nat && (n <=? 32)%nat).

Fixpoint lstrip (s : string) : string :=
  match s with
  | EmptyString => EmptyString
  | String c r => if is_space c then lstrip r else s
  end.

Fixpoint rstrip (s : string) : string :=
  match s with
  | EmptyString => EmptyString
  | String c r =>
      match rstrip r with
      | EmptyString => if is_space c then EmptyString else String c EmptyString
      | r' => String c r'
      end
  end.

Definition strip (s : string) : string := rstrip (lstrip s).

Definition is_empty_str (s : string) : bool :=
  match s with EmptyString => true | _ => false end.

(** Splitting at every character accepted by [is_delim]; [cur] is the
    field read so far, in reverse. *)
Fixpoint split_go (is_delim : ascii -> bool) (cur : string) (s : string)
    : list string :=
  match s with
  | EmptyString => [String.rev cur]
  | String c r =>
      if is_delim c then String.rev cur :: split_go is_delim EmptyString r
      else split_go is_delim (String c cur) r
  end.

Definition is_digit (c : ascii) : bool :=
  let n := nat_of_ascii c in (48 <=? n)%nat && (n <=? 57)%nat.

Definition digit_val (c : ascii) : Z := Z.of_nat (nat_of_ascii c) - 48.

(** *** Characters outside ASCII

    [int()] and [str.isdecimal()] look at characters, not bytes: a
    string is read as the UTF-8 bytes of a text.  [utf8_decode] gives
    the code points of the text, and nothing for bytes that encode
    none.  While a character is read, [need] of its bytes are still to
    come, [acc] is its value so far and [lo] the least value that a
    character of its length has. *)
Fixpoint utf8_go (need : nat) (lo acc : N) (s : string) : option (list N) :=
  match s with
  | EmptyString => match need with O => Some [] | S _ => None end
  | String c r =>
      let b := N_of_ascii c in
      match need with
      | O =>
          if (b <? 128)%N then cons b <$> utf8_go 0 0 0 r
          else if (b <? 192)%N then None
          else if (b <? 224)%N then utf8_go 1 128 (b - 192) r
          else if (b <? 240)%N then utf8_go 2 2048 (b - 224) r
          else if (b <? 248)%N then utf8_go 3 65536 (b - 240) r
          else None
      | S n =>
          if (128 <=? b)%N && (b <? 192)%N then
            let acc' := (acc * 64 + (b - 128))%N in
            match n with
            | O =>
                if (lo <=? acc')%N && (acc' <? 1114112)%N
                   && negb ((55296 <=? acc')%N && (acc' <? 57344)%N)
                then cons acc' <$> utf8_go 0 0 0 r
                else None
            | S _ => utf8_go n lo acc' r
            end
          else None
      end
  end.

Definition utf8_decode (s : string) : option (list N) := utf8_go 0 0 0 s.

(** The decimal digits of Unicode 14, the version of CPython 3.11: they
    come in runs of ten, from zero to nine, and [digit_zeros] lists the
    code point that each run starts with. *)
Definition digit_zeros : list N :=
  [48; 1632; 1776; 1984; 2406; 2534; 2662; 2790; 2918; 3046; 3174; 3302;
   3430; 3558; 3664; 3792; 3872; 4160; 4240; 6112; 6160; 6470; 6608; 6784;
   6800; 6992; 7088; 7232; 7248; 42528; 43216; 43264; 43472; 43504; 43600;
   44016; 65296; 66720; 68912; 69734; 69872; 69942; 70096; 70384; 70736;
   70864; 71248; 71360; 71472; 71904; 72016; 72784; 73040; 73120; 92768;
   92864; 93008; 120782; 120792; 120802; 120812; 120822; 123200; 123632;
   125264; 130032]%N.

(** The value of a decimal digit. *)
Definition decimal_of (cp : N) : option N :=
  (λ z, cp - z)%N
    <$> find (λ z, (z <=? cp)%N && (cp <? z + 10)%N) digit_zeros.

(** The white space characters other than those of ASCII. *)
Definition unicode_spaces : list N :=
  [133; 160; 5760; 8192; 8193; 8194; 8195; 8196; 8197; 8198; 8199; 8200;
   8201; 8202; 8232; 8233; 8239; 8287; 12288]%N.

(** [str.isdecimal()]: some character, and decimal digits only. *)
Definition isdecimal (s : string) : bool :=
  match utf8_decode s with
  | Some (cp :: cps) =>
      forallb (λ c, bool_decide (is_Some (decimal_of c))) (cp :: cps)
  | _ => false
  end.

(** What [int()] reads a character as: a character below 127 as
    itself, any other white space as a blank, any other decimal digit as
    the ASCII digit of its value; it refuses every other character. *)
Definition int_char (cp : N) : option ascii :=
  if (cp <? 127)%N then Some (ascii_of_N cp)
  else if bool_decide (cp ∈ unicode_spaces) then Some " "%char
  else (λ d, ascii_of_N (48 + d)) <$> decimal_of cp.

(** The white space that [int()] skips before and after the number:
    tab to carriage return, and the blank. *)
Definition is_int_space (c : ascii) : bool :=
  let n := nat_of_ascii c in
  ((9 <=? n)%nat && (n <=? 13)%nat) || (n =? 32)%nat.

Fixpoint ltrim (f : ascii -> bool) (s : string) : string :=
  match s with
  | EmptyString => EmptyString
  | String c r => if f c then ltrim f r else s
  end.

Fixpoint rtrim (f : ascii -> bool) (s : string) : string :=
  match s with
  | EmptyString => EmptyString
  | String c r =>
      match rtrim f r with
      | EmptyString => if f c then EmptyString else String c EmptyString
      | r' => String c r'
      end
  end.

(** The digits of an integer literal: decimal digits, with single
    underscores allowed between two digits. *)
Fixpoint int_digits (acc : Z) (prev_digit : bool) (s : string) : option Z :=
  match s with
  | EmptyString => if prev_digit then Some acc else None
  | String c r =>
      if is_digit c then int_digits (10 * acc + digit_val c) true r
      else if (nat_of_ascii c =? 95)%nat && prev_digit then
        match r with
        | EmptyString => None
        | String c' _ => if is_digit c' then int_digits acc false r else None
        end
      else None
  end.

(** [int(s)]; [None] stands for [ValueError]. *)
Definition py_int (s : string) : option Z :=
  cps ← utf8_decode s;
  chars ← mapM int_char cps;
  match rtrim is_int_space (ltrim is_int_space (string_of_list_ascii chars)) with
  | EmptyString => None
  | String c r =>
      if (nat_of_ascii c =? 45)%nat then Z.opp <$> int_digits 0 false r
      else if (nat_of_ascii c =? 43)%nat then int_digits 0 false r
      else int_digits 0 false (String c r)
  end.

(** [l[k]] for a Python list: negative indices count from the end;
    [None] stands for [IndexError]. *)
Definition py_index (n : nat) (k : Z) : option nat :=
  if (0 <=? k)%Z && (k <? Z.of_nat n)%Z then Some (Z.to_nat k)
  else if (- Z.of_nat n <=? k)%Z && (k <? 0)%Z then Some (Z.to_nat (Z.of_nat n + k))
  else None.

(** ** Property trees

    Modelled from the spec: the [Property] class of [srctools] is not
    under src/.  A property tree is an ordered tree with possibly
    repeated keys; every node has a name (matched case-insensitively,
    [None] for a bare collection of blocks) and either a string value or
    a list of child nodes.  A lookup by key finds the last child of that
    name; lookups on a node without children find nothing, in-place
    changes of the children of such a node raise. *)

Inductive Property : Type :=
| PLeaf (real_name : option string) (value : string)
| PBlock (real_name : option string) (children : list Property).

(** What the [value] attribute of a node holds. *)
Inductive PValue : Type :=
| VStr (s : string)
| VBlock (l : list Property).

Definition mk_prop (n : option string) (v : PValue) : Property :=
  match v with
  | VStr s => PLeaf n s
  | VBlock l => PBlock n l
  end.

Definition p_value (p : Property) : PValue :=
  match p with
  | PLeaf _ v => VStr v
  | PBlock _ l => VBlock l
  end.

Definition p_real_name (p : Property) : option string :=
  match p with PLeaf n _ | PBlock n _ => n end.

Definition p_name (p : Property) : option string := casefold <$> p_real_name p.

Definition p_set_name (n : option string) (p : Property) : Property :=
  mk_prop n (p_value p).

Definition has_children (p : Property) : bool :=
  match p with PLeaf _ _ => false | PBlock _ _ => true end.

Definition p_children (p : Property) : list Property :=
  match p with PLeaf _ _ => [] | PBlock _ l => l end.

(** [Property.copy()] is a deep copy; on tree values it is the identity. *)
Definition p_copy (p : Property) : Property := p.

Definition name_is (key : string) (p : Property) : bool :=
  match p_name p with
  | Some n => str_eqb n (casefold key)
  | None => false
  end.

(** Truth value of [x] for [x] a string, a list or [None]. *)
Definition truthy (v : option PValue) : bool :=
  match v with
  | None => false
  | Some (VStr s) => negb (is_empty_str s)
  | Some (VBlock l) => match l with [] => false | _ => true end
  end.

(** [key in prop] *)
Definition p_contains (p : Property) (key : string) : bool :=
  existsb (name_is key) (p_children p).

(** [prop.find_key(key)]: the last child of that name. *)
Definition find_key (p : Property) (key : string) : option Property :=
  find (name_is key) (rev (p_children p)).

(** [prop[key, default]] *)
Definition get_value (p : Property) (key : string) (def : option PValue)
    : option PValue :=
  match find_key p key with
  | Some c => Some (p_value c)
  | None => def
  end.

(** [prop[key]] *)
Definition get_item (p : Property) (key : string) : result PValue :=
  match find_key p key with
  | Some c => Ok (p_value c)
  | None => Raise (IndexError (casefold key))
  end.

(** [prop.find_all(k1, .., kn)]: every node reached by the path of names. *)
Fixpoint find_all (keys : list string) (p : Property) : list Property :=
  match keys with
  | [] => []
  | k :: ks =>
      match ks with
      | [] => filter (λ c, name_is k c = true) (p_children p)
      | _ =>
          flat_map
            (λ c, if name_is k c && has_children c then find_all ks c else [])
            (p_children p)
      end
  end.

(** [prop.find_children(k1, .., kn)] *)
Definition find_children (keys : list string) (p : Property) : list Property :=
  flat_map p_children (find_all keys p).

(** Position of the last child accepted by [f]. *)
Fixpoint last_index {A} (f : A -> bool) (l : list A) : option nat :=
  match l with
  | [] => None
  | x :: r =>
      match last_index f r with
      | Some i => Some (S i)
      | None => if f x then Some O else None
      end
  end.

Definition no_children_error : PyExc :=
  ValueError "Property has no children".

(** [prop.append(child)] *)
Definition p_append (p : Property) (c : Property) : result Property :=
  match p with
  | PLeaf _ _ => Raise no_children_error
  | PBlock n l => Ok (PBlock n (l ++ [c]))
  end.

(** [prop[key] = value] for a string key and a plain value: the last child
    of that name takes the value, or a new child is appended. *)
Definition set_item (p : Property) (key : string) (v : PValue) : result Property :=
  match p with
  | PLeaf _ _ => Raise no_children_error
  | PBlock n l =>
      match last_index (name_is key) l with
      | Some i => Ok (PBlock n (alter (λ c, mk_prop (p_real_name c) v) i l))
      | None => Ok (PBlock n (l ++ [mk_prop (Some key) v]))
      end
  end.

(** [del prop[key]] for a string key: the last child of that name goes. *)
Definition del_key (p : Property) (key : string) : result Property :=
  match p with
  | PLeaf _ _ => Raise (IndexError (casefold key))
  | PBlock n l =>
      match last_index (name_is key) l with
      | Some i => Ok (PBlock n (delete i l))
      | None => Raise (IndexError (casefold key))
      end
  end.

(** [del prop[i]] for a position. *)
Definition del_index (p : Property) (i : nat) : result Property :=
  match p with
  | PLeaf _ _ => Raise (IndexError "Property has no children")
  | PBlock n l =>
      if (i <? length l)%nat then Ok (PBlock n (delete i l))
      else Raise (IndexError "list assignment index out of range")
  end.

(** [while key in prop: del prop[key]] *)
Definition del_all (p : Property) (key : string) : Property :=
  match p with
  | PLeaf _ _ => p
  | PBlock n l => PBlock n (filter (λ c, name_is key c = false) l)
  end.

(** [prop.ensure_exists(key)] followed by an in-place change [f] of the
    node it returns: the last child of that name, or a new empty block
    appended under that name. *)
Definition with_ensured (key : string) (f : Property -> result Property)
    (p : Property) : result Property :=
  match p with
  | PLeaf _ _ => Raise no_children_error
  | PBlock n l =>
      match last_index (name_is key) l with
      | Some i =>
          match l !! i with
          | Some c => c' ← f c; Ok (PBlock n (<[i:=c']> l))
          | None => Raise no_children_error
          end
      | None => c' ← f (PBlock (Some key) []); Ok (PBlock n (l ++ [c']))
      end
  end.

(** A loop [for node in prop.find_all(k1, .., kn): body(node)] whose body
    changes [node] in place.  The nodes are visited in document order;
    the loop state [S] is threaded through the bodies. *)
Section Visit.
Context {S : Type}.
Variable body : S -> Property -> result (S * Property).

(** The children named [k] are handed to [deeper], one after the other. *)
Fixpoint visit_children (k : string)
    (deeper : S -> Property -> result (S * Property))
    (st : S) (l : list Property) : result (S * list Property) :=
  match l with
  | [] => Ok (st, [])
  | c :: r =>
      '(st1, c') ← (if name_is k c then deeper st c else Ok (st, c));
      '(st2, r') ← visit_children k deeper st1 r;
      Ok (st2, c' :: r')
  end.

Fixpoint visit_all (keys : list string) (st : S) (p : Property)
    : result (S * Property) :=
  match keys with
  | [] => Ok (st, p)
  | k :: ks =>
      match p with
      | PLeaf _ _ => Ok (st, p)
      | PBlock n l =>
          '(st', l') ←
            visit_children k
              (match ks with
               | [] => body
               | _ => λ st c, if has_children c then visit_all ks st c
                              else Ok (st, c)
               end)
              st l;
          Ok (st', PBlock n l')
      end
  end.
End Visit.

(** [nodes = list(prop.find_all(k1, .., kn))] followed by an in-place change
    [f] of [nodes[idx]]. *)
Definition update_match (keys : list string) (idx : nat)
    (f : Property -> result Property) (p : Property) : result Property :=
  '(_, p') ← visit_all
      (λ (i : nat) c, if (i =? idx)%nat then c' ← f c; Ok (S i, c')
                      else Ok (S i, c))
      keys O p;
  Ok p'.

(** ** Objects shared between variants

    The mutable parts of an [ItemVariant] (property trees, the author
    and tag lists, the icon dictionary, the description) are objects in a
    heap; a variant refers to them by location, so two variants can share
    one object. *)

(** Modelled from the spec: [tkMarkdown] is not under src/.  A converted
    description keeps the text it was made from. *)
Inductive MarkdownData : Type :=
| Markdown (text : string).

Inductive Obj : Type :=
| OProp (p : Property)
| OList (l : list string)
| ODict (d : dict PValue)
| ODesc (d : MarkdownData).

Definition loc : Type := nat.
Definition heap : Type := list Obj.

Definition alloc (h : heap) (o : Obj) : loc * heap := (length h, h ++ [o]).

Definition bad_object : PyExc := AttributeError "object of another type".

Definition read_prop (h : heap) (l : loc) : result Property :=
  match h !! l with Some (OProp p) => Ok p | _ => Raise bad_object end.
Definition read_list (h : heap) (l : loc) : result (list string) :=
  match h !! l with Some (OList x) => Ok x | _ => Raise bad_object end.
Definition read_dict (h : heap) (l : loc) : result (dict PValue) :=
  match h !! l with Some (ODict d) => Ok d | _ => Raise bad_object end.
Definition read_desc (h : heap) (l : loc) : result MarkdownData :=
  match h !! l with Some (ODesc d) => Ok d | _ => Raise bad_object end.

(** [lst.extend(more)] on the list object at [l]. *)
Definition list_extend (h : heap) (l : loc) (more : list string) : result heap :=
  x ← read_list h l; Ok (<[l := OList (x ++ more)]> h).

(** ** Item variants *)

Record ItemVariant : Type := mkVariant {
  editor : loc;
  editor_extra : loc;
  vbsp_config : loc;
  source : string;
  authors : loc;
  tags : loc;
  desc : loc;
  icons : loc;
  ent_count : PValue;
  url : option PValue;
  all_name : option PValue;
  all_icon : option PValue;
}.

(** [sep_values(string)] with the default delimiters [,;/]. *)
Definition is_sep (c : ascii) : bool :=
  let n := nat_of_ascii c in (n =? 44)%nat || (n =? 59)%nat || (n =? 47)%nat.

Definition sep_values (v : PValue) : result (list string) :=
  match v with
  | VBlock _ => Raise (AttributeError "'list' object has no attribute 'replace'")
  | VStr s =>
      if is_empty_str s then Ok []
      else Ok (filter (λ x, is_empty_str x = false)
                 (map strip (split_go is_sep EmptyString s)))
  end.

Definition newline : string := String (ascii_of_nat 10) EmptyString.

Fixpoint join_lines (lines : list string) : string :=
  match lines with
  | [] => EmptyString
  | [x] => x
  | x :: r => x +:+ newline +:+ join_lines r
  end.

Definition line_text (v : PValue) : result string :=
  match v with
  | VStr s => Ok s
  | VBlock _ => Raise (TypeError "sequence item: expected str instance, list found")
  end.

(** [desc_parse(info, id)]: the lines of every [description] entry. *)
Definition desc_parse (info : Property) : result MarkdownData :=
  lines ← mapM line_text
    (flat_map (λ prop, if has_children prop then map p_value (p_children prop)
                       else [p_value prop])
       (find_all ["description"] info));
  Ok (Markdown (join_lines lines)).

(** *** [ItemVariant.modify] *)

(** The parts of the new variant that the palette loop changes. *)
Record PalState : Type := mkPal {
  pal_editor : Property;
  pal_icons : dict PValue;
  pal_all_name : option PValue;
  pal_all_icon : option PValue;
}.

Definition name_repr (n : option string) : string :=
  match n with Some x => x | None => "None" end.

Definition invalid_index_msg (name : option string) (source : string) : string :=
  "Invalid index " +:+ dq +:+ name_repr name +:+ dq
    +:+ " when modifying editoritems for " +:+ source.

(** [subtypes[int(item.name)]]: the position of the subtype, if any. *)
Definition subtype_index (n_subtypes : nat) (name : option string) : option nat :=
  match name with
  | None => None
  | Some s =>
      match py_int s with
      | None => None
      | Some k => py_index n_subtypes k
      end
  end.

(** The model override: [Models], else [Model], else none. *)
Definition model_override (item : Property) : option Property :=
  match find_key item "Models" with
  | Some m => Some m
  | None => find_key item "Model"
  end.

Definition model_entry (model : PValue) : Property :=
  PBlock (Some "Model") [mk_prop (Some "ModelName") model].

(** The changes made to [subtype] for one palette entry. *)
Definition subtype_patch (item : Property)
    (pal_icon pal_name : option PValue) (subtype : Property) : result Property :=
  st1 ←
    match model_override item with
    | None => Ok subtype
    | Some model_prop =>
        let models :=
          if has_children model_prop then map p_value (p_children model_prop)
          else [p_value model_prop] in
        for_each (λ st model, p_append st (model_entry model))
          (del_all subtype "model") models
    end;
  st2 ←
    (if truthy (get_value item "name" None) then
       v ← get_item item "name"; set_item st1 "name" v
     else Ok st1);
  if truthy pal_name || truthy pal_icon then
    with_ensured "Palette"
      (λ palette,
         p1 ← match pal_name with
              | Some v => if truthy pal_name then set_item palette "Tooltip" v
                          else Ok palette
              | None => Ok palette
              end;
         match pal_icon with
         | Some v => if truthy pal_icon then set_item p1 "Image" v else Ok p1
         | None => Ok p1
         end)
      st2
  else Ok st2.

(** One iteration of [for item in props.find_children('Palette')]. *)
Definition palette_step (source : string) (n_subtypes : nat)
    (st : PalState) (item : Property) : result PalState :=
  let pal_icon := get_value item "icon" None in
  let pal_name := get_value item "pal_name" None in
  let bee2_icon := get_value item "bee2" None in
  if bool_decide (p_name item = Some "all") then
    Ok {| pal_editor := pal_editor st;
          pal_icons := match bee2_icon with
                       | Some v => if truthy bee2_icon
                                   then dict_set (pal_icons st) "all" v
                                   else pal_icons st
                       | None => pal_icons st
                       end;
          pal_all_name := pal_name;
          pal_all_icon := pal_icon |}
  else
    match subtype_index n_subtypes (p_name item) with
    | None => Raise (Exception (invalid_index_msg (p_name item) source))
    | Some i =>
        ed ← update_match ["Editor"; "SubType"] i
                (subtype_patch item pal_icon pal_name) (pal_editor st);
        Ok {| pal_editor := ed;
              pal_icons := match bee2_icon with
                           | Some v => if truthy bee2_icon
                                       then dict_set (pal_icons st)
                                              (name_repr (p_name item)) v
                                       else pal_icons st
                           | None => pal_icons st
                           end;
              pal_all_name := pal_all_name st;
              pal_all_icon := pal_all_icon st |}
    end.

(** One iteration of [for inst in props.find_children('Instances')]. *)
Definition instance_step (instances : Property) (inst : Property)
    : result Property :=
  match p_real_name inst with
  | None => Raise (AttributeError "'NoneType' object has no attribute 'casefold'")
  | Some rn =>
      let cleared :=
        match del_key instances rn with
        | Ok x => x
        | Raise _ => instances
        end in
      if has_children inst || negb (isdecimal (casefold rn)) then
        p_append cleared (p_copy inst)
      else
        p_append cleared (PBlock (Some rn) [mk_prop (Some "Name") (p_value inst)])
  end.

(** The values that the new variant is built from: the overrides read
    from [props], otherwise copies of what [self] holds.  The author list
    is [None] when [self]'s own list is to be used. *)
Record ModifyValues : Type := mkValues {
  mv_config : Property;
  mv_desc : MarkdownData;
  mv_authors : option (list string);
  mv_tags : list string;
  mv_editor : Property;
  mv_extra : Property;
  mv_icons : dict PValue;
}.

Definition modify_values (h : heap) (self : ItemVariant) (props : Property)
    : result ModifyValues :=
  new_config ←
    (if p_contains props "config" then
       match find_key props "config" with
       | Some c => Ok (p_set_name None (p_copy c))
       | None => Raise (IndexError "config")
       end
     else p_copy <$> read_prop h (vbsp_config self));
  new_desc ←
    (if p_contains props "description" then desc_parse props
     else read_desc h (desc self));
  new_authors ←
    (if p_contains props "authors" then
       Some <$> sep_values (default (VStr EmptyString) (get_value props "authors" None))
     else Ok None);
  new_tags ←
    (if p_contains props "tags" then
       sep_values (default (VStr EmptyString) (get_value props "tags" None))
     else read_list h (tags self));
  base_editor ← read_prop h (editor self);
  base_extra ← read_prop h (editor_extra self);
  base_icons ← read_dict h (icons self);
  Ok {| mv_config := new_config; mv_desc := new_desc;
        mv_authors := new_authors; mv_tags := new_tags;
        mv_editor := p_copy base_editor;
        mv_extra := PBlock None (p_children (p_copy base_extra));
        mv_icons := base_icons |}.

(** The loop over the [Instances] children of [props], on the
    [Instances] block inside the [Exporting] block of the editor. *)
Definition modify_instances (props : Property) (ed : Property) : result Property :=
  with_ensured "Exporting"
    (with_ensured "Instances"
       (λ instances,
          for_each instance_step instances (find_children ["Instances"] props)))
    ed.

Definition modify (h : heap) (self : ItemVariant) (props : Property)
    (src : string) : result (ItemVariant * heap) :=
  vals ← modify_values h self props;
  let n_subtypes := length (find_all ["Editor"; "SubType"] (mv_editor vals)) in
  st ← for_each (palette_step src n_subtypes)
        {| pal_editor := mv_editor vals; pal_icons := mv_icons vals;
           pal_all_name := all_name self; pal_all_icon := all_icon self |}
        (find_children ["Palette"] props);
  final_editor ← modify_instances props (pal_editor st);
  (* The new objects are reachable from the new variant only; they enter
     the heap when it is complete. *)
  let '(l_config, h1) := alloc h (OProp (mv_config vals)) in
  let '(l_desc, h2) := alloc h1 (ODesc (mv_desc vals)) in
  let '(l_authors, h3) :=
    match mv_authors vals with
    | Some a => alloc h2 (OList a)
    | None => (authors self, h2)
    end in
  let '(l_tags, h4) := alloc h3 (OList (mv_tags vals)) in
  let '(l_editor, h5) := alloc h4 (OProp final_editor) in
  let '(l_extra, h6) := alloc h5 (OProp (mv_extra vals)) in
  let '(l_icons, h7) := alloc h6 (ODict (pal_icons st)) in
  Ok ({| editor := l_editor;
         editor_extra := l_extra;
         vbsp_config := l_config;
         source := src +:+ " from " +:+ source self;
         authors := l_authors;
         tags := l_tags;
         desc := l_desc;
         icons := l_icons;
         ent_count := default (ent_count self) (get_value props "ent_count" None);
         url := get_value props "url" (url self);
         all_name := pal_all_name st;
         all_icon := pal_all_icon st |}, h7).

(** ** Styles and the style resolver *)

Record Style : Type := mkStyle {
  style_id : string;
  base_style : option string;
}.

(** [for style in style_data: all_styles[style.id] = style] *)
Definition build_all_styles (style_data : list Style) : dict Style :=
  fold_left (fun d s => dict_set d (style_id s) s) style_data [].

(** [all_styles.get(b_style.base_style, None)] *)
Definition get_base (all_styles : dict Style) (b_style : Style) : option Style :=
  match base_style b_style with
  | None => None
  | Some b => dict_get all_styles b
  end.

(** [b_style in base]: styles stored in [all_styles] are distinct objects
    exactly when their ids differ. *)
Definition style_in (b_style : Style) (base : list Style) : bool :=
  existsb (fun s => str_eqb (style_id s) (style_id b_style)) base.

Definition loop_msg (sid : string) : string :=
  "Loop in bases for " +:+ dq +:+ sid +:+ dq +:+ "!".

(** The [while b_style is not None] loop.  [None] means the iteration
    budget ran out before the loop finished. *)
Fixpoint walk_bases (fuel : nat) (all_styles : dict Style)
    (base : list Style) (b_style : option Style) : option (result (list Style)) :=
  match b_style with
  | None => Some (Ok base)
  | Some b =>
      if style_in b base then Some (Raise (Exception (loop_msg (style_id b))))
      else
        match fuel with
        | O => None
        | S fuel' =>
            walk_bases fuel' all_styles (base ++ [b]) (get_base all_styles b)
        end
  end.

(** The body of [for style in all_styles.values()] for one style. *)
Definition style_bases (all_styles : dict Style) (style : Style)
    : option (result (list Style)) :=
  walk_bases (S (length all_styles)) all_styles [] (Some style).

(** The loop over all styles; the result maps each style id to the
    [bases] attribute assigned to that style. *)
Fixpoint resolve_loop (all_styles : dict Style) (todo : list Style)
    : option (result (dict (list Style))) :=
  match todo with
  | [] => Some (Ok [])
  | s :: rest =>
      match style_bases all_styles s with
      | None => None
      | Some (Raise e) => Some (Raise e)
      | Some (Ok base) =>
          match resolve_loop all_styles rest with
          | None => None
          | Some (Raise e) => Some (Raise e)
          | Some (Ok bs) => Some (Ok ((style_id s, base) :: bs))
          end
      end
  end.

Definition resolve_bases (style_data : list Style)
    : option (result (dict (list Style))) :=
  let all_styles := build_all_styles style_data in
  resolve_loop all_styles (dict_values all_styles).

(** The dictionary of all styles holds every style under its own id. *)
Definition styles_wf (A : dict Style) : Prop :=
  NoDup (dict_keys A) ∧ ∀ k s, (k, s) ∈ A → style_id s = k.

(** The style graph: following [base_style] through [all_styles]. *)
Fixpoint iter_parent (all_styles : dict Style) (n : nat) (o : option Style)
    : option Style :=
  match n with
  | O => o
  | S n' => iter_parent all_styles n' (o ≫= get_base all_styles)
  end.

(** A style lies on a cycle when following its bases leads back to it. *)
Definition on_cycle (all_styles : dict Style) (s : Style) : Prop :=
  ∃ n, iter_parent all_styles (S n) (Some s) = Some s.

Definition has_cycle (all_styles : dict Style) : Prop :=
  ∃ s, s ∈ dict_values all_styles ∧ on_cycle all_styles s.

(** Consecutive entries of a chain are linked by [base_style], and the
    last one leads to [nxt]. *)
Fixpoint linked (all_styles : dict Style) (l : list Style) (nxt : option Style)
    : Prop :=
  match l with
  | [] => True
  | x :: r =>
      match r with
      | [] => get_base all_styles x = nxt
      | y :: _ => get_base all_styles x = Some y ∧ linked all_styles r nxt
      end
  end.

(** ** Items, versions and the completion engine *)

(** What a style slot of a version holds: a variant, a string, or a
    property block.  A block without a name is a style lookup (an alias
    of another slot), a named block is a modification of a base slot. *)
Inductive Slot : Type :=
| SVariant (v : ItemVariant)
| SStr (s : string)
| SBlock (p : Property).

Definition is_variant (s : Slot) : bool :=
  match s with SVariant _ => true | _ => false end.

Definition is_lookup (s : Slot) : bool :=
  match s with
  | SBlock p => match p_name p with None => true | Some _ => false end
  | _ => false
  end.

Definition is_modification (s : Slot) : bool :=
  match s with
  | SBlock p => match p_name p with None => false | Some _ => true end
  | _ => false
  end.

(** [vers['def_style']]: unset, the name of the first style, and after
    completion the value of that slot. *)
Inductive DefStyle : Type :=
| DNone
| DName (s : string)
| DValue (v : Slot).

Record Version : Type := mkVersion {
  ver_name : string;
  ver_id : string;
  styles : dict Slot;
  def_style : DefStyle;
}.

(** The default version is one of the item's versions; [def_ver] refers
    to it by its id, the key under which [versions] holds it. *)
Record Item : Type := mkItem {
  item_id : string;
  versions : dict Version;
  def_ver : string;
  all_conf : Property;
  unstyled : bool;
}.

(** [style.bases], an empty list until the resolver has run. *)
Definition bases_of (bases : dict (list Style)) (style : Style) : list Style :=
  default [] (dict_get bases (style_id style)).

(** [vers['styles'][vers['def_style']]] *)
Definition def_style_slot (st : dict Slot) (d : DefStyle) : result Slot :=
  match d with
  | DName k => dict_item st k
  | DNone => Raise (KeyError "None")
  | DValue _ => Raise (KeyError "<ItemVariant>")
  end.

(** The body of [for sty_id, style in all_styles.items()]: give the style
    a slot if the version has none.  [def_styles] is the style map of the
    default version, [is_def] tells whether this version is the default
    one. *)
Definition fill_style (bases : dict (list Style)) (is_def : bool)
    (def_styles : dict Slot) (d : DefStyle)
    (st : dict Slot) (entry : string * Style) : result (dict Slot) :=
  let '(sty_id, style) := entry in
  if dict_mem st sty_id then Ok st
  else
    match find (λ b, dict_mem st (style_id b)) (bases_of bases style) with
    | Some base_style =>
        v ← dict_item st (style_id base_style); Ok (dict_set st sty_id v)
    | None =>
        if is_def then v ← def_style_slot st d; Ok (dict_set st sty_id v)
        else v ← dict_item def_styles sty_id; Ok (dict_set st sty_id v)
    end.

Definition fill_pass (all_styles : dict Style) (bases : dict (list Style))
    (is_def : bool) (def_styles : dict Slot) (d : DefStyle) (st : dict Slot)
    : result (dict Slot) :=
  for_each (fill_style bases is_def def_styles d) st all_styles.

Definition no_base_msg (item sty_id : string) : string :=
  "No base for " +:+ dq +:+ item +:+ dq +:+ ", in " +:+ dq +:+ sty_id
    +:+ dq +:+ " style.".

Definition invalid_base_msg (base item sty_id : string) : string :=
  "Invalid style base (" +:+ dq +:+ base +:+ dq +:+ ") for " +:+ dq +:+ item
    +:+ dq +:+ ", in " +:+ dq +:+ sty_id +:+ dq +:+ " style.".

Definition invalid_ref_msg (from_id item to_id : string) : string :=
  "Invalid style reference (" +:+ dq +:+ from_id +:+ dq +:+ ") for " +:+ dq
    +:+ item +:+ dq +:+ ", in " +:+ dq +:+ to_id +:+ dq +:+ " style.".

Definition modify_source (item ver sty_id : string) : string :=
  "<" +:+ item +:+ ":" +:+ ver +:+ "." +:+ sty_id +:+ ">".

(** State of the loop that evaluates lookups and modifications. *)
Record EvalState : Type := mkEval {
  ev_styles : dict Slot;
  ev_lookups : dict PValue;
  ev_heap : heap;
}.

(** The body of [for sty_id, props in vers['styles'].items()]. *)
Definition eval_slot (item ver : string) (st : EvalState) (sty_id : string)
    : result EvalState :=
  match dict_get (ev_styles st) sty_id with
  | Some (SBlock props) =>
      match p_name props with
      | None =>
          Ok {| ev_styles := ev_styles st;
                ev_lookups := dict_set (ev_lookups st) sty_id (p_value props);
                ev_heap := ev_heap st |}
      | Some _ =>
          match default (VStr EmptyString) (get_value props "base" None) with
          | VBlock [] | VStr EmptyString =>
              Raise (Exception (no_base_msg item sty_id))
          | VBlock _ => Raise (TypeError "unhashable type: 'list'")
          | VStr base =>
              match dict_get (ev_styles st) base with
              | None => Raise (Exception (invalid_base_msg base item sty_id))
              | Some (SVariant base_variant) =>
                  '(v, h) ← modify (ev_heap st) base_variant props
                              (modify_source item ver sty_id);
                  Ok {| ev_styles := dict_set (ev_styles st) sty_id (SVariant v);
                        ev_lookups := ev_lookups st;
                        ev_heap := h |}
              | Some _ =>
                  Raise (AttributeError "object has no attribute 'modify'")
              end
          end
      end
  | _ => Ok st
  end.

(** The body of [for to_id, from_id in style_lookups.items()]. *)
Definition apply_lookup (item : string) (st : dict Slot)
    (entry : string * PValue) : result (dict Slot) :=
  let '(to_id, from) := entry in
  match from with
  | VBlock _ => Raise (TypeError "unhashable type: 'list'")
  | VStr from_id =>
      match dict_get st from_id with
      | Some v => Ok (dict_set st to_id v)
      | None => Raise (Exception (invalid_ref_msg from_id item to_id))
      end
  end.

(** The body of [for vers in all_ver]. *)
Definition complete_version (all_styles : dict Style)
    (bases : dict (list Style)) (item : string) (is_def : bool)
    (def_styles : dict Slot) (h : heap) (vers : Version)
    : result (Version * heap) :=
  filled ← fill_pass all_styles bases is_def def_styles (def_style vers)
             (styles vers);
  ev ← for_each (eval_slot item (ver_id vers))
         {| ev_styles := filled; ev_lookups := []; ev_heap := h |}
         (dict_keys filled);
  resolved ← for_each (apply_lookup item) (ev_styles ev) (ev_lookups ev);
  d ← def_style_slot resolved (def_style vers);
  Ok ({| ver_name := ver_name vers; ver_id := ver_id vers;
         styles := resolved; def_style := DValue d |}, ev_heap ev).

(** The versions other than the default one, in dictionary order. *)
Definition other_versions (item : Item) : list (string * Version) :=
  filter (λ kv, kv.1 ≠ def_ver item) (versions item).

(** The body of [for item in item_data]: the default version first, then
    the others, each stored back under its id. *)
Definition complete_item (all_styles : dict Style) (bases : dict (list Style))
    (h : heap) (item : Item) : result (Item * heap) :=
  match dict_get (versions item) (def_ver item) with
  | None => Raise (ValueError "list.remove(x): x not in list")
  | Some dv =>
      '(dv', h1) ← complete_version all_styles bases (item_id item) true
                     (styles dv) h dv;
      '(vs, h2) ←
        for_each
          (λ '(vs, h) '(k, v),
             '(v', h') ← complete_version all_styles bases (item_id item)
                           (bool_decide (ver_id v = ver_id dv'))
                           (styles dv') h v;
             Ok (dict_set vs k v', h'))
          (dict_set (versions item) (def_ver item) dv', h1)
          (other_versions item);
      Ok ({| item_id := item_id item; versions := vs;
             def_ver := def_ver item; all_conf := all_conf item;
             unstyled := unstyled item |}, h2)
  end.

(** [setup_style_tree(item_data, style_data, ..)].  [None] means that the
    style resolver ran out of its iteration budget. *)
Definition setup_style_tree (item_data : list Item) (style_data : list Style)
    (h : heap) : option (result (list Item * heap)) :=
  match resolve_bases style_data with
  | None => None
  | Some (Raise e) => Some (Raise e)
  | Some (Ok bases) =>
      Some (for_each
              (λ '(acc, h) item,
                 '(item', h') ← complete_item (build_all_styles style_data)
                                  bases h item;
                 Ok (acc ++ [item'], h'))
              ([], h) item_data)
  end.

(** ** Packages and the package configuration *)

(** This package contains necessary components, and must be available. *)
Definition CLEAN_PACKAGE : string := "BEE2_CLEAN_STYLE".

Record Package : Type := mkPackage {
  pak_id : string;
  pak_zip : string;
  pak_info : Property;
  pak_name : string;
  pak_disp_name : string;
  pak_desc : PValue;
}.

(** Modelled from the spec: [PACK_CONFIG] ([packageMan], a [ConfigFile])
    is not under src/.  It persists string values by section and key;
    [get_bool] reads a value as a flag and falls back to the default
    when the value is absent or is not a flag. *)
Definition conv_flag (v : string) : option bool :=
  let w := casefold v in
  if bool_decide (w ∈ ["1"; "yes"; "true"; "on"]) then Some true
  else if bool_decide (w ∈ ["0"; "no"; "false"; "off"]) then Some false
  else None.

Definition get_bool (cfg : gmap string (gmap string string))
    (section key : string) (def : bool) : bool :=
  match cfg !! section with
  | None => def
  | Some sec =>
      match sec !! key with
      | None => def
      | Some v => default def (conv_flag v)
      end
  end.

(** [srctools.bool_as_int] *)
Definition bool_as_int (b : bool) : string := if b then "1" else "0".

(** The getter of the [enabled] property. *)
Definition enabled (cfg : gmap string (gmap string string)) (self : Package)
    : bool :=
  if str_eqb (pak_id self) CLEAN_PACKAGE then true
  else get_bool cfg (pak_id self) "Enabled" true.

(** The setter of the [enabled] property; it returns the configuration
    it leaves behind together with its outcome. *)
Definition set_enabled (cfg : gmap string (gmap string string))
    (self : Package) (value : bool)
    : gmap string (gmap string string) * result unit :=
  if str_eqb (pak_id self) CLEAN_PACKAGE then
    (cfg, Raise (ValueError "The Clean Style package cannot be disabled!"))
  else
    match cfg !! pak_id self with
    | None => (cfg, Raise (KeyError (pak_id self)))
    | Some sec =>
        (<[pak_id self := <["Enabled" := bool_as_int value]> sec]> cfg, Ok tt)
    end.

(** ** The object registry *)

Record ObjType : Type := mkObjType {
  allow_mult : bool;
  has_img : bool;
}.

Record ObjData : Type := mkObjData {
  od_zip_file : string;
  od_info_block : Property;
  od_pak_id : string;
  od_disp_name : string;
}.

Record ParseData : Type := mkParseData {
  pd_zip_file : string;
  pd_id : string;
  pd_info : Property;
  pd_pak_id : string;
  pd_is_override : bool;
}.

(** The globals [all_obj] and [obj_override]. *)
Record Registry : Type := mkRegistry {
  all_obj : dict (dict ObjData);
  obj_override : dict (dict (list ParseData));
}.

(** [obj['id']] used as a dictionary key. *)
Definition object_id (obj : Property) : result string :=
  v ← get_item obj "id";
  match v with
  | VStr s => Ok s
  | VBlock _ => Raise (TypeError "unhashable type: 'list'")
  end.

(** [obj_override[comp_type][obj_id].append(data)]; the inner
    dictionaries are [defaultdict(list)]. *)
Definition queue_override (reg : Registry) (comp_type obj_id : string)
    (data : ParseData) : result Registry :=
  over ← dict_item (obj_override reg) comp_type;
  Ok {| all_obj := all_obj reg;
        obj_override :=
          dict_set (obj_override reg) comp_type
            (dict_set over obj_id (default [] (dict_get over obj_id) ++ [data])) |}.

Definition twice_msg (obj_id : string) : string :=
  "ERROR! " +:+ dq +:+ obj_id +:+ dq +:+ " defined twice!".

(** The body of [for obj in pack.info.find_all("Overrides", comp_type)]. *)
Definition declare_override (pack : Package) (comp_type : string)
    (reg : Registry) (obj : Property) : result Registry :=
  obj_id ← object_id obj;
  queue_override reg comp_type obj_id
    (mkParseData (pak_zip pack) obj_id obj (pak_id pack) true).

(** The body of [for obj in pack.info.find_all(comp_type)]. *)
Definition declare_object (pack : Package) (comp_type : string)
    (allow_dupes : bool) (reg : Registry) (obj : Property) : result Registry :=
  obj_id ← object_id obj;
  objs ← dict_item (all_obj reg) comp_type;
  if dict_mem objs obj_id then
    if allow_dupes then
      queue_override reg comp_type obj_id
        (mkParseData (pak_zip pack) obj_id obj (pak_id pack) true)
    else Raise (Exception (twice_msg obj_id))
  else
    Ok {| all_obj :=
            dict_set (all_obj reg) comp_type
              (dict_set objs obj_id
                 (mkObjData (pak_zip pack) obj (pak_id pack) (pak_disp_name pack)));
          obj_override := obj_override reg |}.

(** The body of [for comp_type in OBJ_TYPES]. *)
Definition declare_type (pack : Package) (reg : Registry)
    (entry : string * ObjType) : result Registry :=
  let '(comp_type, ty) := entry in
  reg1 ← for_each (declare_override pack comp_type) reg
           (find_all ["Overrides"; comp_type] (pak_info pack));
  for_each (declare_object pack comp_type (allow_mult ty)) reg1
    (find_all [comp_type] (pak_info pack)).

Definition ignoring_msg (pre pak : string) : string :=
  "Package " +:+ dq +:+ pre +:+ dq +:+ " required for " +:+ dq +:+ pak +:+ dq
    +:+ " - ignoring package!".

(** The loop over the prerequisites of a package: whether they are all
    met, with the log of warnings; [packages] holds the ids of the
    packages found.  Music that was not copied turns the package off
    without a word; a package that is missing is logged. *)
Fixpoint prerequisites_met (packages : list string) (has_tag has_mel : bool)
    (pak : string) (log : list string) (pres : list Property)
    : result (list string * bool) :=
  match pres with
  | [] => Ok (log, true)
  | pre :: rest =>
      match p_value pre with
      | VBlock _ => Raise (TypeError "unhashable type: 'list'")
      | VStr v =>
          if bool_decide (v = "<TAG_MUSIC>") then
            if has_tag
            then prerequisites_met packages has_tag has_mel pak log rest
            else Ok (log, false)
          else if bool_decide (v = "<MEL_MUSIC>") then
            if has_mel
            then prerequisites_met packages has_tag has_mel pak log rest
            else Ok (log, false)
          else if bool_decide (v ∈ packages) then
            prerequisites_met packages has_tag has_mel pak log rest
          else Ok (log ++ [ignoring_msg v pak], false)
      end
  end.

(** [parse_package(pack, has_tag, has_mel)], up to the registration of
    the components; the count of image resources that follows reads the
    archive and changes neither [all_obj] nor [obj_override].  The
    result carries the log of warnings. *)
Definition parse_package (OBJ_TYPES : dict ObjType) (packages : list string)
    (has_tag has_mel : bool) (log : list string) (reg : Registry)
    (pack : Package) : result (list string * Registry) :=
  match prerequisites_met packages has_tag has_mel (pak_id pack) log
          (match find_key (pak_info pack) "Prerequisites" with
           | Some c => p_children c
           | None => []
           end) with
  | Raise e => Raise e
  | Ok (log', false) => Ok (log', reg)
  | Ok (log', true) =>
      reg' ← for_each (declare_type pack) reg OBJ_TYPES; Ok (log', reg')
  end.

(** The object pass of [load_packages] for one registered id: the object
    is parsed from the first declaration, then every queued override is
    parsed and merged into it in order. *)
Section LoadObject.
Context {O : Type}.
Variable parse : string -> ParseData -> result O.
Variable add_over : string -> O -> O -> O.

Definition load_object (reg : Registry) (obj_type obj_id : string) : result O :=
  objs ← dict_item (all_obj reg) obj_type;
  obj_data ← dict_item objs obj_id;
  object_ ← parse obj_type
    (mkParseData (od_zip_file obj_data) obj_id (od_info_block obj_data)
       (od_pak_id obj_data) false);
  over ← dict_item (obj_override reg) obj_type;
  for_each (λ o data, override ← parse obj_type data;
                      Ok (add_over obj_type o override))
    object_ (default [] (dict_get over obj_id)).
End LoadObject.

(** ** Export of an item *)

(** Modelled from the spec: the [Vec] class of [srctools] is not under
    src/.  Grid points have integer coordinates; the bounding box of two
    points is spanned by their least and greatest coordinates, and the
    grid of a box holds every integer point in the inclusive range. *)
Definition Vec : Type := (Z * Z * Z)%type.

Definition vec_bbox (a b : Vec) : Vec * Vec :=
  let '(ax, ay, az) := a in
  let '(bx, b_y, bz) := b in
  ((Z.min ax bx, Z.min ay b_y, Z.min az bz),
   (Z.max ax bx, Z.max ay b_y, Z.max az bz)).

Definition grid_range (lo hi : Z) : list Z :=
  map (λ i, (lo + Z.of_nat i)%Z) (seq 0 (Z.to_nat (hi - lo + 1))).

Definition iter_grid (mn mx : Vec) : list Vec :=
  let '(x1, y1, z1) := mn in
  let '(x2, y2, z2) := mx in
  flat_map (λ x, flat_map (λ y, map (λ z, (x, y, z)) (grid_range z1 z2))
                   (grid_range y1 y2))
    (grid_range x1 x2).

Definition str_of_Z (z : Z) : string :=
  match z with
  | Z0 => "0"
  | Zpos p => str_of_nat (Pos.to_nat p)
  | Zneg p => "-" +:+ str_of_nat (Pos.to_nat p)
  end.

(** [str(pos)] *)
Definition vec_str (v : Vec) : string :=
  let '(x, y, z) := v in
  str_of_Z x +:+ " " +:+ str_of_Z y +:+ " " +:+ str_of_Z z.

(** [Vec.from_str(value)]: three integers, or the default origin. *)
Definition vec_from_str (v : PValue) : Vec :=
  match v with
  | VBlock _ => (0, 0, 0)%Z
  | VStr s =>
      match map py_int (filter (λ x, is_empty_str x = false)
                          (split_go is_space EmptyString s)) with
      | [Some x; Some y; Some z] => (x, y, z)
      | _ => (0, 0, 0)%Z
      end
  end.

(** [prop.vec(key)] *)
Definition p_vec (p : Property) (key : string) : result Vec :=
  vec_from_str <$> get_item p key.

(** Modelled from the spec: [Property.bool] and the table of
    [srctools] that it reads a flag with are not under src/.  The last
    value of the key is looked up in the table without regard to case;
    the default, false, stands for a missing key and for a value that is
    not in the table.  A block in place of the value has no text to look
    up, and raises. *)
Definition conv_bool (v : string) : option bool :=
  let w := casefold v in
  if bool_decide (w ∈ ["1"; "yes"; "true"; "y"; "t"]) then Some true
  else if bool_decide (w ∈ ["0"; "no"; "false"; "n"; "f"]) then Some false
  else None.

(** [prop.bool(key)] *)
Definition p_bool (p : Property) (key : string) : result bool :=
  match get_value p key None with
  | Some (VStr s) => Ok (default false (conv_bool s))
  | Some (VBlock _) =>
      Raise (AttributeError "'list' object has no attribute 'casefold'")
  | None => Ok false
  end.

(** [a + b] on property trees: a copy of [a] extended by the children of
    a nameless [b], or by [b] itself. *)
Definition p_add (a b : Property) : result Property :=
  match a with
  | PLeaf _ _ => Raise (TypeError "unsupported operand type(s) for +")
  | PBlock n l =>
      match p_name b with
      | None => Ok (PBlock n (l ++ p_children b))
      | Some _ => Ok (PBlock n (l ++ [b]))
      end
  end.

(** [{subitem: index for index, (item, subitem) in enumerate(pal_list)
     if item == self.id}] *)
Fixpoint palette_positions (item : string) (index : nat)
    (pal_list : list (string * nat)) : gmap nat nat :=
  match pal_list with
  | [] => ∅
  | (it, subitem) :: rest =>
      let later := palette_positions item (S index) rest in
      if str_eqb it item then
        match later !! subitem with
        | Some _ => later
        | None => <[subitem := index]> later
        end
      else later
  end.

Definition ends_with (suffix s : string) : bool :=
  String.prefix (String.rev suffix) (String.rev s).

(** [icon[:-3] + 'png'] *)
Definition swap_extension (icon : string) : string :=
  String.substring 0 (String.length icon - 3) icon +:+ "png".

(** The palette block of a subtype that is on the palette at
    [position]. *)
Definition place_palette (item_data : ItemVariant) (alone : bool)
    (position : nat) (pal_section : Property) : result Property :=
  p1 ←
    (if alone then
       p0 ← match all_name item_data with
            | Some v => set_item pal_section "Tooltip" v
            | None => Ok pal_section
            end;
       icon ← match all_icon item_data with
              | Some v => Ok v
              | None => get_item p0 "Image"
              end;
       match icon with
       | VBlock _ =>
           Raise (AttributeError "'list' object has no attribute 'casefold'")
       | VStr i =>
           set_item p0 "Image"
             (VStr (if ends_with ".vtf" (casefold i) then swap_extension i else i))
       end
     else Ok pal_section);
  set_item p1 "Position"
    (VStr (str_of_nat (position mod 4) +:+ " " +:+ str_of_nat (position / 4)
           +:+ " 0")).

(** The loop over the children of a subtype: every palette block is
    placed if the subtype is on the palette; otherwise the first palette
    block is deleted and the loop stops. *)
Fixpoint palette_children (item_data : ItemVariant) (alone : bool)
    (position : option nat) (children : list Property)
    : result (list Property) :=
  match children with
  | [] => Ok []
  | c :: rest =>
      if bool_decide (p_name c = Some "palette") then
        match position with
        | Some pos =>
            c' ← place_palette item_data alone pos c;
            rest' ← palette_children item_data alone position rest;
            Ok (c' :: rest')
        | None => Ok rest
        end
      else
        rest' ← palette_children item_data alone position rest;
        Ok (c :: rest')
  end.

(** The body of the loop over the subtypes; [index] counts them. *)
Definition export_subtype (item_data : ItemVariant)
    (palette_items : gmap nat nat) (index : nat) (editor_section : Property)
    : result (nat * Property) :=
  match editor_section with
  | PLeaf _ _ => Ok (S index, editor_section)
  | PBlock n cs =>
      cs' ← palette_children item_data
              (bool_decide (size palette_items = 1))
              (palette_items !! index) cs;
      Ok (S index, PBlock n cs')
  end.

(** The palette stage of [_get_export_data]. *)
Definition export_palette (item : string) (item_data : ItemVariant)
    (pal_list : list (string * nat)) (new_editor : Property)
    : result Property :=
  '(_, ed) ← visit_all
      (export_subtype item_data (palette_positions item 0 pal_list))
      ["Editor"; "Subtype"] 0 new_editor;
  Ok ed.

(** The stage that applies configured default values. *)
Definition export_defaults (prop_overrides : dict string) (new_editor : Property)
    : result Property :=
  '(_, ed) ← visit_all
      (λ (_ : unit) prop_section,
         match prop_section with
         | PLeaf _ _ => Ok (tt, prop_section)
         | PBlock n cs =>
             cs' ← mapM
               (λ item_prop,
                  ignore ← p_bool item_prop "BEE2_ignore";
                  if ignore : bool then Ok item_prop
                  else
                    match p_name item_prop with
                    | None =>
                        Raise (AttributeError
                                 "'NoneType' object has no attribute 'casefold'")
                    | Some name =>
                        match dict_get prop_overrides (casefold name) with
                        | Some v => set_item item_prop "DefaultValue" (VStr v)
                        | None => Ok item_prop
                        end
                    end)
               cs;
             Ok (tt, PBlock n cs')
         end)
      ["Editor"; "Properties"] tt new_editor;
  Ok ed.

Definition surface_warning (item : string) : string :=
  "Item " +:+ item +:+ " has invalid OccupiedVoxels part (needs SubPos1 and SubPos2)!".

Definition volume_warning (item : string) : string :=
  "Item " +:+ item +:+ " has invalid OccupiedVoxels part (needs Pos1 and Pos2)!".

(** The body of the loop over [SurfaceVolume] parts; the state is the
    log of warnings. *)
Definition expand_surface (item : string) (log : list string)
    (voxel_part : Property) : result (list string * Property) :=
  if negb (p_contains voxel_part "subpos1") || negb (p_contains voxel_part "subpos2")
  then Ok (log ++ [surface_warning item], voxel_part)
  else
    a ← p_vec voxel_part "subpos1";
    b ← p_vec voxel_part "subpos2";
    let '(bbox_min, bbox_max) := vec_bbox a b in
    v1 ← del_key (p_set_name (Some "Voxel") voxel_part) "subpos1";
    v2 ← del_key v1 "subpos2";
    v3 ← for_each
           (λ part pos,
              p_append part (PBlock (Some "Surface") [PLeaf (Some "Pos") (vec_str pos)]))
           v2 (iter_grid bbox_min bbox_max);
    Ok (log, v3).

(** The children of an [OccupiedVoxels] block while its [Volume] parts
    are expanded.  The parts listed before the loop keep their identity:
    a child carries the position it had in that listing. *)
Record VolumeState : Type := mkVolumes {
  vol_children : list (option nat * Property);
  vol_log : list string;
}.

(** The body of [for voxel_part in list(occu_voxels.find_all("Volume"))]
    for the part listed at [tag]. *)
Definition expand_volume (item : string) (st : VolumeState)
    (entry : nat * Property) : result VolumeState :=
  let '(tag, voxel_part) := entry in
  match last_index (λ c, name_is "Volume" c.2) (vol_children st) with
  | None => Raise (IndexError "volume")
  | Some i =>
      let children := delete i (vol_children st) in
      if negb (p_contains voxel_part "pos1") || negb (p_contains voxel_part "pos2")
      then Ok {| vol_children := children;
                 vol_log := vol_log st ++ [volume_warning item] |}
      else
        a ← p_vec voxel_part "pos1";
        b ← p_vec voxel_part "pos2";
        let '(bbox_min, bbox_max) := vec_bbox a b in
        v1 ← del_key (p_set_name (Some "Voxel") voxel_part) "pos1";
        v2 ← del_key v1 "pos2";
        new_parts ← mapM (λ pos, set_item (p_copy v2) "Pos" (VStr (vec_str pos)))
                      (iter_grid bbox_min bbox_max);
        Ok {| vol_children :=
                map (λ c, if bool_decide (c.1 = Some tag) then (c.1, v2) else c)
                  children
                ++ map (λ part, (None, part)) new_parts;
              vol_log := vol_log st |}
  end.

(** The body of the loop over [OccupiedVoxels] blocks. *)
Definition expand_occupied (item : string) (log : list string)
    (occu_voxels : Property) : result (list string * Property) :=
  match occu_voxels with
  | PLeaf _ _ => Ok (log, occu_voxels)
  | PBlock n cs =>
      let tagged := imap (λ i c, (Some i, c)) cs in
      let listed :=
        omap (λ c, match c.1 with
                   | Some i => if name_is "Volume" c.2 then Some (i, c.2) else None
                   | None => None
                   end) tagged in
      st ← for_each (expand_volume item)
             {| vol_children := tagged; vol_log := log |} listed;
      Ok (vol_log st, PBlock n (map snd (vol_children st)))
  end.

(** The voxel stage of [_get_export_data]. *)
Definition export_voxels (item : string) (log : list string)
    (new_editor : Property) : result (list string * Property) :=
  '(log1, ed1) ← visit_all (expand_surface item)
                   ["Exporting"; "OccupiedVoxels"; "SurfaceVolume"] log new_editor;
  visit_all (expand_occupied item) ["Exporting"; "OccupiedVoxels"] log1 ed1.

(** [Item._get_export_data(pal_list, ver_id, style_id, prop_conf)]; the
    result carries the log of warnings. *)
Definition get_export_data (h : heap) (log : list string) (self : Item)
    (pal_list : list (string * nat)) (ver_id style_id : string)
    (prop_conf : dict (dict string))
    : result (list string * (Property * Property * Property)) :=
  vers ← dict_item (versions self) ver_id;
  slot ← dict_item (styles vers) style_id;
  match slot with
  | SVariant item_data =>
      base_editor ← read_prop h (editor item_data);
      ed0 ← set_item (p_copy base_editor) "type" (VStr (item_id self));
      ed1 ← export_palette (item_id self) item_data pal_list ed0;
      ed2 ← export_defaults (default [] (dict_get prop_conf (item_id self))) ed1;
      '(log', ed3) ← export_voxels (item_id self) log ed2;
      extra ← read_prop h (editor_extra item_data);
      conf ← read_prop h (vbsp_config item_data);
      all ← p_add (all_conf self) conf;
      Ok (log', (ed3, extra, all))
  | _ => Raise (AttributeError "object has no attribute 'editor'")
  end.

(** Example styles: [Root <- Mid <- Leaf], and a two-style loop. *)
Definition ex_root : Style := mkStyle "Root" None.
Definition ex_mid : Style := mkStyle "Mid" (Some "Root").
Definition ex_leaf : Style := mkStyle "Leaf" (Some "Mid").
Definition ex_loop_a : Style := mkStyle "A" (Some "B").
Definition ex_loop_b : Style := mkStyle "B" (Some "A").

(** A style whose parent is not among the styles. *)
Definition ex_lone : Style := mkStyle "Lone" (Some "Gone").

Definition ex_chain_styles : list Style := [ex_root; ex_mid; ex_leaf].
Definition ex_chain_bases : dict (list Style) :=
  [("Root", [ex_root]); ("Mid", [ex_mid; ex_root]);
   ("Leaf", [ex_leaf; ex_mid; ex_root])].

(** A heap holding the objects of one variant, and variants over it that
    differ in their provenance only. *)
Definition ex_heap : heap :=
  [OProp (PBlock (Some "Item") []); OProp (PBlock None []);
   OProp (PBlock None []); OList []; OList []; ODesc (Markdown EmptyString);
   ODict []].
Definition ex_var (src : string) : ItemVariant :=
  mkVariant 0 1 2 src 3 4 5 6 (VStr EmptyString) None None None.

(** An item that defines [Root] and [Mid] only. *)
Definition ex_declared : dict Slot :=
  [("Root", SVariant (ex_var "root")); ("Mid", SVariant (ex_var "mid"))].

(** Declared slots that the second pass resolves: no string is left, and
    a lookup names a slot that the same version declares as a variant or
    as a modification. *)
Definition resolvable (m : dict Slot) (x : Slot) : Prop :=
  match x with
  | SVariant _ => True
  | SStr _ => False
  | SBlock p =>
      p_name p = None →
      ∃ t y, p_value p = VStr t ∧ dict_get m t = Some y ∧
             (is_variant y = true ∨ is_modification y = true)
  end.

Definition well_declared (m : dict Slot) : Prop :=
  NoDup (dict_keys m) ∧ Forall (λ kx, resolvable m kx.2) m.

(** A completed version [v'] of the declared version [v]: the declared
    slots come first, followed by one slot for every other style; every
    style has a slot and every slot holds a variant. *)
Definition completed_from (all_styles : dict Style) (v v' : Version) : Prop :=
  dict_keys (styles v') =
    dict_keys (styles v)
      ++ filter (λ k, dict_mem (styles v) k = false) (dict_keys all_styles) ∧
  (∀ k, k ∈ dict_keys all_styles →
        ∃ iv, dict_get (styles v') k = Some (SVariant iv)) ∧
  Forall (λ kx, is_variant kx.2 = true) (styles v') ∧
  (∃ iv, def_style v' = DValue (SVariant iv)).

(** What evaluating a slot makes of it: a modification becomes a
    variant, anything else stays. *)
Definition evaluated (x y : Slot) : Prop :=
  if is_modification x then is_variant y = true else y = x.

(** An item with two versions under the styles [Root <- Mid <- Leaf]: the
    default version declares a variant, a modification of it and a lookup
    of that; the second version declares [Root] only. *)
Definition ex_delta : Slot :=
  SBlock (PBlock (Some "Mid") [PLeaf (Some "base") "Root"]).
Definition ex_alias (target : string) : Slot := SBlock (PLeaf None target).
Definition ex_item : Item :=
  mkItem "ITEM"
    [("VER_DEFAULT",
      mkVersion "Regular" "VER_DEFAULT"
        [("Root", SVariant (ex_var "root")); ("Mid", ex_delta);
         ("Leaf", ex_alias "Mid")]
        (DName "Root"));
     ("VER_ALT",
      mkVersion "Alternate" "VER_ALT"
        [("Root", SVariant (ex_var "alt"))] (DName "Root"))]
    "VER_DEFAULT" (PBlock None []) false.

(** An item whose lookups form a chain: [A] refers to [B], which refers
    to [C]. *)
Definition ex_abc_styles : list Style :=
  [mkStyle "A" None; mkStyle "B" None; mkStyle "C" None].
Definition ex_alias_item : Item :=
  mkItem "ITEM"
    [("VER_DEFAULT",
      mkVersion "Regular" "VER_DEFAULT"
        [("A", ex_alias "B"); ("B", ex_alias "C");
         ("C", SVariant (ex_var "c"))]
        (DName "A"))]
    "VER_DEFAULT" (PBlock None []) false.

(** A registry that holds the object [ITEM_A] of the package [PAK_ONE],
    and packages that declare an object of the same name. *)
Definition ex_obj_types : dict ObjType :=
  [("Item", mkObjType false true); ("ItemConfig", mkObjType true false)].
Definition ex_decl (obj_id : string) : Property :=
  PBlock (Some "Item") [PLeaf (Some "ID") obj_id].
Definition ex_registry : Registry :=
  mkRegistry
    [("Item", [("ITEM_A", mkObjData "one.zip" (ex_decl "ITEM_A") "PAK_ONE" "One")]);
     ("ItemConfig", [])]
    [("Item", []); ("ItemConfig", [])].
Definition ex_package (obj_id : string) : Package :=
  mkPackage "PAK_TWO" "two.zip"
    (PBlock None [PLeaf (Some "ID") "PAK_TWO"; ex_decl obj_id])
    "two.zip" "Two" (VStr EmptyString).
Definition ex_clean_package : Package :=
  mkPackage CLEAN_PACKAGE "clean.zip" (PBlock None []) "clean.zip" "Clean"
    (VStr EmptyString).

(** No node of the list is named [k]. *)
Definition no_child (k : string) (l : list Property) : Prop :=
  Forall (λ c, name_is k c = false) l.

(** The [Position] value written for the palette index [idx]. *)
Definition grid_position (idx : nat) : PValue :=
  VStr (str_of_nat (idx mod 4) +:+ " " +:+ str_of_nat (idx / 4) +:+ " 0").

(** An editor block with two subtypes; a palette that places the second
    subtype of the item at index 6. *)
Definition ex_subtype (name image : string) : Property :=
  PBlock (Some "SubType")
    [PLeaf (Some "Name") name;
     PBlock (Some "Palette")
       [PLeaf (Some "Tooltip") name; PLeaf (Some "Image") image]].
Definition ex_editor : Property :=
  PBlock (Some "Item")
    [PLeaf (Some "Type") "ITEM";
     PBlock (Some "Editor")
       [ex_subtype "First" "first.png"; ex_subtype "Second" "second.vtf"]].
Definition ex_pal_list : list (string * nat) :=
  [("OTHER", 0); ("OTHER", 1); ("OTHER", 2); ("OTHER", 3); ("OTHER", 4);
   ("OTHER", 5); ("ITEM", 1)].

(** The children of the second subtype of [ex_editor]. *)
Definition ex_second_children : list Property :=
  [PLeaf (Some "Name") "Second";
   PBlock (Some "Palette")
     [PLeaf (Some "Tooltip") "Second"; PLeaf (Some "Image") "second.vtf"]].

(** An editor block around the children [cs] of its [OccupiedVoxels]
    block. *)
Definition editor_around (n xn on : option string)
    (pre post xa xb cs : list Property) : Property :=
  PBlock n (pre ++ PBlock xn (xa ++ PBlock on cs :: xb) :: post).

(** An expanded entry of a [SurfaceVolume] region. *)
Definition surface_at (pos : string) : Property :=
  PBlock (Some "Surface") [PLeaf (Some "Pos") pos].

(** A heap whose first object is the editor block [ex_editor], and a
    modification that addresses a subtype by the key [-1]. *)
Definition ex_heap_editor : heap := <[0 := OProp ex_editor]> ex_heap.
Definition ex_negative_entry : Property :=
  PBlock (Some "-1") [PLeaf (Some "pal_name") "Last"].
Definition ex_negative_delta : Property :=
  PBlock (Some "Mid")
    [PLeaf (Some "base") "Root"; PBlock (Some "Palette") [ex_negative_entry]].

(** A modification whose palette entry for subtype [0] comes before an
    entry for a subtype [2] that the editor block does not have. *)
Definition ex_later_delta : Property :=
  PBlock (Some "Mid")
    [PLeaf (Some "base") "Root";
     PBlock (Some "Palette")
       [PBlock (Some "0") [PLeaf (Some "pal_name") "First"];
        PBlock (Some "2") [PLeaf (Some "pal_name") "None"]]].

(** The editor block holds an [Exporting] block with an [Instances]
    entry. *)
Definition has_instances (ed : Property) : Prop :=
  ∃ x y, find_key ed "Exporting" = Some x ∧ has_children x = true ∧
         find_key x "Instances" = Some y.

(** [ed'] is [ed] in which an [Exporting] block holding an [Instances]
    entry has been made sure of: [ed] itself when it has them; otherwise
    [ed] with an empty [Instances] block added at the end of its (last)
    [Exporting] block, or with an [Exporting] block holding an empty
    [Instances] block added at its end. *)
Definition instances_ensured (ed ed' : Property) : Prop :=
  (has_instances ed ∧ ed' = ed) ∨
  (∃ n l, ed = PBlock n l ∧ find_key ed "Exporting" = None ∧
          ed' = PBlock n
                  (l ++ [PBlock (Some "Exporting")
                           [PBlock (Some "Instances") []]])) ∨
  (∃ n l i xn xl,
     ed = PBlock n l ∧ last_index (name_is "Exporting") l = Some i ∧
     l !! i = Some (PBlock xn xl) ∧
     find_key (PBlock xn xl) "Instances" = None ∧
     ed' = PBlock n
             (<[i := PBlock xn (xl ++ [PBlock (Some "Instances") []])]> l)).

(** The mutable parts that [modify] makes anew for every variant. *)
Definition own_parts (v : ItemVariant) : list loc :=
  [editor v; editor_extra v; vbsp_config v; tags v; desc v; icons v].

(** An editor block whose [OccupiedVoxels] block holds one [Volume]
    region with the corners [0 0 0] and [1 1 0]. *)
Definition ex_corners : list Property :=
  [PLeaf (Some "Pos1") "0 0 0"; PLeaf (Some "Pos2") "1 1 0"].
Definition ex_voxel_editor : Property :=
  editor_around (Some "Item") (Some "Exporting") (Some "OccupiedVoxels")
    [PLeaf (Some "Type") "ITEM"] [] [] [] [PBlock (Some "Volume") ex_corners].

(** The editor block that an empty modification makes of an empty one. *)
Definition ex_ensured_editor : Property :=
  PBlock (Some "Item")
    [PBlock (Some "Exporting") [PBlock (Some "Instances") []]].

(** ** Lists of values in one string *)

(** Whether some character of [s] is accepted by [f]. *)
Fixpoint str_exists (f : ascii -> bool) (s : string) : bool :=
  match s with
  | EmptyString => false
  | String c r => f c || str_exists f r
  end.

(** [sep.join(l)] *)
Fixpoint str_join (sep : string) (l : list string) : string :=
  match l with
  | [] => EmptyString
  | [x] => x
  | x :: r => x +:+ sep +:+ str_join sep r
  end.

(** Text made of ASCII characters only; on such text [strip] is what
    [str.strip()] does. *)
Definition str_ascii (s : string) : Prop :=
  str_exists (λ c, (127 <? nat_of_ascii c)%nat) s = false.

(** A value as [sep_values] returns it: not empty, without a delimiter,
    without white space at either end. *)
Definition clean_value (x : string) : Prop :=
  x ≠ EmptyString ∧ strip x = x ∧ str_exists is_sep x = false.

(** A separator between two values: one delimiter, with white space
    before and after it at will. *)
Definition is_separator (sep : string) : Prop :=
  ∃ pre d post,
    sep = pre +:+ String d post ∧ is_sep d = true ∧
    str_exists (λ c, negb (is_space c)) pre = false ∧
    str_exists (λ c, negb (is_space c)) post = false.

(** ** Pack lists *)

Module PackList.
Section Files.
Context {A : Type} `{EqDecision A}.

(** The entries of [files] and [trigger_mats] are the values read from
    the package; [A] is their type. *)
Record t : Type := mk {
  id : string;
  files : list A;
  trigger_mats : list A;
}.

(** [for item in more: if item not in lst: lst.append(item)] *)
Definition append_new (lst more : list A) : list A :=
  fold_left (λ acc item, if bool_decide (item ∈ acc) then acc else acc ++ [item])
    more lst.

(** [PackList.add_over(self, override)] *)
Definition add_over (self override : t) : t :=
  {| id := id self;
     files := append_new (files self) (files override);
     trigger_mats := append_new (trigger_mats self) (trigger_mats override) |}.
End Files.
Arguments t : clear implicits.
End PackList.

(** A pack list and an override that shares one file with it. *)
Definition ex_pack_list : PackList.t string :=
  PackList.mk "BUTTONS" ["models/button.mdl"; "materials/button.vmt"] [].
Definition ex_pack_over : PackList.t string :=
  PackList.mk "BUTTONS" ["materials/button.vmt"; "sound/press.wav"]
    ["metal/black_floor"].

(** ** Style variables *)

Module StyleVar.

(** [styles] is [None] for an unstyled variable, which applies to every
    style. *)
Record t : Type := mk {
  id : string;
  name : PValue;
  default : bool;
  enabled : bool;
  desc : string;
  styles : option (list PValue);
}.

(** [StyleVar(var_id, name, styles, unstyled, default, desc)] *)
Definition init (var_id : string) (name : PValue) (styles : list PValue)
    (unstyled default : bool) (desc : string) : t :=
  {| id := var_id; name := name; default := default; enabled := default;
     desc := desc; styles := if unstyled then None else Some styles |}.

(** [style_id in styles] for a list of values read from the package. *)
Definition listed (styles : list PValue) (style_id : string) : bool :=
  existsb (λ v, match v with
                | VStr s => str_eqb s style_id
                | VBlock _ => false
                end) styles.

Definition two_newlines : string := newline +:+ newline.

(** [StyleVar.add_over(self, override)] *)
Definition add_over (self override : t) : t :=
  match styles self with
  | None => self
  | Some ours =>
      let styles' :=
        match styles override with
        | None => None
        | Some theirs => Some (ours ++ theirs)
        end in
      let name' := if truthy (Some (name self)) then name self
                   else name override in
      let stripped_over := strip (desc override) in
      let desc' :=
        if negb (is_empty_str stripped_over)
           && negb (str_contains stripped_over (desc self))
        then
          if negb (is_empty_str (strip (desc self)))
          then desc self +:+ two_newlines +:+ desc override
          else desc override
        else desc self in
      {| id := id self; name := name'; default := default self;
         enabled := enabled self; desc := desc'; styles := styles' |}
  end.

(** [StyleVar.applies_to_style(self, style)]; [bases] holds the chain
    that the resolver gave to each style. *)
Definition applies_to_style (self : t) (bases : dict (list Style))
    (style : Style) : bool :=
  match styles self with
  | None => true
  | Some st =>
      listed st (style_id style)
      || existsb (λ base, listed st (style_id base)) (bases_of bases style)
  end.

(** [StyleVar.applies_to_all(self)], where [all] is [Style.all()]. *)
Definition applies_to_all (self : t) (bases : dict (list Style))
    (all : list Style) : bool :=
  match styles self with
  | None => true
  | Some _ => forallb (applies_to_style self bases) all
  end.
End StyleVar.

(** ** Additional configuration for items *)

Module ItemConfig.

(** [versions] maps a version id to the configurations of that version
    by style id. *)
Record t : Type := mk {
  id : string;
  versions : dict (dict Property);
  all_conf : Property;
}.

(** The body of [for sty_id, style in styles.items()]; [a += b] leaves in
    [a] what [a + b] returns. *)
Definition merge_style (our_styles : dict Property) (entry : string * Property)
    : result (dict Property) :=
  let '(sty_id, style) := entry in
  match dict_get our_styles sty_id with
  | None => Ok (dict_set our_styles sty_id (p_copy style))
  | Some ours =>
      merged ← p_add ours (p_copy style);
      Ok (dict_set our_styles sty_id merged)
  end.

(** The body of [for vers_id, styles in override.versions.items()], with
    [our_styles = self.versions.setdefault(vers_id, {})]. *)
Definition merge_version (versions : dict (dict Property))
    (entry : string * dict Property) : result (dict (dict Property)) :=
  let '(vers_id, styles) := entry in
  our_styles ← for_each merge_style (default [] (dict_get versions vers_id)) styles;
  Ok (dict_set versions vers_id our_styles).

(** [ItemConfig.add_over(self, override)] *)
Definition add_over (self override : t) : result t :=
  conf ← p_add (all_conf self) (p_copy (all_conf override));
  vers ← for_each merge_version (versions self) (versions override);
  Ok {| id := id self; versions := vers; all_conf := conf |}.

(** The configuration held for a version and a style. *)
Definition conf_at (c : t) (vers_id sty_id : string) : option Property :=
  dict_get (versions c) vers_id ≫= λ styles, dict_get styles sty_id.

(** The keys of the dictionaries are distinct. *)
Definition keys_distinct (c : t) : Prop :=
  NoDup (dict_keys (versions c)) ∧
  ∀ v styles, (v, styles) ∈ versions c → NoDup (dict_keys styles).
End ItemConfig.

(** How a merge combines what two objects hold at one place: the
    override's part is added to ours, and each stands when the other
    holds nothing. *)
Definition merged_entry (ours theirs merged : option Property) : Prop :=
  match ours, theirs with
  | _, None => merged = ours
  | None, Some y => merged = Some y
  | Some x, Some y => ∃ z, p_add x y = Ok z ∧ merged = Some z
  end.

Definition ex_item_config (vers_id sty_id block : string) : ItemConfig.t :=
  {| ItemConfig.id := "ITEM";
     ItemConfig.versions :=
       [(vers_id, [(sty_id, PBlock None [PBlock (Some block) []])])];
     ItemConfig.all_conf := PBlock None [] |}.

(** ** Voice lines *)

Module QuotePack.

(** [QuotePack.strip_quote_data(prop, _depth)]: a copy of the tree
    without the blocks that the compiler does not read.  A node without
    children has no child to copy. *)
Fixpoint strip_quote_data (prop : Property) (_depth : nat) : Property :=
  match prop with
  | PLeaf n _ => PBlock n []
  | PBlock n cs =>
      PBlock n
        ((fix children (l : list Property) : list Property :=
            match l with
            | [] => []
            | sub_prop :: rest =>
                if (_depth =? 3)%nat
                   && (name_is "trans" sub_prop
                       || (name_is "name" sub_prop && p_contains prop "id"))
                then children rest
                else if (_depth =? 2)%nat && name_is "name" sub_prop
                then children rest
                else
                  match sub_prop with
                  | PBlock _ _ => strip_quote_data sub_prop (S _depth)
                  | PLeaf sn sv => PLeaf sn sv
                  end :: children rest
            end) cs)
  end.
End QuotePack.

(** Whether the loop of [strip_quote_data] at depth [d] leaves a child
    out, and what it puts in the copy for a child it keeps. *)
Definition dropped (d : nat) (has_id : bool) (c : Property) : bool :=
  ((d =? 3)%nat && (name_is "trans" c || (name_is "name" c && has_id)))
  || ((d =? 2)%nat && name_is "name" c).

Definition stripped_child (d : nat) (c : Property) : Property :=
  match c with
  | PBlock _ _ => QuotePack.strip_quote_data c (S d)
  | PLeaf n v => PLeaf n v
  end.

(** The nodes found [k] levels below a node. *)
Fixpoint level (k : nat) (p : Property) : list Property :=
  match k with
  | O => [p]
  | S k' => flat_map (level k') (p_children p)
  end.

Definition ex_quotes : Property :=
  PBlock (Some "Quotes")
    [PBlock (Some "Group")
       [PLeaf (Some "Name") "Chamber";
        PBlock (Some "Quote")
          [PLeaf (Some "Name") "Greeting";
           PBlock (Some "Line")
             [PLeaf (Some "ID") "hello";
              PLeaf (Some "Name") "Hello";
              PLeaf (Some "Trans") "Hello there";
              PLeaf (Some "Snd") "vo/hello.wav"]]]].

(** ** Sources of conditions *)

(** A loop [for node in prop.find_all(k1, .., kn)] whose body changes
    [node] in place and keeps no state. *)
Definition visit_each (body : Property -> result Property)
    (keys : list string) (p : Property) : result Property :=
  '(_, p') ← visit_all (λ (_ : unit) c, c' ← body c; Ok (tt, c')) keys tt p;
  Ok p'.

(** [set_cond_source(props, source)] *)
Definition set_cond_source (props : Property) (source : string)
    : result Property :=
  visit_each (λ cond, set_item cond "__src__" (VStr source))
    ["Conditions"; "Condition"] props.

Definition ex_conditions : Property :=
  PBlock None
    [PBlock (Some "Conditions")
       [PBlock (Some "Condition") [PLeaf (Some "instance") "a.vmf"];
        PBlock (Some "Condition")
          [PLeaf (Some "__src__") "old"; PLeaf (Some "instance") "b.vmf"]];
     PBlock (Some "Options") []].

(** ** Configuration files

    An archive is the dictionary of its files; each file is held with
    what parsing it as a property tree gives: the tree, or the error
    raised while reading it. *)
Definition ZipFile : Type := dict (result Property).

(** The path that [get_config] opens for a file name. *)
Definition config_path (folder value extension : string) : result string :=
  let path := folder +:+ "/" +:+ value in
  if (String.length path <? 3)%nat then Ok (path +:+ extension)
  else if (String.length path <? 4)%nat then
    Raise (IndexError "string index out of range")
  else
    match String.get (String.length path - 4) path with
    | Some c => if bool_decide (c = "."%char) then Ok path
                else Ok (path +:+ extension)
    | None => Raise (IndexError "string index out of range")
    end.

Definition not_in_zip_msg (pak_id path : string) : string :=
  dq +:+ pak_id +:+ ":" +:+ path +:+ dq +:+ " not in zip!".

(** [get_config(prop_block, zip_file, folder, pak_id, prop_name,
    extension)]; the result carries the log of warnings. *)
Definition get_config (log : list string) (prop_block : Property)
    (zip_file : ZipFile) (folder pak_id prop_name extension : string)
    : result (list string * Property) :=
  match default (PLeaf (Some prop_name) EmptyString)
          (find_key prop_block prop_name) with
  | PBlock n cs => Ok (log, p_set_name None (p_copy (PBlock n cs)))
  | PLeaf _ value =>
      if is_empty_str value then Ok (log, PBlock None [])
      else
        path ← config_path folder value extension;
        match dict_get zip_file path with
        | None | Some (Raise (KeyError _)) =>
            Ok (log ++ [not_in_zip_msg pak_id path], PBlock None [])
        | Some (Raise e) => Raise e
        | Some (Ok prop) => Ok (log, prop)
        end
  end.

(** ** Data shown in the selector windows *)

(** [SelitemData]: name, short name, authors, icon, large icon,
    description, group and sort key of an object. *)
Record SelitemData : Type := mkSelitemData {
  sel_name : PValue;
  sel_short_name : PValue;
  sel_auth : list string;
  sel_icon : option PValue;
  sel_large_icon : option PValue;
  sel_desc : MarkdownData;
  sel_group : option PValue;
  sel_sort_key : option PValue;
}.

(** [x or y] *)
Definition py_or (x y : option PValue) : option PValue :=
  if truthy x then x else y.

Section JoinSelitem.
(** [tkMarkdown.join], which is not under src/. *)
Variable md_join : MarkdownData -> MarkdownData -> MarkdownData.

(** [join_selitem_data(our_data, over_data)] *)
Definition join_selitem_data (our_data over_data : SelitemData) : SelitemData :=
  {| sel_name := sel_name our_data;
     sel_short_name := sel_short_name our_data;
     sel_auth := sel_auth our_data ++ sel_auth over_data;
     sel_icon := match sel_icon our_data with
                 | None => sel_icon over_data
                 | Some i => Some i
                 end;
     sel_large_icon := match sel_large_icon our_data with
                       | None => sel_large_icon over_data
                       | Some i => Some i
                       end;
     sel_desc := md_join (sel_desc our_data) (sel_desc over_data);
     sel_group := py_or (sel_group over_data) (sel_group our_data);
     sel_sort_key := py_or (sel_sort_key over_data) (sel_sort_key our_data) |}.
End JoinSelitem.

(** Joining the texts of two descriptions, one after the other. *)
Definition ex_md_join (a b : MarkdownData) : MarkdownData :=
  match a, b with Markdown x, Markdown y => Markdown (x +:+ newline +:+ y) end.

Definition ex_selitem (name : string) (icon : option PValue) (group : string)
    : SelitemData :=
  {| sel_name := VStr name; sel_short_name := VStr name; sel_auth := [name];
     sel_icon := icon; sel_large_icon := None; sel_desc := Markdown name;
     sel_group := if is_empty_str group then None else Some (VStr group);
     sel_sort_key := Some (VStr EmptyString) |}.

(** ** What the registry holds *)

(** The first declaration registered for an identifier of a type, and
    the overrides queued for it. *)
Definition registered (reg : Registry) (comp_type obj_id : string)
    : option ObjData :=
  dict_get (all_obj reg) comp_type ≫= λ objs, dict_get objs obj_id.

Definition queued (reg : Registry) (comp_type obj_id : string)
    : list ParseData :=
  default [] (dict_get (obj_override reg) comp_type ≫= λ over, dict_get over obj_id).

(** What [parse_package] keeps for an identifier: the declaration
    registered for it, if any, and the overrides queued so far. *)
Definition kept (ty id : string) (data : option ObjData) (l : list ParseData)
    (reg : Registry) : Prop :=
  (∀ d, data = Some d → registered reg ty id = Some d) ∧
  ∃ more, queued reg ty id = l ++ more.

(** A prerequisite that is not met. *)
Definition unmet (packages : list string) (has_tag has_mel : bool)
    (v : string) : Prop :=
  (v = "<TAG_MUSIC>" ∧ has_tag = false) ∨
  (v = "<MEL_MUSIC>" ∧ has_mel = false) ∨
  (v ≠ "<TAG_MUSIC>" ∧ v ≠ "<MEL_MUSIC>" ∧ v ∉ packages).

(** What is logged for the prerequisite [v] that is not met: nothing for
    music, a warning for a package. *)
Definition unmet_warning (pack : Package) (v : string) : list string :=
  if bool_decide (v = "<TAG_MUSIC>" ∨ v = "<MEL_MUSIC>") then []
  else [ignoring_msg v (pak_id pack)].

Definition ex_needy_package : Package :=
  mkPackage "PAK_NEEDY" "needy.zip"
    (PBlock None
       [PBlock (Some "Prerequisites") [PLeaf (Some "Package") "PAK_MISSING"];
        ex_decl "ITEM_B"])
    "needy.zip" "Needy" (VStr EmptyString).
(** An editor block with a property section, and configured defaults. *)
Definition ex_props_editor : Property :=
  PBlock (Some "Item")
    [PLeaf (Some "Type") "FOLDER";
     PBlock (Some "Editor")
       [PBlock (Some "Properties")
          [PBlock (Some "StartEnabled") [PLeaf (Some "DefaultValue") "0"];
           PBlock (Some "TimerDelay")
             [PLeaf (Some "DefaultValue") "3"; PLeaf (Some "BEE2_ignore") "1"]]]].
Definition ex_prop_conf : dict (dict string) :=
  [("ITEM", [("startenabled", "1"); ("timerdelay", "10")])].
Definition ex_props_item : Item :=
  mkItem "ITEM"
    [("VER_DEFAULT",
      mkVersion "Regular" "VER_DEFAULT" [("CLEAN", SVariant (ex_var "clean"))]
        (DName "CLEAN"))]
    "VER_DEFAULT" (PBlock None []) false.
Definition ex_heap_props : heap := <[0 := OProp ex_props_editor]> ex_heap.
(** A version whose second slot modifies the first but names no base,
    and one whose second slot looks up a style that nothing defines. *)
Definition ex_no_base_version : Version :=
  mkVersion "Regular" "VER_DEFAULT"
    [("Root", SVariant (ex_var "root"));
     ("Mid", SBlock (PBlock (Some "Mid") [PLeaf (Some "ent_count") "2"]))]
    (DName "Root").
Definition ex_bad_ref_version : Version :=
  mkVersion "Regular" "VER_DEFAULT"
    [("Root", SVariant (ex_var "root")); ("Mid", ex_alias "Gone")]
    (DName "Root").
(** A modification that replaces the authors and the tags, and one whose
    palette block names the group. *)
Definition ex_authors_delta : Property :=
  PBlock (Some "Mid")
    [PLeaf (Some "base") "Root"; PLeaf (Some "authors") "Carl, Valve";
     PLeaf (Some "tags") "Cube"; PLeaf (Some "ent_count") "4"].
Definition ex_all_entry : Property :=
  PBlock (Some "all") [PLeaf (Some "pal_name") "Buttons"].
Definition ex_all_delta : Property :=
  PBlock (Some "Mid")
    [PLeaf (Some "base") "Root"; PBlock (Some "Palette") [ex_all_entry]].
Definition ex_grouped_var : ItemVariant :=
  mkVariant 0 1 2 "base" 3 4 5 6 (VStr EmptyString) None
    (Some (VStr "Old name")) (Some (VStr "old_icon.png")).
(** A configuration that holds a section for the package [PAK_TWO]. *)
Definition ex_pack_config : gmap string (gmap string string) :=
  {[ "PAK_TWO" := {[ "Enabled" := "0" ]}; "PAK_ONE" := {[ "Enabled" := "1" ]} ]}.
(** The entry that [modify] puts into the [Instances] block for a child
    of the [Instances] block of the modification. *)
Definition instance_entry (inst : Property) (rn : string) : Property :=
  if has_children inst || negb (isdecimal (casefold rn)) then p_copy inst
  else PBlock (Some rn) [mk_prop (Some "Name") (p_value inst)].

(** A modification that replaces the instance [0]. *)
Definition ex_instance_editor : Property :=
  PBlock (Some "Item")
    [PBlock (Some "Exporting")
       [PBlock (Some "Instances")
          [PBlock (Some "0") [PLeaf (Some "Name") "old.vmf"];
           PBlock (Some "1") [PLeaf (Some "Name") "other.vmf"]]]].
Definition ex_instance_delta : Property :=
  PBlock (Some "Mid")
    [PLeaf (Some "base") "Root";
     PBlock (Some "Instances") [PLeaf (Some "0") "new.vmf"]].
Definition ex_heap_instances : heap := <[0 := OProp ex_instance_editor]> ex_heap.
(** *** [ItemVariant.override_from_folder] *)

Section OverrideFromFolder.
(** [tkMarkdown.join], which is not under src/. *)
Variable md_join : MarkdownData -> MarkdownData -> MarkdownData.

(** [self.override_from_folder(other)]: the lists and the configuration
    of [self] are changed in place, the description is a new object.
    The result is [self] as it is afterwards. *)
Definition override_from_folder (h : heap) (self other : ItemVariant)
    : result (ItemVariant * heap) :=
  other_authors ← read_list h (authors other);
  h1 ← list_extend h (authors self) other_authors;
  own_tags ← read_list h1 (tags self);
  h2 ← list_extend h1 (tags self) own_tags;
  config ← read_prop h2 (vbsp_config self);
  other_config ← read_prop h2 (vbsp_config other);
  merged ← p_add config other_config;
  let h3 := <[vbsp_config self := OProp merged]> h2 in
  our_desc ← read_desc h3 (desc self);
  other_desc ← read_desc h3 (desc other);
  let '(l_desc, h4) := alloc h3 (ODesc (md_join our_desc other_desc)) in
  Ok ({| editor := editor self;
         editor_extra := editor_extra self;
         vbsp_config := vbsp_config self;
         source := source self;
         authors := authors self;
         tags := tags self;
         desc := l_desc;
         icons := icons self;
         ent_count := ent_count self;
         url := url self;
         all_name := all_name self;
         all_icon := all_icon self |}, h4).
End OverrideFromFolder.

(** Two variants with objects of their own: the second holds authors,
    tags and a configuration. *)
Definition ex_heap_two : heap :=
  ex_heap ++
  [OProp (PBlock (Some "Item") []); OProp (PBlock None []);
   OProp (PBlock None [PBlock (Some "Conditions") []]); OList ["Carl"];
   OList ["Cube"]; ODesc (Markdown "More"); ODict []].
Definition ex_var_tagged : ItemVariant :=
  mkVariant 0 1 2 "base" 3 4 5 6 (VStr EmptyString) None None None.
Definition ex_var_other : ItemVariant :=
  mkVariant 7 8 9 "other" 10 11 12 13 (VStr EmptyString) None None None.
Definition ex_heap_tagged : heap := <[4 := OList ["Button"]]> ex_heap_two.
(** The values that a model override gives: those of the children of a
    block, or the one value of a plain entry. *)
Definition override_models (model_prop : Property) : list PValue :=
  if has_children model_prop then map p_value (p_children model_prop)
  else [p_value model_prop].

(** A palette entry that gives two models, and a subtype with one. *)
Definition ex_models_entry : Property :=
  PBlock (Some "0")
    [PBlock (Some "Models")
       [PLeaf (Some "Model") "cube.mdl"; PLeaf (Some "Model") "sphere.mdl"];
     PLeaf (Some "pal_name") "Cubes"].
Definition ex_model_subtype : Property :=
  PBlock (Some "SubType")
    [PLeaf (Some "Name") "First";
     PBlock (Some "Model") [PLeaf (Some "ModelName") "old.mdl"];
     PBlock (Some "Palette") [PLeaf (Some "Tooltip") "First"]].

(** Styles [A <- B] and [Z], and an item whose default version declares
    all three while its second version declares [Z] only. *)
Definition ex_abz_styles : list Style :=
  [mkStyle "A" None; mkStyle "B" (Some "A"); mkStyle "Z" None].
Definition ex_abz_item : Item :=
  mkItem "ITEM"
    [("VER_DEFAULT",
      mkVersion "Regular" "VER_DEFAULT"
        [("A", SVariant (ex_var "a")); ("B", SVariant (ex_var "b"));
         ("Z", SVariant (ex_var "z"))]
        (DName "A"));
     ("VER_ALT",
      mkVersion "Alternate" "VER_ALT"
        [("Z", SVariant (ex_var "alt"))] (DName "Z"))]
    "VER_DEFAULT" (PBlock None []) false.

(** A loop over a list of nodes, the state threaded through the bodies. *)
Fixpoint visit_list {S} (body : S → Property → result (S * Property))
    (st : S) (l : list Property) : result (S * list Property) :=
  match l with
  | [] => Ok (st, [])
  | c :: r =>
      '(st1, c') ← body st c;
      '(st2, r') ← visit_list body st1 r;
      Ok (st2, c' :: r')
  end.

(** An item whose only variant has the editor block [ex_editor]. *)
Definition ex_heap_palette : heap := <[0 := OProp ex_editor]> ex_heap.

(** The slots of [ex_alias_item], the lookup of [C] listed first. *)
Definition ex_alias_item_rev : Item :=
  mkItem "ITEM"
    [("VER_DEFAULT",
      mkVersion "Regular" "VER_DEFAULT"
        [("B", ex_alias "C"); ("A", ex_alias "B");
         ("C", SVariant (ex_var "c"))]
        (DName "B"))]
    "VER_DEFAULT" (PBlock None []) false.

(** An editor block whose [OccupiedVoxels] block holds two [Volume]
    regions, and heaps whose first object is an editor block with one
    region and with two. *)
Definition ex_two_volumes_editor : Property :=
  editor_around (Some "Item") (Some "Exporting") (Some "OccupiedVoxels")
    [PLeaf (Some "Type") "ITEM"] [] [] []
    [PBlock (Some "Volume") ex_corners;
     PBlock (Some "Volume")
       [PLeaf (Some "Pos1") "2 2 0"; PLeaf (Some "Pos2") "3 3 0"]].
Definition ex_heap_voxel : heap := <[0 := OProp ex_voxel_editor]> ex_heap.
Definition ex_heap_two_volumes : heap :=
  <[0 := OProp ex_two_volumes_editor]> ex_heap.

(** A heap whose first object is an editor block with one [Volume]
    region that lacks its second corner. *)
Definition ex_heap_one_corner : heap :=
  <[0 := OProp
           (editor_around (Some "Item") (Some "Exporting")
              (Some "OccupiedVoxels") [PLeaf (Some "Type") "ITEM"] [] [] []
              [PBlock (Some "Volume") [PLeaf (Some "Pos1") "0 0 0"]])]> ex_heap.

(** An item with one version, which defines [Root] and [Mid] only. *)
Definition ex_declared_item : Item :=
  mkItem "ITEM"
    [("VER_DEFAULT",
      mkVersion "Regular" "VER_DEFAULT" ex_declared (DName "Root"))]
    "VER_DEFAULT" (PBlock None []) false.

(** * Theorems *)

(** ** Dictionaries *)

Section DictFacts.
Context {V : Type}.
Implicit Types (d : dict V) (k : string) (v : V).

Lemma str_eqb_eq a b : str_eqb a b = true ↔ a = b.
Proof. unfold str_eqb. by rewrite bool_decide_eq_true. Qed.

Lemma str_eqb_refl a : str_eqb a a = true.
Proof. by apply str_eqb_eq. Qed.

Lemma str_eqb_neq a b : str_eqb a b = false ↔ a ≠ b.
Proof. unfold str_eqb. by rewrite bool_decide_eq_false. Qed.

Lemma dict_get_elem d k v : dict_get d k = Some v → (k, v) ∈ d.
Proof.
  induction d as [|[k' v'] d IH]; simpl; [done|].
  destruct (str_eqb k' k) eqn:E.
  - apply str_eqb_eq in E as ->. intros [= ->]. left.
  - intros H. right. auto.
Qed.

Lemma dict_get_None d k : dict_get d k = None ↔ k ∉ dict_keys d.
Proof.
  induction d as [|[k' v'] d IH]; simpl.
  - split; [intros _; apply not_elem_of_nil | done].
  - destruct (str_eqb k' k) eqn:E.
    + apply str_eqb_eq in E as ->. split; [done|]. intros []. left.
    + apply str_eqb_neq in E. rewrite IH, not_elem_of_cons. naive_solver.
Qed.

Lemma dict_get_is_Some d k : is_Some (dict_get d k) ↔ k ∈ dict_keys d.
Proof.
  destruct (dict_get d k) eqn:E.
  - split; [intros _|eauto].
    apply dict_get_elem in E. apply (list_elem_of_fmap_2 fst) in E. done.
  - split; [by intros []|]. intros H. by apply dict_get_None in E.
Qed.

Lemma dict_elem_get d k v :
  NoDup (dict_keys d) → (k, v) ∈ d → dict_get d k = Some v.
Proof.
  induction d as [|[k' v'] d IH]; simpl.
  - intros _ H. by apply elem_of_nil in H.
  - intros [Hk Hd]%NoDup_cons [[= -> ->]|Hin]%elem_of_cons.
    + by rewrite str_eqb_refl.
    + destruct (str_eqb k' k) eqn:E; [|auto].
      apply str_eqb_eq in E as ->. destruct Hk.
      by apply (list_elem_of_fmap_2 fst) in Hin.
Qed.

Lemma dict_set_keys d k v :
  dict_keys (dict_set d k v) =
    if dict_mem d k then dict_keys d else dict_keys d ++ [k].
Proof.
  unfold dict_mem. induction d as [|[k' v'] d IH]; simpl; [done|].
  destruct (str_eqb k' k) eqn:E; simpl; [done|].
  rewrite IH. by destruct (dict_get d k).
Qed.

Lemma dict_set_NoDup d k v :
  NoDup (dict_keys d) → NoDup (dict_keys (dict_set d k v)).
Proof.
  intros Hd. rewrite dict_set_keys. unfold dict_mem.
  destruct (dict_get d k) eqn:E; [done|].
  apply dict_get_None in E. apply NoDup_app. split_and!; [done| |apply NoDup_singleton].
  intros x Hx ->%list_elem_of_singleton. done.
Qed.

Lemma dict_get_set d k v k' :
  dict_get (dict_set d k v) k' = if str_eqb k k' then Some v else dict_get d k'.
Proof.
  induction d as [|[k0 v0] d IH]; simpl; [done|].
  destruct (str_eqb k0 k) eqn:E; simpl.
  - apply str_eqb_eq in E as ->. by destruct (str_eqb k k').
  - rewrite IH. destruct (str_eqb k0 k') eqn:E'; [|done].
    apply str_eqb_eq in E' as ->.
    destruct (str_eqb k k') eqn:E2; [|done].
    apply str_eqb_eq in E2 as ->. by rewrite str_eqb_refl in E.
Qed.

Lemma dict_set_elem d k v k' v' :
  (k', v') ∈ dict_set d k v → (k' = k ∧ v' = v) ∨ (k', v') ∈ d.
Proof.
  induction d as [|[k0 v0] d IH]; simpl.
  - intros [= -> ->]%list_elem_of_singleton. by left.
  - destruct (str_eqb k0 k) eqn:E.
    + apply str_eqb_eq in E as ->.
      intros [[= -> ->]|H]%elem_of_cons; [by left|right; by right].
    + intros [[= -> ->]|H]%elem_of_cons; [right; left|].
      destruct (IH H); [by left|right; by right].
Qed.

Lemma dict_values_elem d v : v ∈ dict_values d ↔ ∃ k, (k, v) ∈ d.
Proof.
  unfold dict_values. rewrite list_elem_of_fmap. split.
  - intros [[k v'] [-> H]]. eauto.
  - intros [k H]. by exists (k, v).
Qed.
End DictFacts.

(** ** The style resolver *)

Lemma build_all_styles_wf style_data : styles_wf (build_all_styles style_data).
Proof.
  unfold build_all_styles.
  assert (styles_wf []) as H0.
  { split; [apply NoDup_nil_2|]. intros k s H. by apply elem_of_nil in H. }
  revert H0. generalize (@nil (string * Style)).
  induction style_data as [|x l IH]; simpl; [done|].
  intros d [Hnd Hid]. apply IH. split; [by apply dict_set_NoDup|].
  intros k s [[-> ->]|H]%dict_set_elem; [done|by apply Hid].
Qed.

Section Resolver.
Variable A : dict Style.
Hypothesis A_wf : styles_wf A.

Lemma get_of_value s : s ∈ dict_values A → dict_get A (style_id s) = Some s.
Proof.
  destruct A_wf as [Hnd Hid].
  intros [k H]%dict_values_elem. rewrite (Hid _ _ H). by apply dict_elem_get.
Qed.

Lemma value_of_get k s : dict_get A k = Some s → s ∈ dict_values A ∧ style_id s = k.
Proof.
  destruct A_wf as [Hnd Hid].
  intros H%dict_get_elem. split; [apply dict_values_elem; eauto|by apply Hid].
Qed.

Lemma get_base_value s t : get_base A s = Some t → t ∈ dict_values A.
Proof.
  unfold get_base. destruct (base_style s); [|done].
  intros H. by apply value_of_get in H as [].
Qed.

Lemma get_base_named s t :
  get_base A s = Some t → base_style s = Some (style_id t).
Proof.
  unfold get_base. destruct (base_style s); [|done].
  intros H. apply value_of_get in H as [_ ->]. done.
Qed.

Lemma value_id_inj s t :
  s ∈ dict_values A → t ∈ dict_values A → style_id s = style_id t → s = t.
Proof.
  intros Hs%get_of_value Ht%get_of_value E. rewrite E in Hs. congruence.
Qed.

Lemma style_in_spec b base :
  b ∈ dict_values A → Forall (λ s, s ∈ dict_values A) base →
  style_in b base = true ↔ b ∈ base.
Proof.
  intros Hb Hbase. unfold style_in. rewrite existsb_exists. split.
  - intros (s & Hs%list_elem_of_In & E%str_eqb_eq).
    rewrite Forall_forall in Hbase.
    by rewrite <- (value_id_inj s b) by auto.
  - intros H. exists b. rewrite <- list_elem_of_In. by rewrite str_eqb_refl.
Qed.

Lemma values_bound base :
  NoDup base → Forall (λ s, s ∈ dict_values A) base → length base ≤ length A.
Proof.
  intros Hnd Hall. rewrite Forall_forall in Hall.
  replace (length A) with (length (dict_values A))
    by (unfold dict_values; apply length_map).
  apply submseteq_length, NoDup_submseteq; auto.
Qed.

(** The loop never exhausts its budget: a chain holds each style at
    most once. *)
Lemma walk_bases_total fuel base b :
  NoDup base → Forall (λ s, s ∈ dict_values A) base →
  (∀ s, b = Some s → s ∈ dict_values A) →
  length A < fuel + length base →
  is_Some (walk_bases fuel A base b).
Proof.
  revert base b. induction fuel as [|fuel IH]; intros base b Hnd Hall Hb Hlen.
  - apply values_bound in Hall; [|done]. simpl in Hlen. lia.
  - destruct b as [b|]; simpl; [|eauto].
    destruct (style_in b base) eqn:E; [eauto|].
    assert (b ∉ base) as Hnin.
    { intros Hin. apply style_in_spec in Hin; auto. congruence. }
    apply IH.
    + apply NoDup_app. split_and!; [done| |apply NoDup_singleton].
      intros x Hx ->%list_elem_of_singleton. done.
    + apply Forall_app. split; [done|]. apply Forall_singleton. auto.
    + intros s Hs. by apply get_base_value in Hs.
    + rewrite length_app. simpl. lia.
Qed.

Lemma style_bases_total s : s ∈ dict_values A → is_Some (style_bases A s).
Proof.
  intros Hs. apply walk_bases_total.
  - apply NoDup_nil_2.
  - apply Forall_nil_2.
  - by intros ? [= <-].
  - simpl. lia.
Qed.

Lemma linked_snoc base b :
  linked A base (Some b) → linked A (base ++ [b]) (get_base A b).
Proof.
  induction base as [|x [|y r] IH]; simpl in *; [done|by intros ->|].
  intros [-> H]. split; [done|]. by apply IH.
Qed.

Lemma linked_lookup l nxt i x y :
  linked A l nxt → l !! i = Some x → l !! S i = Some y →
  get_base A x = Some y.
Proof.
  revert i. induction l as [|a [|b r] IH]; intros i Hl Hx Hy; [done| |].
  - by destruct i.
  - destruct Hl as [Hab Hl]. destruct i as [|i]; simpl in *.
    + congruence.
    + eapply IH; eauto.
Qed.

Lemma linked_last l nxt x : linked A l nxt → last l = Some x → get_base A x = nxt.
Proof.
  induction l as [|a [|b r] IH]; [done| |].
  - simpl. by intros <- [= ->].
  - intros [_ Hl] H. by apply IH.
Qed.

Lemma linked_iter l1 x l2 nxt :
  linked A (l1 ++ x :: l2) nxt →
  iter_parent A (S (length l2)) (Some x) = nxt.
Proof.
  induction l1 as [|a l1 IH].
  - simpl app. revert x. induction l2 as [|y l2 IH2]; intros x.
    + simpl. done.
    + intros [Hxy Hl]. cbn [length iter_parent mbind option_bind].
      rewrite Hxy. by apply IH2.
  - intros H. apply IH. simpl in H.
    destruct (l1 ++ x :: l2) eqn:E; [by destruct l1|]. by destruct H.
Qed.

(** What the loop returns: the finished chain extends [base], is linked
    throughout and its last style has no base among the styles. *)
Lemma walk_bases_ok fuel base b l :
  linked A base b → (base = [] → is_Some b) →
  walk_bases fuel A base b = Some (Ok l) →
  linked A l None ∧ base `prefix_of` l ∧ l ≠ [] ∧
  (base = [] → ∃ s, b = Some s ∧ l !! 0 = Some s).
Proof.
  revert base b. induction fuel as [|fuel IH]; intros base b Hl Hne;
    (destruct b as [b|]; simpl;
     [destruct (style_in b base); [done|]|]); try done.
  - intros [= <-]. split_and!; [done|done| |].
    + intros ->. by destruct Hne as [? ?].
    + intros ->. by destruct Hne as [? ?].
  - intros H. apply IH in H as (H1 & H2 & H3 & _).
    + split_and!; [done| |done|].
      * etrans; [|apply H2]. by apply prefix_app_r.
      * intros ->. exists b. split; [done|].
        destruct H2 as [k ->]. done.
    + by apply linked_snoc.
    + by destruct base.
  - intros [= <-]. split_and!; [done|done| |].
    + intros ->. by destruct Hne as [? ?].
    + intros ->. by destruct Hne as [? ?].
Qed.

(** When the loop raises, the style it names was reached twice. *)
Lemma walk_bases_raise fuel base b e :
  linked A base b → Forall (λ s, s ∈ dict_values A) base →
  (∀ s, b = Some s → s ∈ dict_values A) →
  walk_bases fuel A base b = Some (Raise e) →
  ∃ s, e = Exception (loop_msg (style_id s)) ∧ s ∈ dict_values A ∧ on_cycle A s.
Proof.
  revert base b. induction fuel as [|fuel IH]; intros base b Hl Hall Hb;
    (destruct b as [b|]; simpl; [destruct (style_in b base) eqn:E|]); try done.
  - intros [= <-]. exists b. split_and!; [done|auto|].
    apply style_in_spec in E; auto.
    apply list_elem_of_split in E as (l1 & l2 & ->).
    exists (length l2). by apply linked_iter in Hl.
  - intros [= <-]. exists b. split_and!; [done|auto|].
    apply style_in_spec in E; auto.
    apply list_elem_of_split in E as (l1 & l2 & ->).
    exists (length l2). by apply linked_iter in Hl.
  - intros H. apply IH in H; [done| | |].
    + by apply linked_snoc.
    + apply Forall_app. split; [done|]. apply Forall_singleton. auto.
    + intros s Hs. by apply get_base_value in Hs.
Qed.

Lemma iter_parent_None n : iter_parent A n None = None.
Proof. induction n; simpl; auto. Qed.

Lemma iter_parent_add n m o :
  iter_parent A (n + m) o = iter_parent A m (iter_parent A n o).
Proof. revert o. induction n; intros o; simpl; auto. Qed.

Lemma on_cycle_forever s k : on_cycle A s → iter_parent A k (Some s) ≠ None.
Proof.
  intros [n Hn] Hk.
  assert (∀ j, iter_parent A (j * S n) (Some s) = Some s) as Hmul.
  { induction j as [|j IHj]; [done|].
    replace (S j * S n) with (S n + j * S n) by lia.
    by rewrite iter_parent_add, Hn. }
  specialize (Hmul (S k)).
  replace (S k * S n) with (k + (S k * S n - k)) in Hmul by lia.
  rewrite iter_parent_add, Hk, iter_parent_None in Hmul. done.
Qed.

Lemma style_bases_ok_acyclic s l :
  style_bases A s = Some (Ok l) → ¬ on_cycle A s.
Proof.
  intros H Hc. apply walk_bases_ok in H as (Hl & _ & _ & Hhd); [|done|eauto].
  destruct (Hhd eq_refl) as (s' & [= <-] & H0).
  destruct l as [|x l]; [done|]. injection H0 as ->.
  apply (linked_iter []) in Hl. by apply on_cycle_forever in Hl.
Qed.

Lemma resolve_loop_total todo :
  Forall (λ s, s ∈ dict_values A) todo → is_Some (resolve_loop A todo).
Proof.
  induction 1 as [|s todo Hs _ IH]; simpl; [eauto|].
  destruct (style_bases_total s Hs) as [[l|e] ->]; [|eauto].
  destruct IH as [[bs|e] ->]; eauto.
Qed.

Lemma resolve_loop_ok todo bs :
  resolve_loop A todo = Some (Ok bs) →
  dict_keys bs = map style_id todo ∧
  Forall2 (λ s kl, kl.1 = style_id s ∧ style_bases A s = Some (Ok kl.2)) todo bs.
Proof.
  revert bs. induction todo as [|s todo IH]; intros bs; simpl.
  - intros [= <-]. split; [done|constructor].
  - destruct (style_bases A s) as [[l|e]|] eqn:E; try done.
    destruct (resolve_loop A todo) as [[bs'|e]|]; try done.
    intros [= <-]. destruct (IH _ eq_refl) as [IH1 IH2].
    split; [simpl; by rewrite IH1|]. constructor; [done|done].
Qed.

Lemma resolve_loop_raise todo e :
  resolve_loop A todo = Some (Raise e) →
  ∃ s, s ∈ todo ∧ style_bases A s = Some (Raise e).
Proof.
  induction todo as [|s todo IH]; simpl; [done|].
  destruct (style_bases A s) as [[l|e']|] eqn:E; try done.
  - destruct (resolve_loop A todo) as [[bs'|e']|]; try done.
    intros [= <-]. destruct (IH eq_refl) as (s' & H1 & H2).
    exists s'. split; [by right|done].
  - intros [= <-]. exists s. split; [left|done].
Qed.
End Resolver.

Lemma resolve_bases_lookup style_data bs s :
  resolve_bases style_data = Some (Ok bs) →
  s ∈ dict_values (build_all_styles style_data) →
  ∃ l, dict_get bs (style_id s) = Some l ∧
       style_bases (build_all_styles style_data) s = Some (Ok l).
Proof.
  unfold resolve_bases.
  pose proof (build_all_styles_wf style_data) as Hwf.
  set (A := build_all_styles style_data) in *.
  intros [Hk HF]%resolve_loop_ok Hs.
  assert (NoDup (dict_keys bs)) as Hnd.
  { rewrite Hk. destruct Hwf as [Hnd Hid].
    replace (map style_id (dict_values A)) with (dict_keys A); [done|].
    unfold dict_keys, dict_values. rewrite map_map. apply map_ext_in.
    intros [k v] Hin%list_elem_of_In. simpl. symmetry. by apply Hid. }
  apply list_elem_of_lookup in Hs as [i Hi].
  destruct (Forall2_lookup_l _ _ _ _ _ HF Hi) as ([k l] & Hb & Hkl & Hsb).
  simpl in *. subst k. exists l. split; [|done].
  apply dict_elem_get; [done|]. apply list_elem_of_lookup. eauto.
Qed.

Lemma prefix_append (x b : string) : String.prefix x (x +:+ b) = true.
Proof.
  induction x as [|c x IH]; simpl; [by destruct b|].
  destruct (ascii_dec c c); [done|congruence].
Qed.

Lemma str_contains_append (a x b : string) :
  str_contains x (a +:+ x +:+ b) = true.
Proof.
  induction a as [|c a IH].
  - change (str_contains x (x +:+ b) = true).
    pose proof (prefix_append x b) as Hp.
    destruct (x +:+ b); cbn [str_contains]; by rewrite Hp.
  - change (str_contains x (String c (a +:+ x +:+ b)) = true).
    cbn [str_contains]. rewrite IH. apply orb_true_r.
Qed.

(** C4: a style graph whose [base_style] references contain a cycle makes
    ancestor-chain resolution stop with the fatal error
    [Loop in bases for "<id>"!], a text that holds the id of a style on
    a cycle; an acyclic graph resolves normally and every style receives
    a chain.  In both cases the loop finishes within its iteration
    budget: resolution always returns. *)
Theorem style_cycle_fatal_acyclic_resolves (style_data : list Style) :
  let A := build_all_styles style_data in
  is_Some (resolve_bases style_data) ∧
  (has_cycle A →
     ∃ s, resolve_bases style_data
            = Some (Raise (Exception (loop_msg (style_id s)))) ∧
          str_contains (style_id s) (loop_msg (style_id s)) = true ∧
          s ∈ dict_values A ∧ on_cycle A s) ∧
  (¬ has_cycle A →
     ∃ bs, resolve_bases style_data = Some (Ok bs) ∧
           ∀ s, s ∈ dict_values A →
                ∃ l, dict_get bs (style_id s) = Some l ∧ l !! 0 = Some s).
Proof.
  intros A. pose proof (build_all_styles_wf style_data) as Hwf. fold A in Hwf.
  assert (is_Some (resolve_bases style_data)) as Htot.
  { apply resolve_loop_total; [done|]. by apply Forall_forall. }
  split; [done|]. destruct Htot as [[bs|e] Hr].
  - split.
    + intros (s & Hs & Hc). exfalso.
      destruct (resolve_bases_lookup _ _ _ Hr Hs) as (l & _ & Hl).
      by apply style_bases_ok_acyclic in Hl.
    + intros _. exists bs. split; [done|]. intros s Hs.
      destruct (resolve_bases_lookup _ _ _ Hr Hs) as (l & Hg & Hl).
      exists l. split; [done|].
      apply walk_bases_ok in Hl as (_ & _ & _ & Hhd); [|done..|eauto].
      destruct (Hhd eq_refl) as (s' & [= <-] & H0). done.
  - assert (∃ s, e = Exception (loop_msg (style_id s)) ∧
                 s ∈ dict_values A ∧ on_cycle A s) as (s & -> & Hs & Hc).
    { apply resolve_loop_raise in Hr as (s & Hs & Hr).
      eapply walk_bases_raise in Hr; eauto.
      - done.
      - by intros ? [= <-]. }
    assert (str_contains (style_id s) (loop_msg (style_id s)) = true) as Hn.
    { unfold loop_msg. apply (str_contains_append ("Loop in bases for " +:+ dq)). }
    split.
    + intros _. eauto.
    + intros []. exists s. done.
Qed.

(** The loop [A -> B -> A]: resolution stops at the first style, with a
    message that names it. *)
Lemma style_cycle_fatal_acyclic_resolves_witness :
  has_cycle (build_all_styles [ex_loop_a; ex_loop_b]) ∧
  resolve_bases [ex_loop_a; ex_loop_b]
    = Some (Raise (Exception (loop_msg "A"))) ∧
  (∃ s, resolve_bases [ex_loop_a; ex_loop_b]
          = Some (Raise (Exception (loop_msg (style_id s)))) ∧
        str_contains (style_id s) (loop_msg (style_id s)) = true ∧
        s ∈ dict_values (build_all_styles [ex_loop_a; ex_loop_b]) ∧
        on_cycle (build_all_styles [ex_loop_a; ex_loop_b]) s).
Proof.
  assert (has_cycle (build_all_styles [ex_loop_a; ex_loop_b])) as Hc.
  { exists ex_loop_a. split; [left|]. exists 1. reflexivity. }
  split; [exact Hc|]. split; [reflexivity|].
  exact (proj1 (proj2 (style_cycle_fatal_acyclic_resolves
                         [ex_loop_a; ex_loop_b])) Hc).
Defined.

(** C9 (as amended): after successful style resolution, the chain
    [bases] of every style starts with the style itself, each next entry
    is the style named by the previous entry's [base_style], and the
    last entry has no parent among the styles: it has no [base_style],
    or its [base_style] names a style that is not known. *)
Theorem resolved_bases_chain (style_data : list Style)
    (bs : dict (list Style)) (s : Style) :
  let A := build_all_styles style_data in
  resolve_bases style_data = Some (Ok bs) →
  s ∈ dict_values A →
  ∃ bases, dict_get bs (style_id s) = Some bases ∧
    bases !! 0 = Some s ∧
    (∀ i x y, bases !! i = Some x → bases !! S i = Some y →
       base_style x = Some (style_id y) ∧ dict_get A (style_id y) = Some y) ∧
    (∃ r, last bases = Some r ∧
          (base_style r = None
           ∨ ∃ b, base_style r = Some b ∧ dict_get A b = None)).
Proof.
  intros A Hr Hs. pose proof (build_all_styles_wf style_data) as Hwf.
  fold A in Hwf.
  destruct (resolve_bases_lookup _ _ _ Hr Hs) as (l & Hg & Hl).
  exists l. split; [done|].
  apply walk_bases_ok in Hl as (Hlink & _ & Hne & Hhd); [|done..|eauto].
  destruct (Hhd eq_refl) as (s' & [= <-] & H0).
  split_and!; [done| |].
  - intros i x y Hx Hy. pose proof (linked_lookup _ _ _ _ _ _ Hlink Hx Hy) as Hb.
    split; [by eapply get_base_named|].
    apply get_of_value; [done|]. by eapply get_base_value.
  - destruct (last l) as [r|] eqn:E.
    + exists r. split; [done|].
      assert (get_base A r = None) as Hb by by eapply linked_last.
      unfold get_base in Hb. destruct (base_style r) as [b|]; eauto.
    + apply last_None in E. done.
Qed.

(** The chain that the resolver gives to [Leaf] under
    [Root <- Mid <- Leaf]. *)
Lemma resolved_bases_chain_witness :
  resolve_bases ex_chain_styles = Some (Ok ex_chain_bases) ∧
  ∃ bases,
    dict_get ex_chain_bases "Leaf" = Some bases ∧
    bases !! 0 = Some ex_leaf ∧
    (∀ i x y, bases !! i = Some x → bases !! S i = Some y →
       base_style x = Some (style_id y) ∧
       dict_get (build_all_styles ex_chain_styles) (style_id y) = Some y) ∧
    (∃ r, last bases = Some r ∧
          (base_style r = None
           ∨ ∃ b, base_style r = Some b ∧
                  dict_get (build_all_styles ex_chain_styles) b = None)).
Proof.
  split; [reflexivity|].
  apply (resolved_bases_chain ex_chain_styles ex_chain_bases ex_leaf).
  - reflexivity.
  - right. right. left.
Defined.

(** C9 as stated fails for a style whose [base_style] names a style that
    is not known: resolution succeeds, the chain holds the style alone,
    and its last entry names a parent. *)
Lemma resolved_bases_chain_counterexample :
  ∃ bs bases r,
    resolve_bases [ex_lone] = Some (Ok bs) ∧
    dict_get bs "Lone" = Some bases ∧
    bases = [ex_lone] ∧
    last bases = Some r ∧
    base_style r = Some "Gone".
Proof.
  eexists _, _, _. split_and!; [vm_compute; reflexivity|reflexivity..].
Qed.

(** ** Loops and searches *)

Lemma for_each_app {A B} (f : A → B → result A) a l1 l2 :
  for_each f a (l1 ++ l2) = (a' ← for_each f a l1; for_each f a' l2).
Proof.
  revert a. induction l1 as [|x l1 IH]; intros a; simpl; [done|].
  destruct (f a x) as [a'|e]; simpl; [apply IH|done].
Qed.

Lemma for_each_invariant {A B} (P : A → Prop) (f : A → B → result A) l :
  (∀ a x a', x ∈ l → P a → f a x = Ok a' → P a') →
  ∀ a a', P a → for_each f a l = Ok a' → P a'.
Proof.
  induction l as [|x l IH]; intros Hstep a a' Ha; simpl.
  - by intros [= <-].
  - destruct (f a x) as [a1|e] eqn:E; simpl; [|done].
    apply IH.
    + intros ???? ; apply Hstep. by right.
    + eapply Hstep; eauto. left.
Qed.

Lemma find_split {A} (P : A → bool) l b :
  find P l = Some b →
  ∃ l1 l2, l = l1 ++ b :: l2 ∧ P b = true ∧ Forall (λ x, P x = false) l1.
Proof.
  induction l as [|x l IH]; simpl; [done|].
  destruct (P x) eqn:E.
  - intros [= ->]. exists [], l. split_and!; [done|done|constructor].
  - intros (l1 & l2 & -> & Hb & Hl1)%IH.
    exists (x :: l1), l2. split_and!; [done|done|by constructor].
Qed.

Lemma find_None_Forall {A} (P : A → bool) l :
  find P l = None ↔ Forall (λ x, P x = false) l.
Proof.
  induction l as [|x l IH]; simpl; [split; [constructor|done]|].
  destruct (P x) eqn:E.
  - split; [done|]. intros [? ?]%Forall_cons. congruence.
  - rewrite IH. split; [by constructor|]. by intros [? ?]%Forall_cons.
Qed.

Lemma find_skip {A} (P : A → bool) l1 l2 :
  Forall (λ x, P x = false) l1 → find P (l1 ++ l2) = find P l2.
Proof.
  induction 1 as [|x l1 Hx _ IH]; simpl; [done|]. by rewrite Hx.
Qed.

Lemma find_ext_Forall {A} (P Q : A → bool) l :
  Forall (λ x, P x = Q x) l → find P l = find Q l.
Proof.
  induction 1 as [|x l Hx _ IH]; simpl; [done|]. by rewrite Hx, IH.
Qed.

Lemma dict_mem_true {V} (d : dict V) k : dict_mem d k = true ↔ k ∈ dict_keys d.
Proof.
  unfold dict_mem. rewrite <- dict_get_is_Some.
  destruct (dict_get d k); split; eauto; try done; by intros [].
Qed.

Lemma dict_mem_false {V} (d : dict V) k : dict_mem d k = false ↔ k ∉ dict_keys d.
Proof. rewrite <- dict_mem_true. by destruct (dict_mem d k). Qed.

Lemma dict_mem_get {V} (d : dict V) k :
  dict_mem d k = true ↔ is_Some (dict_get d k).
Proof.
  unfold dict_mem. destruct (dict_get d k); split; eauto; try done; by intros [].
Qed.

Lemma dict_mem_set {V} (d : dict V) k v k' :
  dict_mem (dict_set d k v) k' = str_eqb k k' || dict_mem d k'.
Proof. unfold dict_mem. rewrite dict_get_set. by destruct (str_eqb k k'). Qed.

Lemma dict_set_keys_in {V} (d : dict V) k v :
  dict_mem d k = true → dict_keys (dict_set d k v) = dict_keys d.
Proof. intros H. by rewrite dict_set_keys, H. Qed.

(** ** The chains used by the completion engine *)

Section Chains.
Variable style_data : list Style.
Variable bases : dict (list Style).
Hypothesis resolved : resolve_bases style_data = Some (Ok bases).
Let A := build_all_styles style_data.

Local Lemma A_wf : styles_wf A.
Proof. apply build_all_styles_wf. Qed.

Lemma linked_values l nxt :
  linked A l nxt → (∀ x, head l = Some x → x ∈ dict_values A) →
  Forall (λ x, x ∈ dict_values A) l.
Proof.
  induction l as [|x [|y r] IH]; intros Hl Hh; [constructor| |].
  - constructor; [by apply Hh|constructor].
  - destruct Hl as [Hxy Hl]. constructor; [by apply Hh|].
    apply IH; [done|]. intros ? [= <-]. eapply get_base_value; eauto using A_wf.
Qed.

Lemma linked_app_r l1 l2 nxt : linked A (l1 ++ l2) nxt → l2 ≠ [] → linked A l2 nxt.
Proof.
  induction l1 as [|x l1 IH]; [done|]. intros H Hne. apply IH; [|done].
  simpl in H. destruct (l1 ++ l2) eqn:E; [by destruct l1, l2|]. by destruct H.
Qed.

Lemma linked_det x l1 l2 :
  linked A (x :: l1) None → linked A (x :: l2) None → l1 = l2.
Proof.
  revert x l2. induction l1 as [|y l1 IH]; intros x [|z l2]; simpl; try done.
  - intros H1 [H2 _]. congruence.
  - intros [H1 _] H2. congruence.
  - intros [H1 Hl1] [H2 Hl2]. assert (y = z) as <- by congruence.
    f_equal. eapply IH; eauto.
Qed.

Lemma chain_of s :
  s ∈ dict_values A →
  ∃ l, bases_of bases s = s :: l ∧ linked A (s :: l) None.
Proof.
  intros Hs. destruct (resolve_bases_lookup _ _ _ resolved Hs) as (l & Hg & Hl).
  apply walk_bases_ok in Hl as (Hlink & _ & _ & Hhd); [|done..|eauto].
  destruct (Hhd eq_refl) as (s' & [= <-] & H0).
  destruct l as [|x l]; [done|]. injection H0 as ->.
  exists l. unfold bases_of. by rewrite Hg.
Qed.

Lemma chain_values s : s ∈ dict_values A →
  Forall (λ x, x ∈ dict_values A) (bases_of bases s).
Proof.
  intros Hs. destruct (chain_of s Hs) as (l & -> & Hl).
  eapply linked_values; [done|]. by intros ? [= <-].
Qed.

Lemma chain_suffix s l1 b l2 :
  s ∈ dict_values A → bases_of bases s = l1 ++ b :: l2 →
  bases_of bases b = b :: l2.
Proof.
  intros Hs E. pose proof (chain_values s Hs) as Hv.
  destruct (chain_of s Hs) as (l & E' & Hl). rewrite <- E', E in Hl.
  apply linked_app_r in Hl; [|done].
  rewrite E in Hv. apply Forall_app in Hv as [_ [Hb _]%Forall_cons].
  destruct (chain_of b Hb) as (l' & -> & Hl'). f_equal.
  eapply linked_det; eauto.
Qed.
End Chains.

(** ** The fill pass of the completion engine *)

Section Fill.
Variable style_data : list Style.
Variable bases : dict (list Style).
Hypothesis resolved : resolve_bases style_data = Some (Ok bases).
Variables (is_def : bool) (def_styles : dict Slot) (d : DefStyle).
Let A := build_all_styles style_data.
Let step := fill_style bases is_def def_styles d.

(** The nearest entry of the chain of [s] with a slot in [m]. *)
Let nearest (m : dict Slot) (s : Style) : option Style :=
  find (λ b, dict_mem m (style_id b)) (bases_of bases s).

Lemma fill_style_cases st k s st' :
  step st (k, s) = Ok st' →
  (dict_mem st k = true ∧ st' = st) ∨
  (dict_mem st k = false ∧ ∃ v, st' = dict_set st k v ∧
     match nearest st s with
     | Some b => dict_get st (style_id b) = Some v
     | None => if is_def then def_style_slot st d = Ok v
               else dict_get def_styles k = Some v
     end).
Proof.
  unfold step, fill_style, nearest. destruct (dict_mem st k) eqn:E.
  - intros [= <-]. by left.
  - intros H. right. split; [done|].
    destruct (find _ _) as [b|].
    + unfold dict_item in H. destruct (dict_get st (style_id b)) as [v|]; [|done].
      injection H as <-. eauto.
    + destruct is_def.
      * destruct (def_style_slot st d) as [v|]; [|done]. injection H as <-. eauto.
      * unfold dict_item in H. destruct (dict_get def_styles k) as [v|]; [|done].
        injection H as <-. eauto.
Qed.

Lemma fill_style_mono st e st' k v :
  step st e = Ok st' → dict_get st k = Some v → dict_get st' k = Some v.
Proof.
  destruct e as [k0 s].
  intros [[_ ->]|(Hm & v0 & -> & _)]%fill_style_cases Hk; [done|].
  rewrite dict_get_set. destruct (str_eqb k0 k) eqn:E; [|done].
  apply str_eqb_eq in E as ->. unfold dict_mem in Hm. by rewrite Hk in Hm.
Qed.

Lemma fill_style_mem st k s st' k' :
  step st (k, s) = Ok st' →
  dict_mem st' k' = dict_mem st k' || str_eqb k k'.
Proof.
  intros [[Hm ->]|(Hm & v0 & -> & _)]%fill_style_cases.
  - destruct (str_eqb k k') eqn:E; [|by rewrite orb_false_r].
    apply str_eqb_eq in E as <-. by rewrite Hm.
  - rewrite dict_mem_set. apply orb_comm.
Qed.

Lemma fill_run_mono l st st' k v :
  for_each step st l = Ok st' → dict_get st k = Some v → dict_get st' k = Some v.
Proof.
  intros Hrun Hk. revert Hrun.
  apply (for_each_invariant (λ x, dict_get x k = Some v)); [|done].
  intros a x a' _ Ha Hs. by eapply fill_style_mono.
Qed.

Lemma fill_run_mem l st st' k' :
  for_each step st l = Ok st' →
  dict_mem st' k' = dict_mem st k' || bool_decide (k' ∈ l.*1).
Proof.
  revert st. induction l as [|[k s] l IH]; intros st Hrun.
  - injection Hrun as <-.
    rewrite bool_decide_eq_false_2; [by rewrite orb_false_r|apply not_elem_of_nil].
  - cbn [for_each] in Hrun.
    destruct (step st (k, s)) as [st1|] eqn:E; [|done].
    cbn in Hrun. rewrite (IH _ Hrun), (fill_style_mem _ _ _ _ _ E).
    rewrite <- orb_assoc. f_equal. rewrite fmap_cons. cbn [fst].
    destruct (str_eqb k k') eqn:E'.
    + apply str_eqb_eq in E' as ->. symmetry. apply bool_decide_eq_true. left.
    + apply str_eqb_neq in E'. rewrite orb_false_l. apply bool_decide_ext.
      rewrite elem_of_cons. naive_solver.
Qed.

(** Every slot filled so far follows the priority order with respect
    to the declared map [m]. *)
Let filled_ok (m st : dict Slot) : Prop :=
  ∀ t, t ∈ dict_values A → dict_mem m (style_id t) = false →
       dict_mem st (style_id t) = true →
       match nearest m t with
       | Some a => dict_get st (style_id t) = dict_get m (style_id a)
       | None => is_def = true →
                 ∃ k, d = DName k ∧ dict_get st (style_id t) = dict_get st k
       end.

Local Lemma nearest_below m st s l1 b l2 :
  (∀ k v, dict_get m k = Some v → dict_get st k = Some v) →
  bases_of bases s = l1 ++ b :: l2 →
  Forall (λ x, dict_mem st (style_id x) = false) l1 →
  nearest m s = find (λ b, dict_mem m (style_id b)) (b :: l2).
Proof.
  intros Hmono E Hl1. unfold nearest. rewrite E. apply find_skip.
  eapply Forall_impl; [exact Hl1|]. intros x Hx. simpl in Hx.
  destruct (dict_mem m (style_id x)) eqn:E'; [|done].
  apply dict_mem_get in E' as [v Hv]. apply Hmono in Hv.
  unfold dict_mem in Hx. by rewrite Hv in Hx.
Qed.

Lemma filled_ok_step m st k s st' :
  (k, s) ∈ A →
  (∀ k v, dict_get m k = Some v → dict_get st k = Some v) →
  filled_ok m st → step st (k, s) = Ok st' → filled_ok m st'.
Proof.
  intros Hin Hmono Hok Hstep.
  pose proof (build_all_styles_wf style_data) as Hwf. fold A in Hwf.
  assert (s ∈ dict_values A) as Hs by (apply dict_values_elem; eauto).
  assert (style_id s = k) as Hid by (by apply Hwf).
  destruct (fill_style_cases _ _ _ _ Hstep) as [[_ ->]|(Hm & v & -> & Hv)]; [done|].
  intros t Ht Hmt Hst.
  destruct (decide (style_id t = k)) as [Etk|Ntk].
  - assert (t = s) as -> by (eapply value_id_inj; eauto; congruence).
    rewrite Etk, dict_get_set, str_eqb_refl.
    destruct (nearest st s) as [b|] eqn:Eb.
    + apply find_split in Eb as (l1 & l2 & E & Hb & Hl1).
      pose proof (chain_values _ _ resolved s Hs) as Hcv. fold A in Hcv.
      rewrite E in Hcv. apply Forall_app in Hcv as [_ [Hbv _]%Forall_cons].
      rewrite (nearest_below m st s l1 b l2 Hmono E Hl1). simpl.
      destruct (dict_mem m (style_id b)) eqn:Emb.
      * apply dict_mem_get in Emb as [w Hw]. rewrite Hw.
        apply Hmono in Hw. congruence.
      * specialize (Hok b Hbv Emb Hb). unfold nearest in Hok.
        rewrite (chain_suffix _ _ resolved s l1 b l2 Hs E) in Hok.
        simpl in Hok. rewrite Emb in Hok.
        destruct (find _ l2) as [a|].
        -- congruence.
        -- intros Hd. destruct (Hok Hd) as (k0 & -> & Hk0).
           exists k0. split; [done|]. rewrite dict_get_set.
           destruct (str_eqb k k0) eqn:E0; [|congruence].
           apply str_eqb_eq in E0 as <-. unfold dict_mem in Hm.
           rewrite <- Hk0, Hv in Hm. done.
    + assert (nearest m s = None) as ->.
      { apply find_None_Forall. apply find_None_Forall in Eb.
        eapply Forall_impl; [exact Eb|]. intros x Hx. simpl in Hx.
        destruct (dict_mem m (style_id x)) eqn:E'; [|done].
        apply dict_mem_get in E' as [w Hw]. apply Hmono in Hw.
        unfold dict_mem in Hx. by rewrite Hw in Hx. }
      intros Hd. rewrite Hd in Hv. destruct d as [|k0|]; try done.
      exists k0. split; [done|]. simpl in Hv. unfold dict_item in Hv.
      destruct (dict_get st k0) as [w|] eqn:Ew; [|done]. injection Hv as ->.
      rewrite dict_get_set. by destruct (str_eqb k k0).
  - assert (str_eqb k (style_id t) = false) as Eq by (apply str_eqb_neq; congruence).
    rewrite dict_mem_set, Eq in Hst. simpl in Hst.
    specialize (Hok t Ht Hmt Hst). rewrite dict_get_set, Eq.
    destruct (nearest m t) as [a|]; [done|].
    intros Hd. destruct (Hok Hd) as (k0 & -> & Hk0). exists k0. split; [done|].
    rewrite dict_get_set. destruct (str_eqb k k0) eqn:E0; [|done].
    apply str_eqb_eq in E0 as <-. apply dict_mem_get in Hst as [w Hw].
    unfold dict_mem in Hm. rewrite <- Hk0, Hw in Hm. done.
Qed.

Lemma filled_ok_run m l st st' :
  (∀ e, e ∈ l → e ∈ A) →
  (∀ k v, dict_get m k = Some v → dict_get st k = Some v) →
  filled_ok m st → for_each step st l = Ok st' →
  filled_ok m st' ∧ (∀ k v, dict_get m k = Some v → dict_get st' k = Some v).
Proof.
  revert st. induction l as [|[k s] l IH]; intros st Hl Hmono Hok Hrun.
  - by injection Hrun as <-.
  - cbn [for_each] in Hrun.
    destruct (step st (k, s)) as [st1|] eqn:E; [|done].
    cbn in Hrun. revert Hrun. apply IH.
    + intros e He. apply Hl. by right.
    + intros k0 v0 H0. eapply fill_style_mono; eauto.
    + eapply filled_ok_step; eauto. apply Hl. left.
Qed.

Lemma filled_ok_init m : filled_ok m m.
Proof. intros t _ H1 H2. congruence. Qed.

(** The value given to [s] when its turn comes, in terms of the styles
    visited before it. *)
Lemma fill_at_turn m m' pre post s :
  A = pre ++ (style_id s, s) :: post →
  for_each step m A = Ok m' →
  dict_mem m (style_id s) = false →
  nearest m s = None →
  match find (λ b, bool_decide (style_id b ∈ pre.*1)) (bases_of bases s) with
  | Some b => dict_get m' (style_id s) = dict_get m' (style_id b) ∧
              is_Some (dict_get m' (style_id s))
  | None => if is_def then True
            else dict_get m' (style_id s) = dict_get def_styles (style_id s)
  end.
Proof.
  intros EA Hrun Hms Hnear.
  pose proof (build_all_styles_wf style_data) as [Hnd _]. fold A in Hnd.
  rewrite EA in Hrun, Hnd. rewrite for_each_app in Hrun.
  destruct (for_each step m pre) as [st|] eqn:Epre; [|done].
  cbn [mbind result_bind for_each] in Hrun.
  destruct (step st (style_id s, s)) as [st1|] eqn:Es; [|done].
  cbn [mbind result_bind] in Hrun.
  assert (∀ k, dict_mem st k = dict_mem m k || bool_decide (k ∈ pre.*1)) as Hmem.
  { intros k. by apply fill_run_mem. }
  assert (style_id s ∉ pre.*1) as Hnpre.
  { unfold dict_keys in Hnd. rewrite fmap_app in Hnd.
    apply NoDup_app in Hnd as (_ & Hd & _). intros Hin. apply (Hd _ Hin). left. }
  destruct (fill_style_cases _ _ _ _ Es) as [[Hm _]|(Hm & v & -> & Hv)].
  { rewrite Hmem, Hms in Hm. simpl in Hm. by apply bool_decide_eq_true in Hm. }
  assert (nearest st s =
          find (λ b, bool_decide (style_id b ∈ pre.*1)) (bases_of bases s)) as En.
  { unfold nearest. apply find_ext_Forall. apply find_None_Forall in Hnear.
    eapply Forall_impl; [exact Hnear|]. intros x Hx. simpl in Hx.
    by rewrite Hmem, Hx. }
  rewrite En in Hv.
  assert (dict_get m' (style_id s) = Some v) as Hsv.
  { eapply fill_run_mono; [exact Hrun|]. by rewrite dict_get_set, str_eqb_refl. }
  destruct (find _ _) as [b|].
  - rewrite Hsv. split; [|eauto]. symmetry.
    eapply fill_run_mono; [exact Hrun|]. rewrite dict_get_set.
    destruct (str_eqb (style_id s) (style_id b)) eqn:E; [|done].
    apply str_eqb_eq in E. unfold dict_mem in Hm. by rewrite E, Hv in Hm.
  - destruct is_def; [done|]. congruence.
Qed.
End Fill.

(** The first pass keeps every declared slot (exact match); a style [s]
    without a declared slot receives the definition of the nearest entry
    of its chain that the version declares; failing that, in the default
    version, the version's default-style slot; and in another version, the
    value already filled into the nearest ancestor that was visited before
    [s], or else the default version's slot for [s]. *)
Lemma fill_pass_priority (style_data : list Style) (bases : dict (list Style))
    (is_def : bool) (def_styles m m' : dict Slot) (d : DefStyle)
    (pre post : list (string * Style)) (s : Style) :
  resolve_bases style_data = Some (Ok bases) →
  build_all_styles style_data = pre ++ (style_id s, s) :: post →
  fill_pass (build_all_styles style_data) bases is_def def_styles d m = Ok m' →
  (∀ k v, dict_get m k = Some v → dict_get m' k = Some v) ∧
  is_Some (dict_get m' (style_id s)) ∧
  (dict_mem m (style_id s) = false →
   match find (λ b, dict_mem m (style_id b)) (bases_of bases s) with
   | Some a => dict_get m' (style_id s) = dict_get m (style_id a)
   | None =>
       if is_def then
         ∃ k, d = DName k ∧ dict_get m' (style_id s) = dict_get m' k
       else
         match find (λ b, bool_decide (style_id b ∈ pre.*1)) (bases_of bases s) with
         | Some b => dict_get m' (style_id s) = dict_get m' (style_id b)
         | None => dict_get m' (style_id s) = dict_get def_styles (style_id s)
         end
   end).
Proof.
  intros Hres EA Hrun. unfold fill_pass in Hrun.
  destruct (filled_ok_run style_data bases Hres is_def def_styles d m
              (build_all_styles style_data) m m')
    as [Hok Hmono]; [done|done|by apply filled_ok_init|done|].
  assert ((style_id s, s) ∈ build_all_styles style_data) as Hin.
  { rewrite EA. apply elem_of_app. right. left. }
  assert (dict_mem m' (style_id s) = true) as Hmem.
  { rewrite (fill_run_mem _ _ _ _ _ _ _ _ Hrun).
    apply orb_true_iff. right. apply bool_decide_eq_true.
    by apply (list_elem_of_fmap_2 fst) in Hin. }
  split_and!; [done|by apply dict_mem_get|]. intros Hms.
  assert (s ∈ dict_values (build_all_styles style_data)) as Hs.
  { apply dict_values_elem. eauto. }
  specialize (Hok s Hs Hms Hmem). cbv beta in Hok.
  destruct (find _ (bases_of bases s)) as [a|] eqn:Ea; [done|].
  destruct is_def eqn:Edef; [by apply Hok|].
  pose proof (fill_at_turn style_data bases false def_styles d m m' pre post s
                EA Hrun Hms Ea) as Hturn.
  revert Hturn. clear Ea.
  destruct (find _ (bases_of bases s)); [by intros [? ?]|done].
Qed.

(** ** Completion of a version *)

Lemma dict_set_Forall {V} (P : string * V → Prop) (d : dict V) k v :
  (∀ k', P (k', v)) → Forall P d → Forall P (dict_set d k v).
Proof.
  intros Hv. induction 1 as [|[k0 v0] d H0 Hd IH]; simpl.
  - constructor; [apply Hv|constructor].
  - destruct (str_eqb k0 k); constructor; auto.
Qed.

Lemma dict_Forall_get {V} (P : string * V → Prop) (d : dict V) k v :
  Forall P d → dict_get d k = Some v → P (k, v).
Proof.
  intros Hd Hg%dict_get_elem. rewrite Forall_forall in Hd. by apply Hd.
Qed.

Lemma filter_ext_Forall {A} (P Q : A → Prop)
    `{!∀ x, Decision (P x), !∀ x, Decision (Q x)} (l : list A) :
  Forall (λ x, P x ↔ Q x) l → filter P l = filter Q l.
Proof.
  induction 1 as [|x l Hx _ IH]; [done|].
  rewrite !filter_cons, IH. destruct (decide (P x)), (decide (Q x)); naive_solver.
Qed.

Section FillShape.
Variables (bases : dict (list Style)) (is_def : bool)
  (def_styles : dict Slot) (d : DefStyle).
Let step := fill_style bases is_def def_styles d.

Lemma fill_style_keys st k s st' :
  step st (k, s) = Ok st' →
  dict_keys st' = dict_keys st ++ (if dict_mem st k then [] else [k]).
Proof.
  intros [[-> ->]|(Hm & v & -> & _)]%fill_style_cases.
  - by rewrite app_nil_r.
  - by rewrite dict_set_keys, Hm.
Qed.

Lemma fill_run_keys l st st' :
  NoDup (l.*1) → for_each step st l = Ok st' →
  dict_keys st' = dict_keys st ++ filter (λ k, dict_mem st k = false) (l.*1).
Proof.
  revert st. induction l as [|[k s] l IH]; intros st Hnd Hrun.
  - injection Hrun as <-. by rewrite app_nil_r.
  - cbn [for_each] in Hrun.
    destruct (step st (k, s)) as [st1|] eqn:E; [|done]. cbn in Hrun.
    rewrite fmap_cons in Hnd. apply NoDup_cons in Hnd as [Hk Hnd].
    rewrite (IH _ Hnd Hrun), (fill_style_keys _ _ _ _ E), fmap_cons.
    cbn [fst]. rewrite filter_cons.
    assert (filter (λ k0, dict_mem st1 k0 = false) l.*1
            = filter (λ k0, dict_mem st k0 = false) l.*1) as ->.
    { apply filter_ext_Forall. apply Forall_forall. intros k' Hk'.
      rewrite (fill_style_mem _ _ _ _ _ _ _ _ k' E).
      assert (str_eqb k k' = false) as ->; [|by rewrite orb_false_r].
      apply str_eqb_neq. intros ->. done. }
    destruct (dict_mem st k) eqn:Em.
    + rewrite app_nil_r. by rewrite decide_False by congruence.
    + rewrite decide_True by done. by rewrite <- app_assoc.
Qed.

Lemma fill_style_resolvable m st e st' :
  Forall (λ kx, resolvable m kx.2) st →
  (is_def = false → Forall (λ kx, is_variant kx.2 = true) def_styles) →
  step st e = Ok st' →
  Forall (λ kx, resolvable m kx.2) st'.
Proof.
  destruct e as [k s].
  intros Hst Hdef [[_ ->]|(Hm & v & -> & Hv)]%fill_style_cases; [done|].
  apply dict_set_Forall; [|done]. intros k'. cbn [snd].
  destruct (find _ _) as [b|].
  - by apply (dict_Forall_get _ _ _ _ Hst) in Hv.
  - destruct is_def.
    + destruct d as [|k0|]; try done. simpl in Hv. unfold dict_item in Hv.
      destruct (dict_get st k0) as [w|] eqn:Ew; [|done]. injection Hv as ->.
      by apply (dict_Forall_get _ _ _ _ Hst) in Ew.
    + apply (dict_Forall_get _ _ _ _ (Hdef eq_refl)) in Hv. simpl in Hv.
      by destruct v.
Qed.

Lemma fill_run_resolvable m l st st' :
  Forall (λ kx, resolvable m kx.2) st →
  (is_def = false → Forall (λ kx, is_variant kx.2 = true) def_styles) →
  for_each step st l = Ok st' →
  Forall (λ kx, resolvable m kx.2) st'.
Proof.
  intros Hst Hdef. apply for_each_invariant; [|done].
  intros a x a' _ Ha Hs. by eapply fill_style_resolvable.
Qed.
End FillShape.

Section Eval.
Variables (item ver : string).
Let step := eval_slot item ver.

Lemma eval_slot_spec st k st' :
  step st k = Ok st' →
  match dict_get (ev_styles st) k with
  | Some (SBlock p) =>
      match p_name p with
      | None => ev_styles st' = ev_styles st ∧
                ev_lookups st' = dict_set (ev_lookups st) k (p_value p)
      | Some _ => ∃ v, ev_styles st' = dict_set (ev_styles st) k (SVariant v) ∧
                       ev_lookups st' = ev_lookups st
      end
  | _ => st' = st
  end.
Proof.
  unfold step, eval_slot.
  destruct (dict_get (ev_styles st) k) as [[iv|str|p]|]; try (by intros [= <-]).
  destruct (p_name p) as [n|]; [|by intros [= <-]].
  destruct (default _ _) as [[|c base]|[|]]; try done.
  destruct (dict_get (ev_styles st) _) as [[iv|str|q]|]; try done.
  destruct (modify _ _ _ _) as [[v h]|]; [|done].
  intros [= <-]. simpl. eauto.
Qed.

Lemma eval_slot_get st k st' k0 x :
  step st k = Ok st' → dict_get (ev_styles st) k0 = Some x →
  ∃ y, dict_get (ev_styles st') k0 = Some y ∧
       (k0 ≠ k → y = x) ∧ (k0 = k → evaluated x y).
Proof.
  intros Hs%eval_slot_spec Hx. unfold evaluated.
  destruct (decide (k0 = k)) as [->|Hne].
  - rewrite Hx in Hs.
    destruct x as [iv|str|p]; [subst st'; eexists; split_and!; by eauto..|].
    simpl. destruct (p_name p) as [n|].
    + destruct Hs as (v & -> & _). rewrite dict_get_set, str_eqb_refl.
      eexists; split_and!; by eauto.
    + destruct Hs as [-> _]. eexists; split_and!; by eauto.
  - assert (dict_get (ev_styles st') k0 = Some x) as ->;
      [|eexists; split_and!; by eauto].
    destruct (dict_get (ev_styles st) k) as [[iv|str|p]|]; [by subst..| |by subst].
    destruct (p_name p) as [n|].
    + destruct Hs as (v & -> & _). rewrite dict_get_set.
      assert (str_eqb k k0 = false) as -> by (apply str_eqb_neq; congruence). done.
    + by destruct Hs as [-> _].
Qed.

Lemma eval_slot_keys st k st' :
  step st k = Ok st' → dict_keys (ev_styles st') = dict_keys (ev_styles st).
Proof.
  intros Hs%eval_slot_spec.
  destruct (dict_get (ev_styles st) k) as [[iv|str|p]|] eqn:E; [by subst..| |by subst].
  destruct (p_name p) as [n|].
  - destruct Hs as (v & -> & _). apply dict_set_keys_in, dict_mem_get. eauto.
  - by destruct Hs as [-> _].
Qed.

Lemma eval_slot_lookups st k st' k0 :
  step st k = Ok st' →
  dict_get (ev_lookups st') k0 =
    match dict_get (ev_styles st) k with
    | Some (SBlock p) =>
        match p_name p with
        | None => if str_eqb k k0 then Some (p_value p)
                  else dict_get (ev_lookups st) k0
        | Some _ => dict_get (ev_lookups st) k0
        end
    | _ => dict_get (ev_lookups st) k0
    end.
Proof.
  intros Hs%eval_slot_spec.
  destruct (dict_get (ev_styles st) k) as [[iv|str|p]|] eqn:E; [by subst..| |by subst].
  destruct (p_name p) as [n|].
  - by destruct Hs as (v & _ & ->).
  - destruct Hs as [_ ->]. apply dict_get_set.
Qed.

Lemma eval_slot_lookups_elem st k st' k0 pv :
  step st k = Ok st' → (k0, pv) ∈ ev_lookups st' →
  (k0, pv) ∈ ev_lookups st ∨
  (k0 = k ∧ ∃ p, dict_get (ev_styles st) k = Some (SBlock p) ∧
                 p_name p = None ∧ pv = p_value p).
Proof.
  intros Hs%eval_slot_spec.
  destruct (dict_get (ev_styles st) k) as [[iv|str|p]|] eqn:E;
    [subst; by left..| |subst; by left].
  destruct (p_name p) as [n|] eqn:En.
  - destruct Hs as (v & _ & ->). by left.
  - destruct Hs as [_ ->]. intros [[-> ->]|H]%dict_set_elem; [|by left].
    right. eauto.
Qed.

(** The loop over the keys of the style map. *)
Lemma eval_run ks st st' :
  NoDup ks → for_each step st ks = Ok st' →
  dict_keys (ev_styles st') = dict_keys (ev_styles st) ∧
  (∀ k x, dict_get (ev_styles st) k = Some x →
     ∃ y, dict_get (ev_styles st') k = Some y ∧
          (k ∉ ks → y = x) ∧ (k ∈ ks → evaluated x y)) ∧
  (∀ k pv, (k, pv) ∈ ev_lookups st' →
     (k, pv) ∈ ev_lookups st ∨
     ∃ p, k ∈ ks ∧ dict_get (ev_styles st) k = Some (SBlock p) ∧
          p_name p = None ∧ pv = p_value p) ∧
  (∀ k p, (k ∈ ks ∧ dict_get (ev_styles st) k = Some (SBlock p) ∧
           p_name p = None) ∨ is_Some (dict_get (ev_lookups st) k) →
          is_Some (dict_get (ev_lookups st') k)).
Proof.
  revert st. induction ks as [|k ks IH]; intros st Hnd Hrun.
  - injection Hrun as <-. split_and!; [done| | |].
    + intros k x Hx. exists x. split_and!; [done|done|].
      intros H. by apply elem_of_nil in H.
    + intros k pv H. by left.
    + intros k p [(H & _)|H]; [by apply elem_of_nil in H|done].
  - cbn [for_each] in Hrun. destruct (step st k) as [st1|] eqn:E; [|done].
    cbn in Hrun. apply NoDup_cons in Hnd as [Hk Hnd].
    destruct (IH _ Hnd Hrun) as (IHk & IHs & IHl & IHc). split_and!.
    + rewrite IHk. by eapply eval_slot_keys.
    + intros k0 x Hx.
      destruct (eval_slot_get _ _ _ _ _ E Hx) as (y1 & Hy1 & Hne & Heq).
      destruct (IHs _ _ Hy1) as (y & Hy & Hnin & Hin). exists y.
      split_and!; [done| |].
      * intros [Hk0 Hks]%not_elem_of_cons. rewrite Hnin by done. by apply Hne.
      * intros [->|Hks]%elem_of_cons.
        -- rewrite Hnin by done. by apply Heq.
        -- assert (k0 ≠ k) as Hk0 by (by intros ->).
           rewrite <- (Hne Hk0). by apply Hin.
    + intros k0 pv Hpv. setoid_rewrite elem_of_cons.
      destruct (IHl _ _ Hpv) as [H1|(p & Hin & Hp & Hn & ->)].
      * destruct (eval_slot_lookups_elem _ _ _ _ _ E H1)
          as [?|(-> & p & Hp & Hn & ->)]; [by left|].
        right. exists p. split_and!; [by left|done..].
      * right. exists p. split_and!; [by right| |done|done].
        assert (k0 ≠ k) as Hk0 by (by intros ->).
        destruct (dict_get (ev_styles st) k0) as [x|] eqn:Ex.
        -- destruct (eval_slot_get _ _ _ _ _ E Ex) as (y1 & Hy1 & Hne & _).
           rewrite (Hne Hk0) in Hy1. congruence.
        -- assert (k0 ∉ dict_keys (ev_styles st)) as Hnk by (by apply dict_get_None).
           rewrite <- (eval_slot_keys _ _ _ E) in Hnk.
           apply dict_get_None in Hnk. congruence.
    + intros k0 p H. apply (IHc k0 p).
      pose proof (eval_slot_lookups _ _ _ k0 E) as El.
      destruct H as [([->|Hin]%elem_of_cons & Hp & Hn)|H].
      * right. rewrite El, Hp, Hn, str_eqb_refl. eauto.
      * left. split_and!; [done| |done].
        assert (k0 ≠ k) as Hk0 by (by intros ->).
        destruct (eval_slot_get _ _ _ _ _ E Hp) as (y1 & Hy1 & Hne & _).
        by rewrite (Hne Hk0) in Hy1.
      * right. rewrite El.
        destruct (dict_get (ev_styles st) k) as [[iv|str|q]|]; eauto.
        destruct (p_name q); eauto. destruct (str_eqb k k0); eauto.
Qed.
End Eval.

Lemma lookup_run item ls st st' :
  (∀ to from, (to, from) ∈ ls →
     to ∈ dict_keys st ∧
     ∃ t iv, from = VStr t ∧ dict_get st t = Some (SVariant iv)) →
  (∀ k y, dict_get st k = Some y → is_variant y = true ∨ k ∈ ls.*1) →
  for_each (apply_lookup item) st ls = Ok st' →
  dict_keys st' = dict_keys st ∧
  ∀ k y, dict_get st' k = Some y → is_variant y = true.
Proof.
  revert st. induction ls as [|[to from] ls IH]; intros st H1 H2 Hrun.
  - injection Hrun as <-. split; [done|]. intros k y Hy.
    destruct (H2 _ _ Hy) as [?|H]; [done|by apply elem_of_nil in H].
  - cbn [for_each] in Hrun.
    destruct (H1 to from) as (Hto & t & iv & -> & Ht); [left|].
    cbn [apply_lookup] in Hrun. rewrite Ht in Hrun. cbn in Hrun.
    apply IH in Hrun as [Hk Hv].
    + split; [|done]. rewrite Hk. by apply dict_set_keys_in, dict_mem_true.
    + intros to' from' Hin.
      destruct (H1 to' from') as (Hto' & t' & iv' & -> & Ht'); [by right|].
      split; [by rewrite dict_set_keys_in by (by apply dict_mem_true)|].
      exists t'. rewrite dict_get_set. destruct (str_eqb to t'); eauto.
    + intros k y. rewrite dict_get_set. destruct (str_eqb to k) eqn:E.
      * intros [= <-]. by left.
      * intros Hy. destruct (H2 _ _ Hy) as [?|[->|?]%elem_of_cons]; auto.
        by rewrite str_eqb_refl in E.
Qed.

Lemma fill_keys_NoDup (m : dict Slot) (ks : list string) :
  NoDup (dict_keys m) → NoDup ks →
  NoDup (dict_keys m ++ filter (λ k, dict_mem m k = false) ks).
Proof.
  intros Hm Hks. apply NoDup_app. split_and!; [done| |by apply NoDup_filter].
  intros k Hk [Hf _]%list_elem_of_filter. apply dict_mem_true in Hk. congruence.
Qed.

Lemma complete_version_ok (A : dict Style) bases item is_def def_styles h v v' h' :
  NoDup (dict_keys A) →
  well_declared (styles v) →
  (is_def = false → Forall (λ kx, is_variant kx.2 = true) def_styles) →
  complete_version A bases item is_def def_styles h v = Ok (v', h') →
  completed_from A v v' ∧ ver_id v' = ver_id v.
Proof.
  intros HA [Hnd Hres] Hdef. unfold complete_version, fill_pass.
  set (m := styles v) in *.
  destruct (for_each (fill_style _ _ _ _) m A) as [filled|] eqn:E1; [|done].
  cbn [mbind result_bind].
  destruct (for_each (eval_slot _ _) _ _) as [ev|] eqn:E2; [|done].
  cbn [mbind result_bind].
  destruct (for_each (apply_lookup _) _ _) as [resolved|] eqn:E3; [|done].
  cbn [mbind result_bind].
  destruct (def_style_slot resolved _) as [dslot|] eqn:E4; [|done].
  cbn [mbind result_bind]. intros [= <- <-].
  pose proof (fill_run_keys _ _ _ _ _ _ _ HA E1) as F1. fold (dict_keys A) in F1.
  pose proof (fill_run_resolvable _ _ _ _ m _ _ _ Hres Hdef E1) as F2.
  assert (∀ k x, dict_get m k = Some x → dict_get filled k = Some x) as F3.
  { intros k x. by eapply fill_run_mono. }
  assert (NoDup (dict_keys filled)) as F4.
  { rewrite F1. by apply fill_keys_NoDup. }
  destruct (eval_run _ _ _ _ _ F4 E2) as (G1 & G2 & G3 & G4).
  cbn [ev_styles ev_lookups] in G1, G2, G3, G4.
  assert (∀ k x, dict_get filled k = Some x →
            ∃ y, dict_get (ev_styles ev) k = Some y ∧ evaluated x y) as G2'.
  { intros k x Hx. destruct (G2 _ _ Hx) as (y & Hy & _ & Hin). exists y.
    split; [done|]. apply Hin. apply dict_get_is_Some. eauto. }
  assert (∀ to from, (to, from) ∈ ev_lookups ev →
            to ∈ dict_keys (ev_styles ev) ∧
            ∃ t iv, from = VStr t ∧
                    dict_get (ev_styles ev) t = Some (SVariant iv)) as H1;
    [intros to from Hin|].
  2: assert (∀ k y, dict_get (ev_styles ev) k = Some y →
               is_variant y = true ∨ k ∈ (ev_lookups ev).*1) as H2;
    [intros k y Hy|destruct (lookup_run _ _ _ _ H1 H2 E3) as [L1 L2]].
  - destruct (G3 _ _ Hin) as [H0|(p & Hk & Hp & Hn & ->)];
      [by apply elem_of_nil in H0|].
    split; [rewrite G1; apply dict_get_is_Some; eauto|].
    pose proof (dict_Forall_get _ _ _ _ F2 Hp) as Hr. cbn in Hr.
    destruct (Hr Hn) as (t & y0 & Ht & Hy0 & Hkind). exists t.
    destruct (G2' _ _ (F3 _ _ Hy0)) as (y & Hy & Hev). unfold evaluated in Hev.
    destruct y0 as [iv| |q]; simpl in *.
    + subst y. eauto.
    + by destruct Hkind.
    + destruct (p_name q); [|by destruct Hkind].
      destruct y; try done. eauto.
  - assert (k ∈ dict_keys filled) as Hk.
    { rewrite <- G1. apply dict_get_is_Some. eauto. }
    apply dict_get_is_Some in Hk as [x Hx].
    destruct (G2' _ _ Hx) as (y' & Hy' & Hev). rewrite Hy in Hy'.
    injection Hy' as <-. unfold evaluated in Hev.
    pose proof (dict_Forall_get _ _ _ _ F2 Hx) as Hr. cbn in Hr.
    destruct x as [iv| |p]; simpl in *; [subst; by left|done|].
    destruct (p_name p) eqn:En; [by left|]. right.
    apply dict_get_is_Some. apply (G4 k p). left. split_and!; [|done..].
    apply dict_get_is_Some. eauto.
  - split; [|done]. unfold completed_from. cbn [styles def_style].
    assert (dict_keys resolved = dict_keys filled) as Hkeys by congruence.
    split_and!.
    + by rewrite Hkeys.
    + intros k Hk. assert (k ∈ dict_keys resolved) as Hkr.
      { rewrite Hkeys, F1. apply elem_of_app.
        destruct (dict_mem m k) eqn:Em; [left; by apply dict_mem_true|].
        right. by apply list_elem_of_filter. }
      apply dict_get_is_Some in Hkr as [y Hy]. pose proof (L2 _ _ Hy).
      destruct y; try done. eauto.
    + apply Forall_forall. intros [k y] Hin. cbn. apply (L2 k).
      apply dict_elem_get; [|done]. by rewrite Hkeys.
    + destruct (def_style v) as [|k0|]; try done. cbn in E4.
      unfold dict_item in E4. destruct (dict_get resolved k0) as [y|] eqn:Ey; [|done].
      injection E4 as <-. pose proof (L2 _ _ Ey). destruct y; try done. eauto.
Qed.

(** ** Completion of an item *)

Lemma fill_keys_length (ks1 ks2 : list string) :
  NoDup ks1 → NoDup ks2 → (∀ k, k ∈ ks1 → k ∈ ks2) →
  length (ks1 ++ filter (λ k, bool_decide (k ∈ ks1) = false) ks2) = length ks2.
Proof.
  intros H1 H2 Hsub. apply Permutation_length, NoDup_Permutation; [|done|].
  - apply NoDup_app. split_and!; [done| |by apply NoDup_filter].
    intros k Hk [Hf _]%list_elem_of_filter.
    by apply bool_decide_eq_false in Hf.
  - intros k. rewrite elem_of_app, list_elem_of_filter, bool_decide_eq_false.
    destruct (decide (k ∈ ks1)); naive_solver.
Qed.

Lemma completed_length A v v' :
  NoDup (dict_keys A) → NoDup (dict_keys (styles v)) →
  (∀ k, k ∈ dict_keys (styles v) → k ∈ dict_keys A) →
  completed_from A v v' → length (styles v') = length A.
Proof.
  intros HA Hv Hsub (Hk & _).
  replace (length (styles v')) with (length (dict_keys (styles v')))
    by (unfold dict_keys; apply length_map).
  replace (length A) with (length (dict_keys A))
    by (unfold dict_keys; apply length_map).
  rewrite Hk, <- (fill_keys_length (dict_keys (styles v)) (dict_keys A)) by done.
  rewrite !length_app. f_equal. f_equal.
  apply filter_ext_Forall, Forall_forall. intros k _.
  rewrite bool_decide_eq_false, <- dict_mem_false. done.
Qed.

Section CompleteItem.
Variables (A : dict Style) (bases : dict (list Style)) (item : Item).
Hypothesis A_keys : NoDup (dict_keys A).
Hypothesis versions_keys : NoDup (dict_keys (versions item)).
Hypothesis declared :
  ∀ k v, (k, v) ∈ versions item → well_declared (styles v).

Let V0 := versions item.

(** The versions that are done are completed, those still to do are as
    declared. *)
Let progress (todo : list (string * Version)) (vs : dict Version) : Prop :=
  dict_keys vs = dict_keys V0 ∧
  ∀ k, (k ∈ todo.*1 → dict_get vs k = dict_get V0 k) ∧
       (k ∉ todo.*1 → ∀ v', dict_get vs k = Some v' →
          ∃ v, dict_get V0 k = Some v ∧ completed_from A v v').

Lemma complete_others def_styles todo vs h vs' h' (sel : Version → bool) :
  Forall (λ kx, is_variant kx.2 = true) def_styles →
  NoDup (todo.*1) → (∀ e, e ∈ todo → e ∈ V0) →
  progress todo vs →
  for_each
    (λ '(vs, h) '(k, v),
       '(v', h') ← complete_version A bases (item_id item) (sel v)
                     def_styles h v;
       Ok (dict_set vs k v', h'))
    (vs, h) todo = Ok (vs', h') →
  progress [] vs'.
Proof.
  intros Hdef. revert vs h.
  induction todo as [|[k v] todo IH]; intros vs h Hnd Hin Hp Hrun.
  - by injection Hrun as <- <-.
  - cbn [for_each] in Hrun.
    destruct (complete_version A bases (item_id item) (sel v) def_styles h v)
      as [[v1 h1]|] eqn:E; [|done]. cbn in Hrun.
    rewrite fmap_cons in Hnd. apply NoDup_cons in Hnd as [Hk Hnd].
    assert ((k, v) ∈ V0) as HkV by (apply Hin; left).
    apply complete_version_ok in E as [Hc _]; [|done|by eapply declared|done].
    revert Hrun. apply IH; [done|intros e He; apply Hin; by right|].
    destruct Hp as [Hkeys Hp]. split.
    + rewrite dict_set_keys_in; [done|]. apply dict_mem_true. rewrite Hkeys.
      by apply (list_elem_of_fmap_2 fst) in HkV.
    + intros k'. rewrite dict_get_set. destruct (str_eqb k k') eqn:Ek.
      * apply str_eqb_eq in Ek as <-. split; [done|].
        intros _ v' [= <-]. exists v. split; [|done]. by apply dict_elem_get.
      * apply str_eqb_neq in Ek. destruct (Hp k') as [Hp1 Hp2]. split.
        -- intros Hk'. apply Hp1. rewrite fmap_cons. by right.
        -- intros Hk'. apply Hp2. rewrite fmap_cons.
           apply not_elem_of_cons. split; [simpl; congruence|done].
Qed.

Lemma complete_item_ok h item' h' :
  complete_item A bases h item = Ok (item', h') →
  dict_keys (versions item') = dict_keys V0 ∧
  ∀ k v', dict_get (versions item') k = Some v' →
    ∃ v, dict_get V0 k = Some v ∧ completed_from A v v'.
Proof.
  unfold complete_item. fold V0.
  destruct (dict_get V0 (def_ver item)) as [dv|] eqn:Ed; [|done].
  destruct (complete_version A bases (item_id item) true (styles dv) h dv)
    as [[dv' h1]|] eqn:E; [|done]. cbn [mbind result_bind].
  destruct (for_each _ _ _) as [[vs h2]|] eqn:Erun; [|done].
  cbn [mbind result_bind]. intros [= <- <-]. cbn [versions].
  assert ((def_ver item, dv) ∈ V0) as Hdv by (by apply dict_get_elem).
  apply complete_version_ok in E as [Hc _]; [|done|by eapply declared|done].
  assert (progress [] vs) as [Hk Hp].
  { eapply (complete_others (styles dv') (other_versions item)
              _ _ _ _ (λ v, bool_decide (ver_id v = ver_id dv'))).
    - by destruct Hc as (_ & _ & ? & _).
    - unfold other_versions. eapply sublist_NoDup; [exact versions_keys|].
      apply fmap_sublist, sublist_filter.
    - intros e [_ He]%list_elem_of_filter. done.
    - split.
      + apply dict_set_keys_in, dict_mem_get. eauto.
      + intros k. rewrite dict_get_set.
        destruct (str_eqb (def_ver item) k) eqn:Ek.
        * apply str_eqb_eq in Ek as <-. split.
          -- intros [[k' v'] [Heq [Hne _]%list_elem_of_filter]]%list_elem_of_fmap.
             simpl in *. congruence.
          -- intros _ v' [= <-]. eauto.
        * apply str_eqb_neq in Ek. split; [done|].
          intros Hnin v' Hv'. exfalso. apply Hnin.
          apply dict_get_elem in Hv'.
          apply (list_elem_of_fmap_2 fst _ (k, v')), list_elem_of_filter.
          split; [simpl; congruence|done].
    - exact Erun. }
  split; [done|]. intros k v' Hv'. apply (Hp k); [|done]. apply not_elem_of_nil.
Qed.
End CompleteItem.

Lemma sum_list_const {A} (f : A → nat) (n : nat) (l : list A) :
  Forall (λ x, f x = n) l → sum_list (map f l) = n * length l.
Proof.
  induction 1 as [|x l Hx _ IH]; simpl; [lia|]. rewrite Hx, IH. lia.
Qed.

(** X30: when completion of an item succeeds, and every version
    declares no string slot and only lookups of slots that the same
    version declares as a variant or a modification, then the item keeps
    its versions, every version has a slot for every known style, holds
    a variant in every slot, and keeps its declared slots followed by
    one slot per remaining style.  When the versions declare known
    styles only, the M versions hold N·M slots in total. *)
Theorem completion_fills_every_slot (style_data : list Style)
    (bases : dict (list Style)) (h h' : heap) (item item' : Item) :
  let A := build_all_styles style_data in
  NoDup (dict_keys (versions item)) →
  (∀ k v, (k, v) ∈ versions item → well_declared (styles v)) →
  complete_item A bases h item = Ok (item', h') →
  dict_keys (versions item') = dict_keys (versions item) ∧
  (∀ k v', dict_get (versions item') k = Some v' →
     ∃ v, dict_get (versions item) k = Some v ∧ completed_from A v v') ∧
  ((∀ k v, (k, v) ∈ versions item →
      ∀ s, s ∈ dict_keys (styles v) → s ∈ dict_keys A) →
   sum_list (map (λ kv, length (styles kv.2)) (versions item'))
     = length A * length (versions item)).
Proof.
  intros A Hnd Hdecl Hrun.
  assert (NoDup (dict_keys A)) as HA by apply build_all_styles_wf.
  destruct (complete_item_ok A bases item HA Hnd Hdecl h item' h' Hrun)
    as [Hk Hv].
  split_and!; [done|done|]. intros Hknown.
  replace (length (versions item)) with (length (versions item')).
  2:{ rewrite <- (length_map fst (versions item')).
      rewrite <- (length_map fst (versions item)). by f_equal. }
  apply sum_list_const, Forall_forall. intros [k v'] Hin. cbn [snd].
  assert (dict_get (versions item') k = Some v') as Hg.
  { apply dict_elem_get; [|done]. by rewrite Hk. }
  destruct (Hv _ _ Hg) as (v & Hv0 & Hc). apply dict_get_elem in Hv0.
  eapply completed_length; eauto.
  by destruct (Hdecl _ _ Hv0).
Qed.

Ltac nodup_keys :=
  cbn; eapply bool_decide_unpack; vm_compute; exact I.

Lemma ex_item_declared k v :
  (k, v) ∈ versions ex_item → well_declared (styles v).
Proof.
  intros Hin. cbn in Hin.
  apply elem_of_cons in Hin as [[= -> ->]|Hin];
    [|apply list_elem_of_singleton in Hin as [= -> ->]].
  - split; [nodup_keys|].
    repeat constructor; cbn; try done.
    intros _. exists "Mid", ex_delta. split_and!; [done|done|by right].
  - split; [nodup_keys|]. by repeat constructor.
Defined.

Lemma completion_fills_every_slot_witness :
  ∃ item' h',
    complete_item (build_all_styles ex_chain_styles) ex_chain_bases ex_heap
      ex_item = Ok (item', h') ∧
    dict_keys (versions item') = dict_keys (versions ex_item) ∧
    (∀ k v', dict_get (versions item') k = Some v' →
       ∃ v, dict_get (versions ex_item) k = Some v ∧
            completed_from (build_all_styles ex_chain_styles) v v') ∧
    ((∀ k v, (k, v) ∈ versions ex_item →
        ∀ s, s ∈ dict_keys (styles v) →
             s ∈ dict_keys (build_all_styles ex_chain_styles)) →
     sum_list (map (λ kv, length (styles kv.2)) (versions item'))
       = length (build_all_styles ex_chain_styles)
         * length (versions ex_item)).
Proof.
  eexists _, _. split; [vm_compute; reflexivity|].
  eapply (completion_fills_every_slot ex_chain_styles ex_chain_bases ex_heap).
  - nodup_keys.
  - exact ex_item_declared.
  - vm_compute. reflexivity.
Defined.

(** ** Packages *)

(** C10: the clean style package is enabled whatever the configuration
    holds, and setting its flag raises [ValueError] and leaves the
    configuration as it was; for any other package the getter returns the
    persisted [Enabled] value, and [True] when there is none. *)
Theorem clean_package_always_enabled
    (cfg : gmap string (gmap string string)) (self : Package) :
  (pak_id self = CLEAN_PACKAGE →
     enabled cfg self = true ∧
     ∀ value, ∃ msg, set_enabled cfg self value = (cfg, Raise (ValueError msg))) ∧
  (pak_id self ≠ CLEAN_PACKAGE →
     enabled cfg self = get_bool cfg (pak_id self) "Enabled" true ∧
     (∀ sec v b, cfg !! pak_id self = Some sec → sec !! "Enabled" = Some v →
                 conv_flag v = Some b → enabled cfg self = b) ∧
     ((∀ sec, cfg !! pak_id self = Some sec → sec !! "Enabled" = None) →
      enabled cfg self = true)).
Proof.
  unfold enabled, set_enabled. split.
  - intros ->. rewrite str_eqb_refl. eauto.
  - intros Hne. apply str_eqb_neq in Hne. rewrite Hne. split_and!; [done| |].
    + intros sec v b Hsec Hv Hb. unfold get_bool. by rewrite Hsec, Hv, Hb.
    + intros Habs. unfold get_bool.
      destruct (cfg !! pak_id self) as [sec|] eqn:E; [|done].
      by rewrite (Habs sec).
Qed.

Lemma clean_package_always_enabled_witness :
  enabled {[CLEAN_PACKAGE := {["Enabled" := "0"]}]} ex_clean_package = true ∧
  ∀ value, ∃ msg,
    set_enabled {[CLEAN_PACKAGE := {["Enabled" := "0"]}]} ex_clean_package value
      = ({[CLEAN_PACKAGE := {["Enabled" := "0"]}]}, Raise (ValueError msg)).
Proof.
  exact (proj1 (clean_package_always_enabled
                  {[CLEAN_PACKAGE := {["Enabled" := "0"]}]} ex_clean_package)
           eq_refl).
Defined.

(** ** Duplicate declarations *)




(** ** Loops over the nodes of a property tree *)

Section VisitFacts.
Context {S : Type}.
Variables (k : string) (deeper : S → Property → result (S * Property)).

Lemma visit_children_skip (st : S) l :
  no_child k l → visit_children k deeper st l = Ok (st, l).
Proof.
  induction 1 as [|c l Hc _ IH]; [done|].
  cbn [visit_children]. rewrite Hc. cbn. by rewrite IH.
Qed.

Lemma visit_children_hit (st : S) x b :
  no_child k b → name_is k x = true →
  visit_children k deeper st (x :: b) =
    '(st1, x') ← deeper st x; Ok (st1, x' :: b).
Proof.
  intros Hb Hx. cbn [visit_children]. rewrite Hx.
  destruct (deeper st x) as [[st1 x']|]; [|done]. cbn.
  by rewrite visit_children_skip.
Qed.

Lemma visit_children_app (st : S) l1 l2 :
  visit_children k deeper st (l1 ++ l2) =
    '(st1, l1') ← visit_children k deeper st l1;
    '(st2, l2') ← visit_children k deeper st1 l2;
    Ok (st2, l1' ++ l2').
Proof.
  revert st. induction l1 as [|c l1 IH]; intros st.
  - cbn. by destruct (visit_children k deeper st l2) as [[? ?]|].
  - cbn [app visit_children].
    destruct (if name_is k c then deeper st c else Ok (st, c)) as [[st1 c']|];
      [|done].
    cbn. rewrite IH.
    destruct (visit_children k deeper st1 l1) as [[st2 l1']|]; [|done]. cbn.
    by destruct (visit_children k deeper st2 l2) as [[st3 l2']|].
Qed.

Lemma visit_children_one (st : S) a x b :
  no_child k a → no_child k b → name_is k x = true →
  visit_children k deeper st (a ++ x :: b) =
    '(st1, x') ← deeper st x; Ok (st1, a ++ x' :: b).
Proof.
  intros Ha Hb Hx.
  rewrite visit_children_app, (visit_children_skip _ _ Ha). cbn [mbind result_bind].
  rewrite (visit_children_hit _ _ _ Hb Hx).
  by destruct (deeper st x) as [[st1 x']|].
Qed.

Lemma visit_children_two (st : S) a x b y c :
  no_child k a → no_child k b → no_child k c →
  name_is k x = true → name_is k y = true →
  visit_children k deeper st (a ++ x :: b ++ y :: c) =
    '(st1, x') ← deeper st x;
    '(st2, y') ← deeper st1 y;
    Ok (st2, a ++ x' :: b ++ y' :: c).
Proof.
  intros Ha Hb Hc Hx Hy.
  rewrite visit_children_app, (visit_children_skip _ _ Ha). cbn [mbind result_bind].
  cbn [visit_children]. rewrite Hx.
  destruct (deeper st x) as [[st1 x']|]; [|done]. cbn [mbind result_bind].
  rewrite (visit_children_one _ _ _ _ Hb Hc Hy).
  by destruct (deeper st1 y) as [[st2 y']|].
Qed.
End VisitFacts.

(** ** Reading back what was set *)

Lemma find_app_Some {A} (f : A → bool) l1 l2 x :
  find f l1 = Some x → find f (l1 ++ l2) = Some x.
Proof.
  induction l1 as [|a l1 IH]; simpl; [done|]. destruct (f a); auto.
Qed.

Lemma find_app_None {A} (f : A → bool) l1 l2 :
  find f l1 = None → find f (l1 ++ l2) = find f l2.
Proof.
  induction l1 as [|a l1 IH]; simpl; [done|]. destruct (f a); [done|auto].
Qed.

Lemma last_index_find {A} (f : A → bool) l :
  match last_index f l with
  | Some i => ∃ x, l !! i = Some x ∧ f x = true ∧ find f (rev l) = Some x
  | None => find f (rev l) = None
  end.
Proof.
  induction l as [|a l IH]; [done|]. cbn [last_index rev].
  destruct (last_index f l) as [i|].
  - destruct IH as (x & Hx & Hf & Hfind). exists x.
    split_and!; [done|done|by apply find_app_Some].
  - rewrite (find_app_None _ _ _ IH). simpl. destruct (f a) eqn:E; [|done].
    exists a. by rewrite E.
Qed.

Lemma last_index_alter {A} (f : A → bool) (g : A → A) i l :
  (∀ x, f (g x) = f x) → last_index f (alter g i l) = last_index f l.
Proof.
  intros Hg. revert i. induction l as [|a l IH]; intros i; [done|].
  destruct i as [|i]; cbn [alter list_alter last_index].
  - by rewrite Hg.
  - change (list_alter g i l) with (alter g i l). by rewrite IH.
Qed.

Lemma name_is_mk_prop key n v c :
  p_real_name c = n → name_is key (mk_prop n v) = name_is key c.
Proof. intros <-. unfold name_is, p_name. by destruct v, c. Qed.

Lemma name_is_self key v : name_is key (mk_prop (Some key) v) = true.
Proof. unfold name_is, p_name. destruct v; simpl; apply str_eqb_refl. Qed.

Lemma p_value_mk_prop n v : p_value (mk_prop n v) = v.
Proof. by destruct v. Qed.

Lemma get_value_set_item p key v p' d :
  set_item p key v = Ok p' → get_value p' key d = Some v.
Proof.
  destruct p as [|n l]; [done|]. unfold set_item, get_value, find_key.
  pose proof (last_index_find (name_is key) l) as Hl.
  destruct (last_index (name_is key) l) as [i|] eqn:Ei; intros [= <-]; cbn.
  - pose proof (last_index_find (name_is key)
                  (alter (λ c, mk_prop (p_real_name c) v) i l)) as Hl'.
    rewrite last_index_alter, Ei in Hl'
      by (intros x; by apply name_is_mk_prop).
    destruct Hl' as (x' & Hx' & _ & ->).
    destruct Hl as (x & Hx & _).
    rewrite list_lookup_alter_eq, Hx in Hx'. injection Hx' as <-.
    by rewrite p_value_mk_prop.
  - rewrite rev_app_distr. cbn. by rewrite name_is_self, p_value_mk_prop.
Qed.

(** ** The palette stage of the export *)

Lemma place_palette_position item_data alone idx c c' :
  place_palette item_data alone idx c = Ok c' →
  get_value c' "Position" None = Some (grid_position idx).
Proof.
  unfold place_palette. destruct (if alone then _ else _) as [p1|]; [|done].
  cbn [mbind result_bind]. apply get_value_set_item.
Qed.

Lemma palette_children_off item_data alone u p0 w :
  Forall (λ c, p_name c ≠ Some "palette") u → p_name p0 = Some "palette" →
  palette_children item_data alone None (u ++ p0 :: w) = Ok (u ++ w).
Proof.
  intros Hu Hp. induction Hu as [|c u Hc _ IH]; cbn [app palette_children].
  - by rewrite bool_decide_eq_true_2.
  - rewrite bool_decide_eq_false_2 by done. by rewrite IH.
Qed.

Lemma palette_children_on item_data alone idx cs cs' :
  palette_children item_data alone (Some idx) cs = Ok cs' →
  Forall2 (λ x x', if bool_decide (p_name x = Some "palette")
                   then place_palette item_data alone idx x = Ok x' ∧
                        get_value x' "Position" None = Some (grid_position idx)
                   else x' = x) cs cs'.
Proof.
  revert cs'. induction cs as [|c cs IH]; intros cs'; cbn [palette_children].
  - intros [= <-]. constructor.
  - destruct (bool_decide (p_name c = Some "palette")) eqn:E.
    + destruct (place_palette item_data alone idx c) as [c'|] eqn:Ec; [|done].
      cbn. destruct (palette_children _ _ _ cs) as [r|]; [|done]. cbn.
      intros [= <-]. constructor; [|by apply IH]. rewrite E.
      split; [done|]. by eapply place_palette_position.
    + destruct (palette_children _ _ _ cs) as [r|]; [|done]. cbn.
      intros [= <-]. constructor; [|by apply IH]. by rewrite E.
Qed.

(** The palette stage alone, on an editor block with one [Editor] block
    of two subtypes: the block of subtype 0 loses its first [Palette]
    block, and every [Palette] block of subtype 1 is placed. *)
Lemma export_palette_stage (item : string) (item_data : ItemVariant)
    (pal_list : list (string * nat)) (idx : nat)
    (n en n0 n1 : option string) (pre post a b c u w cs1 : list Property)
    (p0 ed' : Property) :
  palette_positions item 0 pal_list = {[1 := idx]} →
  no_child "Editor" pre → no_child "Editor" post →
  no_child "Subtype" a → no_child "Subtype" b → no_child "Subtype" c →
  name_is "Editor" (PBlock en []) = true →
  name_is "Subtype" (PBlock n0 []) = true →
  name_is "Subtype" (PBlock n1 []) = true →
  Forall (λ x, p_name x ≠ Some "palette") u → p_name p0 = Some "palette" →
  export_palette item item_data pal_list
    (PBlock n
       (pre ++ PBlock en (a ++ PBlock n0 (u ++ p0 :: w)
                            :: b ++ PBlock n1 cs1 :: c) :: post)) = Ok ed' →
  ∃ cs1',
    ed' = PBlock n
            (pre ++ PBlock en (a ++ PBlock n0 (u ++ w)
                                 :: b ++ PBlock n1 cs1' :: c) :: post) ∧
    Forall2 (λ x x', if bool_decide (p_name x = Some "palette")
                     then place_palette item_data true idx x = Ok x' ∧
                          get_value x' "Position" None = Some (grid_position idx)
                     else x' = x) cs1 cs1'.
Proof.
  intros Hpal Hpre Hpost Ha Hb Hc Hen Hn0 Hn1 Hu Hp0.
  unfold export_palette. rewrite Hpal. cbn [visit_all].
  rewrite (visit_children_one _ _ _ _ _ _ Hpre Hpost) by exact Hen.
  cbn [has_children visit_all].
  rewrite (visit_children_two _ _ _ _ _ _ _ _ Ha Hb Hc) by done.
  cbn [export_subtype].
  rewrite lookup_singleton_ne by done.
  rewrite (palette_children_off _ _ _ _ _ Hu Hp0). cbn [mbind result_bind].
  rewrite lookup_singleton_eq, map_size_singleton.
  rewrite bool_decide_eq_true_2 by done.
  destruct (palette_children item_data true (Some idx) cs1) as [cs1'|] eqn:E;
    [|done].
  cbn [mbind result_bind]. intros [= <-]. exists cs1'. split; [done|].
  by apply palette_children_on.
Qed.

(** ** Deleting keys *)

Lemma existsb_last_index {A} (f : A → bool) l :
  existsb f l = true →
  ∃ i x, last_index f l = Some i ∧ l !! i = Some x ∧ f x = true.
Proof.
  induction l as [|a l IH]; [done|]. cbn [existsb last_index].
  destruct (last_index f l) as [i|] eqn:E.
  - intros _. destruct (existsb f l) eqn:El.
    + destruct (IH eq_refl) as (j & x & [= <-] & Hx & Hf). by exists (S i), x.
    + pose proof (last_index_find f l) as H. rewrite E in H.
      destruct H as (x & Hx & Hf & _). by exists (S i), x.
  - destruct (f a) eqn:Ea; [by exists 0, a|].
    intros H. simpl in H. destruct (IH H) as (? & ? & ? & _). done.
Qed.

Lemma last_index_unique {A} (f : A → bool) l1 x l2 k :
  length l1 = k → Forall (λ y, f y = false) l2 → f x = true →
  last_index f (l1 ++ x :: l2) = Some k.
Proof.
  intros <- Hl2 Hx. assert (last_index f l2 = None) as H2.
  { induction Hl2 as [|y l2 Hy _ IH]; [done|]. cbn [last_index]. by rewrite IH, Hy. }
  induction l1 as [|a l1 IH]; cbn [app last_index length].
  - by rewrite H2, Hx.
  - by rewrite IH.
Qed.

Lemma existsb_delete {A} (f : A → bool) l i x :
  existsb f l = true → l !! i = Some x → f x = false →
  existsb f (delete i l) = true.
Proof.
  revert i. induction l as [|a l IH]; intros i; [done|].
  destruct i as [|i]; cbn.
  - intros H [= ->] Hx. by rewrite Hx in H.
  - intros H Hi Hx. destruct (f a); [done|]. simpl in *. eauto.
Qed.

Lemma name_is_other k1 k2 x :
  name_is k1 x = true → casefold k1 ≠ casefold k2 → name_is k2 x = false.
Proof.
  unfold name_is. destruct (p_name x) as [n|]; [|done].
  intros ->%str_eqb_eq Hne. by apply str_eqb_neq.
Qed.

Lemma get_item_contains p k v : get_item p k = Ok v → p_contains p k = true.
Proof.
  unfold get_item, find_key, p_contains.
  destruct (find _ _) as [c|] eqn:E; [|done]. intros _.
  apply find_some in E as [Hin Hc]. apply existsb_exists. exists c.
  split; [|done]. by apply in_rev.
Qed.

Lemma del_key_contains n l k :
  p_contains (PBlock n l) k = true →
  ∃ i x, l !! i = Some x ∧ name_is k x = true ∧
         del_key (PBlock n l) k = Ok (PBlock n (delete i l)).
Proof.
  unfold p_contains. cbn [p_children].
  intros (i & x & Hi & Hx & Hf)%existsb_last_index.
  exists i, x. unfold del_key. by rewrite Hi.
Qed.

(** ** The voxel stage of the export *)

Lemma tagged_no_volume (tag : nat → option nat) l :
  no_child "Volume" l →
  Forall (λ c : option nat * Property, name_is "Volume" c.2 = false)
    (imap (λ i c, (tag i, c)) l).
Proof.
  intros H. revert tag. induction H as [|c l Hc _ IH]; intros tag; [constructor|].
  cbn [imap]. constructor; [done|]. apply (IH (tag ∘ S)).
Qed.

Lemma listed_no_volume (l : list (option nat * Property)) :
  Forall (λ c, name_is "Volume" c.2 = false) l →
  omap (λ c : option nat * Property,
          match c.1 with
          | Some i => if name_is "Volume" c.2 then Some (i, c.2) else None
          | None => None
          end) l = [].
Proof.
  induction 1 as [|[t c] l Hc _ IH]; [done|]. cbn [omap list_omap].
  cbn in Hc. cbn [fst snd]. rewrite Hc.
  destruct t; exact IH.
Qed.

Lemma tagged_snd (tag : nat → option nat) (l : list Property) :
  map snd (imap (λ i c, (tag i, c)) l) = l.
Proof.
  revert tag. induction l as [|c l IH]; intros tag; [done|].
  cbn [imap map snd]. f_equal. apply (IH (tag ∘ S)).
Qed.

Lemma tagged_other (tag : nat → option nat) (t : nat) v (l : list Property) :
  (∀ i, i < length l → tag i ≠ Some t) →
  map (λ c : option nat * Property,
         if bool_decide (c.1 = Some t) then (c.1, v) else c)
    (imap (λ i c, (tag i, c)) l)
  = imap (λ i c, (tag i, c)) l.
Proof.
  revert tag. induction l as [|c l IH]; intros tag Htag; [done|].
  cbn [imap map fst]. rewrite bool_decide_eq_false_2 by (apply Htag; simpl; lia).
  f_equal. apply (IH (tag ∘ S)). intros i Hi. apply Htag. simpl. lia.
Qed.

Lemma expand_occupied_idle item log n cs :
  no_child "Volume" cs →
  expand_occupied item log (PBlock n cs) = Ok (log, PBlock n cs).
Proof.
  intros H. unfold expand_occupied.
  rewrite (listed_no_volume _ (tagged_no_volume Some cs H)).
  cbn. by rewrite tagged_snd.
Qed.

Lemma tagged_split (a : list Property) x b :
  imap (λ i c, (Some i, c)) (a ++ x :: b)
  = imap (λ i c, (Some i, c)) a
    ++ (Some (length a), x) :: imap (λ i c, (Some (length a + S i), c)) b.
Proof.
  rewrite imap_app. cbn [imap]. by rewrite Nat.add_0_r.
Qed.

Section OneVolume.
Variables (item : string) (log : list string) (n rn : option string).
Variables (a b rc : list Property).
Hypothesis a_plain : no_child "Volume" a.
Hypothesis b_plain : no_child "Volume" b.
Hypothesis region_name : name_is "Volume" (PBlock rn rc) = true.

(** With one [Volume] part, the loop over the listed parts has one turn,
    which deletes that part. *)
Lemma expand_occupied_one :
  expand_occupied item log (PBlock n (a ++ PBlock rn rc :: b)) =
    st ← expand_volume item
           {| vol_children :=
                imap (λ i c, (Some i, c)) (a ++ PBlock rn rc :: b);
              vol_log := log |}
           (length a, PBlock rn rc);
    Ok (vol_log st, PBlock n (map snd (vol_children st))).
Proof.
  unfold expand_occupied. rewrite tagged_split.
  rewrite omap_app. cbn [omap list_omap fst snd]. rewrite region_name.
  rewrite (listed_no_volume _ (tagged_no_volume Some a a_plain)).
  rewrite (listed_no_volume _
             (tagged_no_volume (λ i, Some (length a + S i)) b b_plain)).
  cbn [app for_each].
  by destruct (expand_volume _ _ _).
Qed.

Lemma volume_deleted :
  last_index (λ c : option nat * Property, name_is "Volume" c.2)
    (imap (λ i c, (Some i, c)) (a ++ PBlock rn rc :: b)) = Some (length a) ∧
  delete (length a) (imap (λ i c, (Some i, c)) (a ++ PBlock rn rc :: b))
    = imap (λ i c, (Some i, c)) a
      ++ imap (λ i c, (Some (length a + S i), c)) b.
Proof.
  rewrite tagged_split. split.
  - apply (last_index_unique (λ c : option nat * Property, name_is "Volume" c.2)).
    + apply length_imap.
    + apply (tagged_no_volume (λ i, Some (length a + S i)) b b_plain).
    + exact region_name.
  - pose proof (length_imap (λ i c, (Some i, c)) a) as Hlen.
    pose proof (delete_middle (imap (λ i c, (Some i, c)) a)
                  (imap (λ i c, (Some (length a + S i), c)) b)
                  (Some (length a), PBlock rn rc)) as Hdel.
    by rewrite Hlen in Hdel.
Qed.

Lemma volume_untagged v :
  map (λ c : option nat * Property,
         if bool_decide (c.1 = Some (length a)) then (c.1, v) else c)
    (imap (λ i c, (Some i, c)) a
     ++ imap (λ i c, (Some (length a + S i), c)) b)
  = imap (λ i c, (Some i, c)) a
    ++ imap (λ i c, (Some (length a + S i), c)) b.
Proof.
  rewrite map_app. f_equal.
  - apply (tagged_other Some). intros i Hi [=]. lia.
  - apply (tagged_other (λ i, Some (length a + S i))). intros i _ [=]. lia.
Qed.
End OneVolume.

Lemma del_two_corners n l k1 k2 :
  casefold k1 ≠ casefold k2 →
  p_contains (PBlock n l) k1 = true → p_contains (PBlock n l) k2 = true →
  ∃ l1 l2, del_key (PBlock n l) k1 = Ok (PBlock n l1) ∧
           del_key (PBlock n l1) k2 = Ok (PBlock n l2).
Proof.
  intros Hne H1 H2.
  destruct (del_key_contains n l k1 H1) as (i & x & Hi & Hx & E1).
  destruct (del_key_contains n (delete i l) k2) as (j & y & _ & _ & E2); [|eauto].
  eapply existsb_delete; eauto. by eapply name_is_other.
Qed.

Lemma set_item_block n l k v : ∃ l', set_item (PBlock n l) k v = Ok (PBlock n l').
Proof. unfold set_item. destruct (last_index _ _); eauto. Qed.

Lemma corner_origin : vec_from_str (VStr "0 0 0") = (0, 0, 0)%Z.
Proof. reflexivity. Qed.

Lemma corner_far : vec_from_str (VStr "1 1 0") = (1, 1, 0)%Z.
Proof. reflexivity. Qed.

Section VoxelPaths.
Context {S : Type}.
Variable body : S → Property → result (S * Property).
Variables (n xn on : option string) (pre post xa xb : list Property).
Hypothesis pre_plain : no_child "Exporting" pre.
Hypothesis post_plain : no_child "Exporting" post.
Hypothesis xa_plain : no_child "OccupiedVoxels" xa.
Hypothesis xb_plain : no_child "OccupiedVoxels" xb.
Hypothesis xn_name : name_is "Exporting" (PBlock xn []) = true.
Hypothesis on_name : name_is "OccupiedVoxels" (PBlock on []) = true.

Lemma visit_occupied (st : S) cs :
  visit_all body ["Exporting"; "OccupiedVoxels"] st
    (editor_around n xn on pre post xa xb cs) =
  '(st1, occu) ← body st (PBlock on cs);
  Ok (st1, PBlock n (pre ++ PBlock xn (xa ++ occu :: xb) :: post)).
Proof.
  unfold editor_around. cbn [visit_all].
  rewrite (visit_children_one _ _ _ _ _ _ pre_plain post_plain) by exact xn_name.
  cbn [has_children visit_all].
  rewrite (visit_children_one _ _ _ _ _ _ xa_plain xb_plain) by exact on_name.
  by destruct (body st (PBlock on cs)) as [[st1 occu]|].
Qed.

Lemma visit_surface_none (st : S) cs :
  no_child "SurfaceVolume" cs →
  visit_all body ["Exporting"; "OccupiedVoxels"; "SurfaceVolume"] st
    (editor_around n xn on pre post xa xb cs) =
  Ok (st, editor_around n xn on pre post xa xb cs).
Proof.
  intros Hcs. unfold editor_around. cbn [visit_all].
  rewrite (visit_children_one _ _ _ _ _ _ pre_plain post_plain) by exact xn_name.
  cbn [has_children visit_all].
  rewrite (visit_children_one _ _ _ _ _ _ xa_plain xb_plain) by exact on_name.
  cbn [has_children visit_all]. by rewrite (visit_children_skip _ _ _ _ Hcs).
Qed.

Lemma visit_surface (st : S) a region b :
  no_child "SurfaceVolume" a → no_child "SurfaceVolume" b →
  name_is "SurfaceVolume" region = true →
  visit_all body ["Exporting"; "OccupiedVoxels"; "SurfaceVolume"] st
    (editor_around n xn on pre post xa xb (a ++ region :: b)) =
  '(st1, region') ← body st region;
  Ok (st1, editor_around n xn on pre post xa xb (a ++ region' :: b)).
Proof.
  intros Ha Hb Hr. unfold editor_around. cbn [visit_all].
  rewrite (visit_children_one _ _ _ _ _ _ pre_plain post_plain) by exact xn_name.
  cbn [has_children visit_all].
  rewrite (visit_children_one _ _ _ _ _ _ xa_plain xb_plain) by exact on_name.
  cbn [has_children visit_all].
  rewrite (visit_children_one _ _ _ _ _ _ Ha Hb Hr).
  by destruct (body st region) as [[st1 region']|].
Qed.
End VoxelPaths.

(** The voxel stage on one region: in an editor block whose
    [OccupiedVoxels] block holds one region with the corners [0 0 0] and
    [1 1 0], the stage replaces a [Volume]
    region by four [Voxel] entries, one per grid point of the inclusive
    box, and gives a [SurfaceVolume] region four [Surface] entries, one
    per grid point; a region that lacks a corner key adds a warning to
    the log and no entry (a [Volume] region is dropped, a
    [SurfaceVolume] region stays as it is); everything else in the editor
    block stays. *)
Theorem voxel_region_expansion (item : string) (log : list string)
    (n xn on rn : option string) (pre post xa xb a b rc : list Property) :
  let region := PBlock rn rc in
  let editor := editor_around n xn on pre post xa xb (a ++ region :: b) in
  no_child "Exporting" pre → no_child "Exporting" post →
  no_child "OccupiedVoxels" xa → no_child "OccupiedVoxels" xb →
  name_is "Exporting" (PBlock xn []) = true →
  name_is "OccupiedVoxels" (PBlock on []) = true →
  no_child "Volume" a → no_child "Volume" b →
  no_child "SurfaceVolume" a → no_child "SurfaceVolume" b →
  (p_name region = Some "volume" →
     (get_item region "pos1" = Ok (VStr "0 0 0") →
      get_item region "pos2" = Ok (VStr "1 1 0") →
      ∃ v1 v2 c1 c2 c3 c4,
        del_key (PBlock (Some "Voxel") rc) "pos1" = Ok v1 ∧
        del_key v1 "pos2" = Ok v2 ∧
        set_item v2 "Pos" (VStr "0 0 0") = Ok c1 ∧
        set_item v2 "Pos" (VStr "0 1 0") = Ok c2 ∧
        set_item v2 "Pos" (VStr "1 0 0") = Ok c3 ∧
        set_item v2 "Pos" (VStr "1 1 0") = Ok c4 ∧
        export_voxels item log editor
          = Ok (log, editor_around n xn on pre post xa xb
                       (a ++ b ++ [c1; c2; c3; c4]))) ∧
     (p_contains region "pos1" = false ∨ p_contains region "pos2" = false →
      export_voxels item log editor
        = Ok (log ++ [volume_warning item],
              editor_around n xn on pre post xa xb (a ++ b)))) ∧
  (p_name region = Some "surfacevolume" →
     (get_item region "subpos1" = Ok (VStr "0 0 0") →
      get_item region "subpos2" = Ok (VStr "1 1 0") →
      ∃ v1 v2,
        del_key (PBlock (Some "Voxel") rc) "subpos1" = Ok v1 ∧
        del_key v1 "subpos2" = Ok v2 ∧
        export_voxels item log editor
          = Ok (log, editor_around n xn on pre post xa xb
                       (a ++ PBlock (Some "Voxel")
                               (p_children v2
                                ++ [surface_at "0 0 0"; surface_at "0 1 0";
                                    surface_at "1 0 0"; surface_at "1 1 0"])
                          :: b))) ∧
     (p_contains region "subpos1" = false ∨ p_contains region "subpos2" = false →
      export_voxels item log editor
        = Ok (log ++ [surface_warning item], editor))).
Proof.
  intros region editor; subst region editor.
  intros Hpre Hpost Hxa Hxb Hxn Hon Ha Hb Hsa Hsb.
  split.
  - intros Hname.
    assert (name_is "Volume" (PBlock rn rc) = true) as Hvol.
    { unfold name_is. by rewrite Hname. }
    assert (no_child "SurfaceVolume" (a ++ (PBlock rn rc) :: b)) as Hnone.
    { apply Forall_app. split; [done|]. constructor; [|done].
      unfold name_is. by rewrite Hname. }
    assert (∀ st,
              expand_volume item
                {| vol_children :=
                     imap (λ i c, (Some i, c)) (a ++ (PBlock rn rc) :: b);
                   vol_log := log |} (length a, (PBlock rn rc)) = Ok st →
              export_voxels item log
                (editor_around n xn on pre post xa xb (a ++ PBlock rn rc :: b))
                = Ok (vol_log st,
                      editor_around n xn on pre post xa xb
                        (map snd (vol_children st)))) as Hrun.
    { intros st Hst. unfold export_voxels.
      rewrite visit_surface_none by done. cbn [mbind result_bind].
      rewrite visit_occupied by done.
      rewrite (expand_occupied_one item log on rn a b rc Ha Hb Hvol).
      by rewrite Hst. }
    destruct (volume_deleted rn a b rc Hb Hvol) as [Hlast Hdel].
    split.
    + intros H1 H2.
      pose proof (get_item_contains _ _ _ H1) as C1.
      pose proof (get_item_contains _ _ _ H2) as C2.
      destruct (del_two_corners (Some "Voxel") rc "pos1" "pos2")
        as (l1 & l2 & D1 & D2); [done|exact C1|exact C2|].
      destruct (set_item_block (Some "Voxel") l2 "Pos" (VStr "0 0 0")) as [k1 S1].
      destruct (set_item_block (Some "Voxel") l2 "Pos" (VStr "0 1 0")) as [k2 S2].
      destruct (set_item_block (Some "Voxel") l2 "Pos" (VStr "1 0 0")) as [k3 S3].
      destruct (set_item_block (Some "Voxel") l2 "Pos" (VStr "1 1 0")) as [k4 S4].
      eexists _, _, _, _, _, _.
      split_and!; [exact D1|exact D2|exact S1|exact S2|exact S3|exact S4|].
      assert (expand_volume item
                {| vol_children :=
                     imap (λ i c, (Some i, c)) (a ++ PBlock rn rc :: b);
                   vol_log := log |} (length a, PBlock rn rc)
              = Ok {| vol_children :=
                        (imap (λ i c, (Some i, c)) a
                         ++ imap (λ i c, (Some (length a + S i), c)) b)
                        ++ map (λ part, (None, part))
                             [PBlock (Some "Voxel") k1; PBlock (Some "Voxel") k2;
                              PBlock (Some "Voxel") k3; PBlock (Some "Voxel") k4];
                      vol_log := log |}) as Hst.
      { unfold expand_volume. cbn [vol_children vol_log].
        rewrite Hlast, Hdel, C1, C2.
        cbn [negb orb]. unfold p_vec. rewrite H1, H2.
        cbn [fmap result_fmap mbind result_bind].
        rewrite corner_origin, corner_far. cbn [vec_bbox Z.min Z.max Z.compare].
        change (iter_grid _ _)
          with [(0, 0, 0); (0, 1, 0); (1, 0, 0); (1, 1, 0)]%Z.
        change (p_set_name (Some "Voxel") (PBlock rn rc))
          with (PBlock (Some "Voxel") rc).
        rewrite D1. cbn [mbind result_bind]. rewrite D2. cbn [mbind result_bind].
        unfold p_copy. cbn [mapM].
        change (vec_str (0, 0, 0)%Z) with "0 0 0".
        change (vec_str (0, 1, 0)%Z) with "0 1 0".
        change (vec_str (1, 0, 0)%Z) with "1 0 0".
        change (vec_str (1, 1, 0)%Z) with "1 1 0".
        rewrite S1, S2, S3, S4. cbn [mbind result_bind mret result_ret].
        by rewrite (volume_untagged a b). }
      rewrite (Hrun _ Hst). cbn [vol_log vol_children].
      rewrite !map_app, !tagged_snd. cbn [map snd]. by rewrite <- app_assoc.
    + intros Hmiss.
      assert (expand_volume item
                {| vol_children :=
                     imap (λ i c, (Some i, c)) (a ++ PBlock rn rc :: b);
                   vol_log := log |} (length a, PBlock rn rc)
              = Ok {| vol_children :=
                        imap (λ i c, (Some i, c)) a
                        ++ imap (λ i c, (Some (length a + S i), c)) b;
                      vol_log := log ++ [volume_warning item] |}) as Hst.
      { unfold expand_volume. cbn [vol_children vol_log].
        rewrite Hlast, Hdel.
        assert (negb (p_contains (PBlock rn rc) "pos1")
                || negb (p_contains (PBlock rn rc) "pos2") = true) as ->; [|done].
        destruct Hmiss as [-> | ->]; [done|apply orb_true_r]. }
      rewrite (Hrun _ Hst). cbn [vol_log vol_children].
      by rewrite map_app, !tagged_snd.
  - intros Hname.
    assert (name_is "SurfaceVolume" (PBlock rn rc) = true) as Hsv.
    { unfold name_is. by rewrite Hname. }
    assert (∀ log' region',
              expand_surface item log (PBlock rn rc) = Ok (log', region') →
              p_name region' ≠ Some "volume" →
              export_voxels item log
                (editor_around n xn on pre post xa xb (a ++ PBlock rn rc :: b))
                = Ok (log', editor_around n xn on pre post xa xb
                              (a ++ region' :: b))) as Hrun.
    { intros log' region' Hr Hn'. unfold export_voxels.
      rewrite visit_surface by done. rewrite Hr. cbn [mbind result_bind].
      rewrite visit_occupied by done.
      rewrite expand_occupied_idle; [done|].
      apply Forall_app. split; [done|]. constructor; [|done].
      unfold name_is. destruct (p_name region') as [m|]; [|done].
      apply str_eqb_neq. intros ->. done. }
    split.
    + intros H1 H2.
      pose proof (get_item_contains _ _ _ H1) as C1.
      pose proof (get_item_contains _ _ _ H2) as C2.
      destruct (del_two_corners (Some "Voxel") rc "subpos1" "subpos2")
        as (l1 & l2 & D1 & D2); [done|exact C1|exact C2|].
      eexists _, _. split_and!; [exact D1|exact D2|].
      apply Hrun; [|done].
      unfold expand_surface. rewrite C1, C2.
      cbn [negb orb]. unfold p_vec. rewrite H1, H2.
      cbn [fmap result_fmap mbind result_bind].
      rewrite corner_origin, corner_far. cbn [vec_bbox Z.min Z.max Z.compare].
      change (iter_grid _ _)
        with [(0, 0, 0); (0, 1, 0); (1, 0, 0); (1, 1, 0)]%Z.
      change (p_set_name (Some "Voxel") (PBlock rn rc))
        with (PBlock (Some "Voxel") rc).
      rewrite D1. cbn [mbind result_bind]. rewrite D2. cbn [mbind result_bind].
      cbn [for_each p_append mbind result_bind p_children].
      rewrite <- !app_assoc. reflexivity.
    + intros Hmiss. apply Hrun; [|by rewrite Hname].
      unfold expand_surface.
      assert (negb (p_contains (PBlock rn rc) "subpos1")
              || negb (p_contains (PBlock rn rc) "subpos2") = true) as ->; [|done].
      destruct Hmiss as [-> | ->]; [done|apply orb_true_r].
Qed.

(** ** The variant patch engine *)

Lemma palette_step_all src n st item :
  p_name item = Some "all" → is_ok (palette_step src n st item) = true.
Proof. intros H. unfold palette_step. by rewrite bool_decide_eq_true_2. Qed.

Lemma palette_step_invalid src n st item :
  p_name item ≠ Some "all" → subtype_index n (p_name item) = None →
  palette_step src n st item
    = Raise (Exception (invalid_index_msg (p_name item) src)).
Proof.
  intros H1 H2. unfold palette_step.
  by rewrite bool_decide_eq_false_2, H2.
Qed.

Lemma for_each_raise_at {A B} (f : A → B → result A) a pre x post e :
  (∀ a', f a' x = Raise e) →
  ∃ e', for_each f a (pre ++ x :: post) = Raise e' ∧
        (is_ok (for_each f a pre) = true → e' = e).
Proof.
  intros Hx. rewrite for_each_app.
  destruct (for_each f a pre) as [a'|e']; cbn.
  - rewrite Hx. cbn. eauto.
  - exists e'. by split.
Qed.

Lemma for_each_all_ok {A B} (f : A → B → result A) a l :
  Forall (λ x, ∀ a', is_ok (f a' x) = true) l → is_ok (for_each f a l) = true.
Proof.
  intros H. revert a. induction H as [|x l Hx _ IH]; intros a; [done|].
  cbn [for_each]. specialize (Hx a). destruct (f a x); [|done]. cbn. apply IH.
Qed.

Lemma modify_values_editor h self props vals :
  modify_values h self props = Ok vals →
  read_prop h (editor self) = Ok (mv_editor vals).
Proof.
  unfold modify_values.
  destruct (if p_contains props "config" then _ else _); [|done]. cbn.
  destruct (if p_contains props "description" then _ else _); [|done]. cbn.
  destruct (if p_contains props "authors" then _ else _); [|done]. cbn.
  destruct (if p_contains props "tags" then _ else _); [|done]. cbn.
  destruct (read_prop h (editor self)); [|done]. cbn.
  destruct (read_prop h (editor_extra self)); [|done]. cbn.
  destruct (read_dict h (icons self)); [|done]. cbn.
  by intros [= <-].
Qed.

(** C8 (as amended): when the [Palette] block of a modification holds a
    child whose key is not [all] and for which [int(key)] is not a valid
    index into the list of subtypes of the base editor block (an integer
    [k] with [-n <= k < n], a negative one counting from the end),
    [modify] fails; when the values of the new variant can be read and the
    entries before that child are applied without an error, the error is
    [Invalid index "<key>" when modifying editoritems for <source>]. *)
Theorem invalid_subtype_index (h : heap) (self : ItemVariant)
    (props : Property) (src : string) (pre post : list Property)
    (bad : Property) :
  find_children ["Palette"] props = pre ++ bad :: post →
  p_name bad ≠ Some "all" →
  (∀ ed, read_prop h (editor self) = Ok ed →
     subtype_index (length (find_all ["Editor"; "SubType"] ed)) (p_name bad)
       = None) →
  (∃ e, modify h self props src = Raise e) ∧
  (∀ vals st,
     modify_values h self props = Ok vals →
     for_each
       (palette_step src (length (find_all ["Editor"; "SubType"] (mv_editor vals))))
       {| pal_editor := mv_editor vals; pal_icons := mv_icons vals;
          pal_all_name := all_name self; pal_all_icon := all_icon self |}
       pre = Ok st →
     modify h self props src
       = Raise (Exception (invalid_index_msg (p_name bad) src))).
Proof.
  intros Hentries Hname Hindex. unfold modify.
  destruct (modify_values h self props) as [vals|e] eqn:Ev;
    [|split; [by exists e|done]].
  cbn [mbind result_bind]. rewrite Hentries.
  specialize (Hindex _ (modify_values_editor _ _ _ _ Ev)).
  edestruct (for_each_raise_at
               (palette_step src
                  (length (find_all ["Editor"; "SubType"] (mv_editor vals))))
               {| pal_editor := mv_editor vals; pal_icons := mv_icons vals;
                  pal_all_name := all_name self; pal_all_icon := all_icon self |}
               pre bad post) as (e' & He' & Hfirst).
  { intros st. by apply palette_step_invalid. }
  rewrite He'. cbn [mbind result_bind]. split; [by exists e'|].
  intros vals' st [= <-] Hpre. rewrite Hfirst; [done|]. by rewrite Hpre.
Qed.

Lemma invalid_subtype_index_witness :
  find_children ["Palette"] ex_later_delta
    = [PBlock (Some "0") [PLeaf (Some "pal_name") "First"];
       PBlock (Some "2") [PLeaf (Some "pal_name") "None"]] ∧
  length (find_all ["Editor"; "SubType"] ex_editor) = 2 ∧
  modify ex_heap_editor (ex_var "base") ex_later_delta "<ITEM:VER.Mid>"
    = Raise (Exception (invalid_index_msg (Some "2") "<ITEM:VER.Mid>")).
Proof.
  split; [reflexivity|]. split; [reflexivity|].
  destruct (invalid_subtype_index ex_heap_editor (ex_var "base") ex_later_delta
              "<ITEM:VER.Mid>"
              [PBlock (Some "0") [PLeaf (Some "pal_name") "First"]] []
              (PBlock (Some "2") [PLeaf (Some "pal_name") "None"]))
    as [_ H].
  - reflexivity.
  - discriminate.
  - intros ed [= <-]. reflexivity.
  - eapply H; vm_compute; reflexivity.
Defined.

(** C8 as stated fails for a negative key: with two subtypes, [-1] is
    the index of none of them, and [modify] patches the last one. *)
Lemma invalid_subtype_index_counterexample :
  ∃ v h' ed last pal,
    modify ex_heap_editor (ex_var "base") ex_negative_delta "<ITEM:VER.Mid>"
      = Ok (v, h') ∧
    find_children ["Palette"] ex_negative_delta = [ex_negative_entry] ∧
    p_name ex_negative_entry = Some "-1" ∧
    py_int "-1" = Some (-1)%Z ∧
    length (find_all ["Editor"; "SubType"] ex_editor) = 2 ∧
    read_prop h' (editor v) = Ok ed ∧
    find_all ["Editor"; "SubType"] ed !! 1 = Some last ∧
    find_key last "Palette" = Some pal ∧
    get_value pal "Tooltip" None = Some (VStr "Last").
Proof.
  eexists _, _, _, _, _. split_and!; [vm_compute; reflexivity|reflexivity..].
Qed.

(** ** An empty modification *)

Lemma find_key_last_index p key x :
  find_key p key = Some x →
  ∃ i, last_index (name_is key) (p_children p) = Some i ∧ p_children p !! i = Some x.
Proof.
  unfold find_key. intros Hf.
  pose proof (last_index_find (name_is key) (p_children p)) as H.
  destruct (last_index _ _) as [i|]; [|congruence].
  destruct H as (x' & Hx' & _ & Hfind). exists i. split; [done|]. congruence.
Qed.

Lemma with_ensured_found key f n l x x' :
  find_key (PBlock n l) key = Some x → f x = Ok x' →
  ∃ i, l !! i = Some x ∧ with_ensured key f (PBlock n l) = Ok (PBlock n (<[i := x']> l)).
Proof.
  intros (i & Hi & Hx)%find_key_last_index Hf. cbn in Hi, Hx.
  exists i. split; [done|]. unfold with_ensured. by rewrite Hi, Hx, Hf.
Qed.

(** An empty modification leaves an editor block with an [Instances]
    block as it is. *)
Lemma modify_instances_idle nm ed :
  has_instances ed → modify_instances (PBlock nm []) ed = Ok ed.
Proof.
  intros (x & y & Hx & Hxc & Hy). unfold modify_instances.
  destruct ed as [|n l]; [done|]. destruct x as [|xn xl]; [done|].
  destruct (with_ensured_found "Instances"
              (λ instances, for_each instance_step instances
                              (find_children ["Instances"] (PBlock nm [])))
              xn xl _ y Hy eq_refl) as (j & Hj & Ej).
  rewrite (list_insert_id _ _ _ Hj) in Ej.
  destruct (with_ensured_found "Exporting" _ n l _ _ Hx Ej) as (i & Hi & Ei).
  by rewrite (list_insert_id _ _ _ Hi) in Ei.
Qed.

Lemma last_index_insert {A} (f : A → bool) l i c :
  last_index f l = Some i → f c = true → last_index f (<[i:=c]> l) = Some i.
Proof.
  revert i. induction l as [|a l IH]; intros i; [done|]. cbn [last_index].
  destruct (last_index f l) as [j|] eqn:E.
  - intros [= <-] Hc. change (<[S j:=c]> (a :: l)) with (a :: <[j:=c]> l).
    cbn [last_index]. by rewrite (IH j eq_refl Hc).
  - destruct (f a); [|done]. intros [= <-] Hc.
    change (<[0:=c]> (a :: l)) with (c :: l).
    cbn [last_index]. by rewrite E, Hc.
Qed.

Lemma find_key_insert n l key i c c' :
  last_index (name_is key) l = Some i → l !! i = Some c →
  name_is key c' = true →
  find_key (PBlock n (<[i:=c']> l)) key = Some c'.
Proof.
  intros Hi Hc Hn. unfold find_key. cbn [p_children].
  pose proof (last_index_find (name_is key) (<[i:=c']> l)) as H.
  rewrite (last_index_insert _ _ _ _ Hi Hn) in H.
  destruct H as (x & Hx & _ & ->). f_equal.
  rewrite list_lookup_insert_eq in Hx by (by eapply lookup_lt_Some).
  congruence.
Qed.

Lemma find_key_snoc n l key c :
  name_is key c = true → find_key (PBlock n (l ++ [c])) key = Some c.
Proof.
  intros Hc. unfold find_key. cbn [p_children].
  rewrite rev_app_distr. cbn. by rewrite Hc.
Qed.

(** An empty modification makes sure of the [Instances] entry, and
    changes nothing else. *)
Lemma modify_instances_ensured nm ed ed' :
  modify_instances (PBlock nm []) ed = Ok ed' →
  has_instances ed' ∧ instances_ensured ed ed'.
Proof.
  unfold modify_instances. change (find_children ["Instances"] (PBlock nm []))
    with (@nil Property). cbn [for_each].
  destruct ed as [|n l]; [done|]. unfold with_ensured at 1.
  pose proof (last_index_find (name_is "Exporting") l) as Hl.
  destruct (last_index (name_is "Exporting") l) as [i|] eqn:Ei.
  - destruct Hl as (x & Hx & Hnx & Hfx). rewrite Hx.
    destruct x as [|xn xl]; [done|]. unfold with_ensured.
    pose proof (last_index_find (name_is "Instances") xl) as Hxl.
    destruct (last_index (name_is "Instances") xl) as [j|] eqn:Ej.
    + destruct Hxl as (y & Hy & Hny & Hfy). rewrite Hy.
      cbn [mbind result_bind]. rewrite (list_insert_id _ _ _ Hy).
      cbn [mbind result_bind]. rewrite (list_insert_id _ _ _ Hx).
      intros [= <-].
      assert (has_instances (PBlock n l)) as Hhas.
      { exists (PBlock xn xl), y. split_and!; [exact Hfx|done|exact Hfy]. }
      split; [done|]. by left.
    + cbn [mbind result_bind]. intros [= <-]. split.
      * exists (PBlock xn (xl ++ [PBlock (Some "Instances") []])),
               (PBlock (Some "Instances") []).
        split_and!; [|done|by apply find_key_snoc].
        by eapply find_key_insert.
      * right. right. exists n, l, i, xn, xl. by split_and!.
  - cbn [with_ensured last_index mbind result_bind app]. intros [= <-]. split.
    + exists (PBlock (Some "Exporting") [PBlock (Some "Instances") []]),
             (PBlock (Some "Instances") []).
      split_and!; [by apply find_key_snoc|done|done].
    + right. left. exists n, l. by split_and!.
Qed.

Lemma read_alloc_old (h : heap) (more : list Obj) l :
  l < length h → (h ++ more) !! l = h !! l.
Proof. intros H. by apply lookup_app_l. Qed.

Lemma read_alloc_new (h : heap) (more : list Obj) l k :
  l = length h + k → (h ++ more) !! l = more !! k.
Proof. intros ->. rewrite lookup_app_r by lia. f_equal. lia. Qed.

Ltac read_new :=
  unfold read_prop, read_list, read_desc, read_dict;
  first [ erewrite (read_alloc_new _ _ _ 0) by lia
        | erewrite (read_alloc_new _ _ _ 1) by lia
        | erewrite (read_alloc_new _ _ _ 2) by lia
        | erewrite (read_alloc_new _ _ _ 3) by lia
        | erewrite (read_alloc_new _ _ _ 4) by lia
        | erewrite (read_alloc_new _ _ _ 5) by lia ];
  reflexivity.




(** The [Volume] region with both corners, alone in its block. *)
Lemma voxel_region_expansion_witness :
  ∃ v1 v2 c1 c2 c3 c4,
    del_key (PBlock (Some "Voxel") ex_corners) "pos1" = Ok v1 ∧
    del_key v1 "pos2" = Ok v2 ∧
    set_item v2 "Pos" (VStr "0 0 0") = Ok c1 ∧
    set_item v2 "Pos" (VStr "0 1 0") = Ok c2 ∧
    set_item v2 "Pos" (VStr "1 0 0") = Ok c3 ∧
    set_item v2 "Pos" (VStr "1 1 0") = Ok c4 ∧
    export_voxels "ITEM" [] ex_voxel_editor
      = Ok ([], editor_around (Some "Item") (Some "Exporting")
                  (Some "OccupiedVoxels") [PLeaf (Some "Type") "ITEM"] [] [] []
                  ([] ++ [] ++ [c1; c2; c3; c4])).
Proof.
  destruct (voxel_region_expansion "ITEM" [] (Some "Item") (Some "Exporting")
              (Some "OccupiedVoxels") (Some "Volume")
              [PLeaf (Some "Type") "ITEM"] [] [] [] [] [] ex_corners)
    as [Hvolume _]; try (by repeat constructor).
  destruct (Hvolume eq_refl) as [Hvalid _].
  exact (Hvalid eq_refl eq_refl).
Defined.

(** ** Lists of values in one string *)

Lemma space_no_sep c : is_space c = true → is_sep c = false.
Proof. destruct c as [[] [] [] [] [] [] [] []]; vm_compute; congruence. Qed.

Lemma append_cons c (a b : string) : String c a +:+ b = String c (a +:+ b).
Proof. reflexivity. Qed.

Lemma append_nil (b : string) : EmptyString +:+ b = b.
Proof. reflexivity. Qed.

Lemma append_assoc (a b c : string) : (a +:+ b) +:+ c = a +:+ (b +:+ c).
Proof.
  induction a as [|x a IH]; [done|]. by rewrite !append_cons, IH.
Qed.

Lemma append_empty_r (a : string) : a +:+ EmptyString = a.
Proof. induction a as [|x a IH]; [done|]. by rewrite append_cons, IH. Qed.

Lemma str_exists_append f a b :
  str_exists f (a +:+ b) = str_exists f a || str_exists f b.
Proof.
  induction a as [|x a IH]; [done|].
  rewrite append_cons. simpl. by rewrite IH, orb_assoc.
Qed.

Lemma str_exists_rev_app f a acc :
  str_exists f (String.rev_app a acc) = str_exists f a || str_exists f acc.
Proof.
  revert acc. induction a as [|x a IH]; intros acc; simpl; [done|].
  rewrite IH. simpl. destruct (f x), (str_exists f a); simpl; auto with bool.
Qed.

Lemma str_exists_impl (f g : ascii → bool) s :
  (∀ c, f c = true → g c = true) → str_exists f s = true → str_exists g s = true.
Proof.
  intros H. induction s as [|c s IH]; simpl; [done|].
  intros [Hc|Hs]%orb_true_iff; apply orb_true_iff; auto.
Qed.

(** The fields of a split. *)
Lemma split_go_plain f cur x :
  str_exists f x = false → split_go f cur x = [String.rev_app cur x].
Proof.
  revert cur. induction x as [|c x IH]; intros cur; simpl; [done|].
  intros [Hc Hx]%orb_false_iff. rewrite Hc. by rewrite IH.
Qed.

Lemma split_go_append f cur a d b :
  f d = true →
  split_go f cur (a +:+ String d b)
    = split_go f cur a ++ split_go f EmptyString b.
Proof.
  intros Hd. revert cur.
  induction a as [|c a IH]; intros cur; rewrite ?append_cons, ?append_nil; simpl.
  - by rewrite Hd.
  - destruct (f c); [by rewrite IH|apply IH].
Qed.

Lemma split_go_fields f cur s :
  str_exists f cur = false →
  Forall (λ x, str_exists f x = false) (split_go f cur s).
Proof.
  revert cur. induction s as [|c s IH]; intros cur Hcur; simpl.
  - constructor; [|done]. unfold String.rev.
    by rewrite str_exists_rev_app, Hcur.
  - destruct (f c) eqn:Hc.
    + constructor; [|by apply IH]. unfold String.rev.
      by rewrite str_exists_rev_app, Hcur.
    + apply IH. simpl. by rewrite Hc, Hcur.
Qed.

Lemma split_go_inherit (p f : ascii → bool) cur s :
  str_exists p cur = false → str_exists p s = false →
  Forall (λ x, str_exists p x = false) (split_go f cur s).
Proof.
  revert cur. induction s as [|c s IH]; intros cur Hcur Hs; simpl.
  - constructor; [|done]. unfold String.rev.
    by rewrite str_exists_rev_app, Hcur.
  - simpl in Hs. apply orb_false_iff in Hs as [Hc Hs]. destruct (f c).
    + constructor; [|by apply IH]. unfold String.rev.
      by rewrite str_exists_rev_app, Hcur.
    + apply IH; [|done]. simpl. by rewrite Hc, Hcur.
Qed.

(** Stripping white space. *)
Lemma lstrip_exists f s : str_exists f (lstrip s) = true → str_exists f s = true.
Proof.
  induction s as [|c s IH]; simpl; [done|].
  destruct (is_space c); simpl; [|done].
  intros H. rewrite (IH H). apply orb_true_r.
Qed.

Lemma rstrip_exists f s : str_exists f (rstrip s) = true → str_exists f s = true.
Proof.
  induction s as [|c s IH]; simpl; [done|].
  destruct (rstrip s) as [|c' s'] eqn:E.
  - destruct (is_space c); simpl; [done|].
    rewrite orb_false_r. intros ->. done.
  - simpl in *. intros [Hc|Hs]%orb_true_iff; apply orb_true_iff; auto.
Qed.

Lemma strip_exists f s : str_exists f s = false → str_exists f (strip s) = false.
Proof.
  intros H. apply not_true_is_false. intros Hs.
  apply rstrip_exists, lstrip_exists in Hs. congruence.
Qed.

Lemma rstrip_idem s : rstrip (rstrip s) = rstrip s.
Proof.
  induction s as [|c s IH]; simpl; [done|].
  destruct (rstrip s) as [|c' s'] eqn:E.
  - destruct (is_space c) eqn:Hc; simpl; [done|]. by rewrite Hc.
  - change (rstrip (String c (String c' s')) = String c (String c' s')).
    cbn [rstrip] in *. by rewrite IH.
Qed.

Lemma lstrip_head s :
  match lstrip s with
  | EmptyString => True
  | String c _ => is_space c = false
  end.
Proof.
  induction s as [|c s IH]; simpl; [done|].
  destruct (is_space c) eqn:Hc; [done|]. simpl. done.
Qed.

Lemma rstrip_head c s :
  is_space c = false → ∃ r, rstrip (String c s) = String c r.
Proof.
  intros Hc. simpl. destruct (rstrip s); rewrite ?Hc; eauto.
Qed.

Lemma lstrip_fixed c s : is_space c = false → lstrip (String c s) = String c s.
Proof. intros Hc. simpl. by rewrite Hc. Qed.

Lemma strip_idem s : strip (strip s) = strip s.
Proof.
  unfold strip. pose proof (lstrip_head s) as H.
  destruct (lstrip s) as [|c r]; [done|].
  destruct (rstrip_head c r H) as [r' Hr]. rewrite Hr.
  rewrite (lstrip_fixed _ _ H), <- Hr. apply rstrip_idem.
Qed.

Lemma lstrip_spaces w s :
  str_exists (λ c, negb (is_space c)) w = false → lstrip (w +:+ s) = lstrip s.
Proof.
  induction w as [|c w IH]; [done|]. rewrite append_cons. simpl.
  intros [Hc Hw]%orb_false_iff. apply negb_false_iff in Hc. rewrite Hc. auto.
Qed.

Lemma rstrip_spaces w :
  str_exists (λ c, negb (is_space c)) w = false → rstrip w = EmptyString.
Proof.
  induction w as [|c w IH]; simpl; [done|].
  intros [Hc Hw]%orb_false_iff. apply negb_false_iff in Hc.
  by rewrite (IH Hw), Hc.
Qed.

Lemma rstrip_append_spaces s w :
  str_exists (λ c, negb (is_space c)) w = false → rstrip (s +:+ w) = rstrip s.
Proof.
  intros Hw. induction s as [|c s IH]; [by apply rstrip_spaces|].
  rewrite append_cons. simpl. by rewrite IH.
Qed.

Lemma lstrip_length s : String.length (lstrip s) ≤ String.length s.
Proof.
  induction s as [|c s IH]; simpl; [done|].
  destruct (is_space c); simpl; lia.
Qed.

Lemma rstrip_length s : String.length (rstrip s) ≤ String.length s.
Proof.
  induction s as [|c s IH]; simpl; [done|].
  destruct (rstrip s); [destruct (is_space c)|]; simpl in *; lia.
Qed.

(** A stripped text that is not empty begins with a character that is
    not white space. *)
Lemma stripped_head x :
  x ≠ EmptyString → strip x = x →
  ∃ c r, x = String c r ∧ is_space c = false ∧ rstrip x = x.
Proof.
  intros Hne Hx. destruct x as [|c r]; [done|].
  destruct (is_space c) eqn:Hc.
  - exfalso. unfold strip in Hx. simpl in Hx. rewrite Hc in Hx.
    pose proof (rstrip_length (lstrip r)). pose proof (lstrip_length r).
    rewrite Hx in *. simpl in *. lia.
  - exists c, r. split_and!; [done|done|].
    unfold strip in Hx. by rewrite (lstrip_fixed _ _ Hc) in Hx.
Qed.

Lemma strip_padded pre x post :
  x ≠ EmptyString → strip x = x →
  str_exists (λ c, negb (is_space c)) pre = false →
  str_exists (λ c, negb (is_space c)) post = false →
  strip (pre +:+ x +:+ post) = x.
Proof.
  intros Hne Hx Hpre Hpost.
  destruct (stripped_head x Hne Hx) as (c & r & -> & Hc & Hr).
  unfold strip. rewrite (lstrip_spaces _ _ Hpre).
  rewrite append_cons, (lstrip_fixed _ _ Hc), <- append_cons.
  by rewrite (rstrip_append_spaces _ _ Hpost).
Qed.

(** What [sep_values] returns for a string. *)
Lemma sep_values_fields s :
  sep_values (VStr s)
    = Ok (filter (λ x, is_empty_str x = false)
            (map strip (split_go is_sep EmptyString s))).
Proof. destruct s; reflexivity. Qed.

Lemma spaces_no_sep w :
  str_exists (λ c, negb (is_space c)) w = false → str_exists is_sep w = false.
Proof.
  induction w as [|c w IH]; simpl; [done|].
  intros [Hc Hw]%orb_false_iff. apply negb_false_iff in Hc.
  by rewrite (space_no_sep _ Hc), (IH Hw).
Qed.

Lemma sep_values_one pre x post :
  clean_value x →
  str_exists (λ c, negb (is_space c)) pre = false →
  str_exists (λ c, negb (is_space c)) post = false →
  sep_values (VStr (pre +:+ x +:+ post)) = Ok [x].
Proof.
  intros (Hne & Hx & Hsep) Hpre Hpost. rewrite sep_values_fields.
  rewrite split_go_plain.
  2:{ rewrite !str_exists_append, Hsep.
      by rewrite (spaces_no_sep _ Hpre), (spaces_no_sep _ Hpost). }
  cbn [String.rev_app map]. rewrite (strip_padded _ _ _ Hne Hx Hpre Hpost).
  rewrite filter_cons_True; [done|]. by destruct x.
Qed.

Lemma sep_values_append a d b :
  is_sep d = true →
  sep_values (VStr (a +:+ String d b))
    = (x ← sep_values (VStr a); y ← sep_values (VStr b); Ok (x ++ y)).
Proof.
  intros Hd. rewrite !sep_values_fields. cbn [mbind result_bind].
  by rewrite (split_go_append _ _ _ _ _ Hd), map_app, filter_app.
Qed.

(** X1: whatever the ASCII string, [sep_values] returns values of ASCII
    text none of which is empty, holds a delimiter, or begins or ends
    with white space. *)
Theorem sep_values_clean (s : string) :
  str_ascii s →
  ∃ l, sep_values (VStr s) = Ok l ∧ Forall clean_value l ∧ Forall str_ascii l.
Proof.
  intros Hs. eexists. split; [apply sep_values_fields|].
  rewrite <- Forall_and.
  apply Forall_forall. intros x [Hx Hin]%list_elem_of_filter.
  apply list_elem_of_fmap in Hin as (f & -> & Hf).
  pose proof (split_go_fields is_sep EmptyString s eq_refl) as Hall.
  rewrite Forall_forall in Hall. specialize (Hall _ Hf).
  pose proof (split_go_inherit _ is_sep EmptyString s eq_refl Hs) as Hasc.
  rewrite Forall_forall in Hasc. specialize (Hasc _ Hf).
  split; [split_and!|].
  - intros E. by rewrite E in Hx.
  - apply strip_idem.
  - by apply strip_exists.
  - by apply strip_exists.
Qed.

Lemma sep_values_clean_witness :
  sep_values (VStr " Valve ,TeamSpen210; /Carl")
    = Ok ["Valve"; "TeamSpen210"; "Carl"] ∧
  Forall clean_value ["Valve"; "TeamSpen210"; "Carl"] ∧
  Forall str_ascii ["Valve"; "TeamSpen210"; "Carl"].
Proof.
  split; [reflexivity|].
  destruct (sep_values_clean " Valve ,TeamSpen210; /Carl" eq_refl)
    as (l & Hl & Hc).
  vm_compute in Hl. injection Hl as <-. exact Hc.
Defined.

(** X2: reading back a list of ASCII values written with a separator
    between them gives the list: for clean values [l] and a separator
    made of one delimiter and white space, all of them ASCII text,
    [sep_values(sep.join(l)) = l]. *)
Theorem sep_values_join (sep : string) (l : list string) :
  str_ascii sep → Forall str_ascii l →
  is_separator sep → Forall clean_value l →
  sep_values (VStr (str_join sep l)) = Ok l.
Proof.
  intros _ _ (pre & d & post & -> & Hd & Hpre & Hpost) Hl.
  destruct l as [|x l]; [done|].
  enough (∀ w, str_exists (λ c, negb (is_space c)) w = false →
               sep_values (VStr (w +:+ str_join (pre +:+ String d post) (x :: l)))
                 = Ok (x :: l)) as H by apply (H EmptyString eq_refl).
  revert x Hl. induction l as [|y l IH]; intros x Hl w Hw.
  - apply Forall_inv in Hl. cbn [str_join].
    rewrite <- (append_empty_r x) at 1. by apply sep_values_one.
  - apply Forall_cons in Hl as [Hx Hl].
    change (str_join ?s (x :: y :: l)) with (x +:+ s +:+ str_join s (y :: l)).
    replace (w +:+ x +:+ (pre +:+ String d post)
               +:+ str_join (pre +:+ String d post) (y :: l))
      with ((w +:+ x +:+ pre)
              +:+ String d (post +:+ str_join (pre +:+ String d post) (y :: l)))
      by (by rewrite !append_assoc, ?append_cons).
    rewrite (sep_values_append _ _ _ Hd).
    rewrite (sep_values_one _ _ _ Hx Hw Hpre). cbn [mbind result_bind].
    by rewrite (IH y Hl post Hpost).
Qed.

Lemma sep_values_join_witness :
  sep_values (VStr "Valve, TeamSpen210, Carl")
    = Ok ["Valve"; "TeamSpen210"; "Carl"].
Proof.
  apply (sep_values_join ", " ["Valve"; "TeamSpen210"; "Carl"]).
  - reflexivity.
  - by repeat constructor.
  - by exists EmptyString, ","%char, " ".
  - repeat constructor; discriminate.
Defined.

(** ** Pack lists *)

Section AppendNew.
Context {A : Type} `{EqDecision A}.
Implicit Types lst more : list A.

Lemma append_new_snoc lst more x :
  PackList.append_new lst (more ++ [x])
    = (if bool_decide (x ∈ PackList.append_new lst more)
       then PackList.append_new lst more
       else PackList.append_new lst more ++ [x]).
Proof. unfold PackList.append_new. by rewrite fold_left_app. Qed.

Lemma append_new_spec lst more :
  lst `prefix_of` PackList.append_new lst more ∧
  (∀ x, x ∈ PackList.append_new lst more ↔ x ∈ lst ∨ x ∈ more) ∧
  (NoDup lst → NoDup (PackList.append_new lst more)).
Proof.
  induction more as [|x more IH] using rev_ind.
  - split_and!; [done| |done]. intros x. set_solver.
  - destruct IH as (Hpre & Hin & Hnd). rewrite append_new_snoc.
    case_bool_decide as Hx.
    + split_and!; [done| |done]. intros y. rewrite Hin. set_solver.
    + split_and!.
      * by apply prefix_app_r.
      * intros y. rewrite !elem_of_app, Hin. set_solver.
      * intros H0. apply NoDup_app. split_and!; [auto| |apply NoDup_singleton].
        intros y Hy ->%list_elem_of_singleton. done.
Qed.

Lemma append_new_known lst more :
  (∀ x, x ∈ more → x ∈ lst) → PackList.append_new lst more = lst.
Proof.
  revert lst. induction more as [|x more IH]; intros lst Hall; [done|].
  unfold PackList.append_new. cbn [fold_left].
  rewrite bool_decide_eq_true_2 by (apply Hall; left).
  apply IH. intros y Hy. apply Hall. by right.
Qed.
End AppendNew.

(** X3: [PackList.add_over] keeps the files and materials of the pack
    list at the front, in their order, adds those of the override that
    are new, and never adds an entry twice: the result holds exactly the
    entries of both, and has no repetition when the pack list had none. *)
Theorem packlist_add_over_union {A : Type} `{EqDecision A}
    (self override : PackList.t A) :
  let merged := PackList.add_over self override in
  PackList.files self `prefix_of` PackList.files merged ∧
  PackList.trigger_mats self `prefix_of` PackList.trigger_mats merged ∧
  (∀ x, x ∈ PackList.files merged
        ↔ x ∈ PackList.files self ∨ x ∈ PackList.files override) ∧
  (∀ x, x ∈ PackList.trigger_mats merged
        ↔ x ∈ PackList.trigger_mats self ∨ x ∈ PackList.trigger_mats override) ∧
  (NoDup (PackList.files self) → NoDup (PackList.files merged)) ∧
  (NoDup (PackList.trigger_mats self) → NoDup (PackList.trigger_mats merged)).
Proof.
  intros merged. subst merged. cbn.
  destruct (append_new_spec (PackList.files self) (PackList.files override))
    as (? & ? & ?).
  destruct (append_new_spec (PackList.trigger_mats self)
              (PackList.trigger_mats override)) as (? & ? & ?).
  done.
Qed.

Lemma packlist_add_over_union_witness :
  PackList.files (PackList.add_over ex_pack_list ex_pack_over)
    = ["models/button.mdl"; "materials/button.vmt"; "sound/press.wav"] ∧
  NoDup (PackList.files (PackList.add_over ex_pack_list ex_pack_over)).
Proof.
  split; [reflexivity|].
  destruct (packlist_add_over_union ex_pack_list ex_pack_over)
    as (_ & _ & _ & _ & H & _).
  apply H. vm_compute. repeat constructor; set_unfold; intros H1;
    repeat (destruct H1 as [H1|H1]; try discriminate); done.
Defined.

(** X4: merging the same override a second time changes nothing, and so
    does merging a pack list into itself. *)
Theorem packlist_add_over_again {A : Type} `{EqDecision A}
    (self override : PackList.t A) :
  PackList.add_over (PackList.add_over self override) override
    = PackList.add_over self override ∧
  PackList.add_over self self = self.
Proof.
  split.
  - unfold PackList.add_over. cbn. f_equal; apply append_new_known;
      intros x Hx; apply append_new_spec; by right.
  - destruct self as [i f m]. unfold PackList.add_over. cbn.
    f_equal; by apply append_new_known.
Qed.

(** ** Style variables *)

Lemma listed_app a b k :
  StyleVar.listed (a ++ b) k = StyleVar.listed a k || StyleVar.listed b k.
Proof. unfold StyleVar.listed. apply existsb_app. Qed.

Lemma existsb_orb {A} (f g h : A → bool) l :
  (∀ x, h x = f x || g x) → existsb h l = existsb f l || existsb g l.
Proof.
  intros E. induction l as [|x l IH]; [done|]. simpl. rewrite IH, E.
  destruct (f x), (g x), (existsb f l), (existsb g l); reflexivity.
Qed.

(** X5: after [add_over] a style variable applies to a style exactly
    when the variable or the override applied to it before: an override
    can only widen the set of styles. *)
Theorem stylevar_add_over_applies (self override : StyleVar.t)
    (bases : dict (list Style)) (style : Style) :
  StyleVar.applies_to_style (StyleVar.add_over self override) bases style
    = StyleVar.applies_to_style self bases style
      || StyleVar.applies_to_style override bases style.
Proof.
  unfold StyleVar.applies_to_style, StyleVar.add_over.
  destruct (StyleVar.styles self) as [ours|] eqn:Es; [|by rewrite Es].
  destruct (StyleVar.styles override) as [theirs|]; cbn.
  - rewrite listed_app.
    rewrite (existsb_orb (λ b, StyleVar.listed ours (style_id b))
               (λ b, StyleVar.listed theirs (style_id b)))
      by (intros; apply listed_app).
    destruct (StyleVar.listed ours _), (StyleVar.listed theirs _),
      (existsb _ _), (existsb _ _); reflexivity.
  - by rewrite orb_true_r.
Qed.

(** Parts of a text. *)
Lemma str_contains_prefix x y : String.prefix x y = true → str_contains x y = true.
Proof. intros H. destruct y; cbn [str_contains]; by rewrite H. Qed.

Lemma str_contains_tail x a b :
  str_contains x b = true → str_contains x (a +:+ b) = true.
Proof.
  intros H. induction a as [|c a IH]; [done|].
  rewrite append_cons. cbn [str_contains]. rewrite IH. apply orb_true_r.
Qed.

Lemma rstrip_prefix y : String.prefix (rstrip y) y = true.
Proof.
  induction y as [|c y IH]; [done|]. simpl.
  destruct (rstrip y) as [|c' r] eqn:E.
  - destruct (is_space c); [done|]. simpl.
    destruct (ascii_dec c c); [by destruct y|done].
  - simpl. destruct (ascii_dec c c); [|done]. exact IH.
Qed.

Lemma lstrip_tail s : ∃ w, s = w +:+ lstrip s.
Proof.
  induction s as [|c s [w IH]]; [by exists EmptyString|]. simpl.
  destruct (is_space c).
  - exists (String c w). by rewrite append_cons, <- IH.
  - by exists EmptyString.
Qed.

Lemma str_contains_strip s : str_contains (strip s) s = true.
Proof.
  destruct (lstrip_tail s) as [w Hw]. rewrite Hw at 2.
  apply str_contains_tail, str_contains_prefix, rstrip_prefix.
Qed.

(** X6: merging the same override a second time repeats neither its
    description nor changes the name: name, description and flags are
    those left by the first merge. *)
Theorem stylevar_add_over_again (self override : StyleVar.t) :
  let once := StyleVar.add_over self override in
  let twice := StyleVar.add_over once override in
  StyleVar.desc twice = StyleVar.desc once ∧
  StyleVar.name twice = StyleVar.name once ∧
  StyleVar.id twice = StyleVar.id once ∧
  StyleVar.default twice = StyleVar.default once ∧
  StyleVar.enabled twice = StyleVar.enabled once.
Proof.
  intros once twice. subst once twice. unfold StyleVar.add_over.
  destruct (StyleVar.styles self) as [ours|] eqn:Es; [|by rewrite Es].
  destruct (StyleVar.styles override) as [theirs|]; cbn [StyleVar.styles];
    [|done].
  cbn [StyleVar.desc StyleVar.name StyleVar.id StyleVar.default
       StyleVar.enabled].
  split_and!; [| |done..].
  2:{ destruct (truthy (Some (StyleVar.name self))) eqn:E1; rewrite ?E1; [done|].
      by destruct (truthy (Some (StyleVar.name override))). }
  pose proof (str_contains_strip (StyleVar.desc override)) as Hin.
  destruct (is_empty_str (strip (StyleVar.desc override))) eqn:Ee; [done|].
  destruct (str_contains _ (StyleVar.desc self)) eqn:Ec; cbn [negb andb].
  - by rewrite Ec.
  - destruct (is_empty_str (strip (StyleVar.desc self))); cbn [negb].
    + by rewrite Hin.
    + by rewrite (str_contains_tail _ _ _
                    (str_contains_tail _ StyleVar.two_newlines _ Hin)).
Qed.

(** A style reached by following bases lies on the chain, and the other
    way round. *)
Lemma linked_reach A s l n p :
  linked A (s :: l) None → iter_parent A n (Some s) = Some p → p ∈ s :: l.
Proof.
  revert s l. induction n as [|n IH]; intros s l Hl Hn.
  - injection Hn as <-. left.
  - cbn [iter_parent mbind option_bind] in Hn. destruct l as [|y l].
    + simpl in Hl. rewrite Hl in Hn. by rewrite iter_parent_None in Hn.
    + destruct Hl as [Hsy Hl]. rewrite Hsy in Hn. right. by eapply IH.
Qed.

Lemma linked_at A s l i p :
  linked A (s :: l) None → (s :: l) !! i = Some p →
  iter_parent A i (Some s) = Some p.
Proof.
  revert s l. induction i as [|i IH]; intros s l Hl Hi.
  - by injection Hi as <-.
  - cbn [iter_parent mbind option_bind]. destruct l as [|y l]; [done|].
    destruct Hl as [Hsy Hl]. rewrite Hsy. by eapply IH.
Qed.

(** X7: once the styles are resolved, a style variable applies to a
    style exactly when it is unstyled, or lists the style itself or one
    of the styles reached from it by following [base_style]. *)
Theorem stylevar_applies_inherited (style_data : list Style)
    (bases : dict (list Style)) (self : StyleVar.t) (style : Style) :
  resolve_bases style_data = Some (Ok bases) →
  style ∈ dict_values (build_all_styles style_data) →
  StyleVar.applies_to_style self bases style = true
  ↔ StyleVar.styles self = None ∨
    ∃ st n p, StyleVar.styles self = Some st ∧
      iter_parent (build_all_styles style_data) n (Some style) = Some p ∧
      StyleVar.listed st (style_id p) = true.
Proof.
  intros Hres Hs. destruct (chain_of _ _ Hres style Hs) as (l & Hb & Hl).
  unfold StyleVar.applies_to_style. rewrite Hb.
  destruct (StyleVar.styles self) as [st|]; [|by split; auto].
  split.
  - intros H. right. exists st.
    assert (existsb (λ b, StyleVar.listed st (style_id b)) (style :: l) = true)
      as [p [Hp Hlisted]]%existsb_exists.
    { apply orb_true_iff in H as [H|H]; [|done]. simpl. by rewrite H. }
    apply list_elem_of_In, list_elem_of_lookup in Hp as [i Hi].
    exists i, p. split_and!; [done| |done]. by eapply linked_at.
  - intros [?|(st' & n & p & [= <-] & Hn & Hp)]; [done|].
    apply orb_true_iff. right. apply existsb_exists. exists p.
    split; [|done]. apply list_elem_of_In. by eapply linked_reach.
Qed.

Lemma stylevar_applies_inherited_witness :
  StyleVar.applies_to_style
    (StyleVar.init "VAR" (VStr "Var") [VStr "Root"] false false EmptyString)
    ex_chain_bases ex_leaf = true.
Proof.
  apply (stylevar_applies_inherited ex_chain_styles ex_chain_bases _ ex_leaf).
  - reflexivity.
  - right. right. left.
  - right. exists [VStr "Root"], 2, ex_root. split_and!; reflexivity.
Defined.

(** ** Additional configuration for items *)

Lemma merge_styles_get (theirs ours r : dict Property) :
  NoDup (dict_keys theirs) →
  for_each ItemConfig.merge_style ours theirs = Ok r →
  ∀ s, merged_entry (dict_get ours s) (dict_get theirs s) (dict_get r s).
Proof.
  revert ours. induction theirs as [|[k b] theirs IH]; intros ours Hnd.
  - intros [= <-] s. simpl. by destruct (dict_get ours s).
  - apply NoDup_cons in Hnd as [Hk Hnd]. cbn [fst] in Hk.
    apply dict_get_None in Hk. cbn [for_each].
    destruct (ItemConfig.merge_style ours (k, b)) as [ours1|] eqn:E; [|done].
    cbn [mbind result_bind]. intros Hrun s.
    specialize (IH _ Hnd Hrun s). cbn [dict_get].
    assert (dict_get ours1 s
            = if str_eqb k s
              then match dict_get ours k with
                   | None => Some b
                   | Some a => match p_add a b with Ok z => Some z | Raise _ => None end
                   end
              else dict_get ours s) as Hours1.
    { unfold ItemConfig.merge_style, p_copy in E.
      destruct (dict_get ours k) as [a|].
      - destruct (p_add a b) as [z|]; [|done]. injection E as <-.
        by rewrite dict_get_set.
      - injection E as <-. by rewrite dict_get_set. }
    destruct (str_eqb k s) eqn:Eks.
    + apply str_eqb_eq in Eks as <-.
      rewrite Hk in IH. simpl in IH.
      rewrite Hours1 in IH. unfold merged_entry.
      unfold ItemConfig.merge_style, p_copy in E.
      destruct (dict_get ours k) as [a|]; [|by destruct (dict_get ours1 k)].
      destruct (p_add a b) as [z|]; [|done].
      exists z. split; [done|]. by destruct (dict_get ours1 k).
    + by rewrite Hours1 in IH.
Qed.

Lemma merge_versions_get (theirs ours r : dict (dict Property)) :
  NoDup (dict_keys theirs) →
  (∀ v st, (v, st) ∈ theirs → NoDup (dict_keys st)) →
  for_each ItemConfig.merge_version ours theirs = Ok r →
  ∀ v, match dict_get theirs v with
       | None => dict_get r v = dict_get ours v
       | Some st =>
           ∃ st', dict_get r v = Some st' ∧
             ∀ s, merged_entry (dict_get (default [] (dict_get ours v)) s)
                    (dict_get st s) (dict_get st' s)
       end.
Proof.
  revert ours. induction theirs as [|[k st] theirs IH]; intros ours Hnd Hst.
  - by intros [= <-] v.
  - apply NoDup_cons in Hnd as [Hk Hnd]. cbn [fst] in Hk.
    apply dict_get_None in Hk. cbn [for_each].
    destruct (ItemConfig.merge_version ours (k, st)) as [ours1|] eqn:E; [|done].
    cbn [mbind result_bind]. intros Hrun v.
    assert (∀ v st, (v, st) ∈ theirs → NoDup (dict_keys st)) as Hst'
      by (intros ?? ?; eapply Hst; by right).
    specialize (IH _ Hnd Hst' Hrun v). cbn [dict_get].
    unfold ItemConfig.merge_version in E.
    destruct (for_each ItemConfig.merge_style _ st) as [m|] eqn:Em; [|done].
    injection E as <-.
    destruct (str_eqb k v) eqn:Ekv.
    + apply str_eqb_eq in Ekv as <-.
      rewrite Hk in IH.
      exists m. split; [by rewrite IH, dict_get_set, str_eqb_refl|].
      eapply merge_styles_get; [|done]. eapply Hst. left.
    + by rewrite dict_get_set, Ekv in IH.
Qed.

(** X8: [ItemConfig.add_over] merges by version and style.  For every
    version and style, a configuration that only one of the two holds is
    kept as it is, and where both hold one the override's blocks are
    added after ours; the same goes for the configuration shared by all
    styles. *)
Theorem itemconfig_add_over_merges (self override merged : ItemConfig.t) :
  ItemConfig.keys_distinct override →
  ItemConfig.add_over self override = Ok merged →
  ItemConfig.id merged = ItemConfig.id self ∧
  p_add (ItemConfig.all_conf self) (ItemConfig.all_conf override)
    = Ok (ItemConfig.all_conf merged) ∧
  ∀ v s, merged_entry (ItemConfig.conf_at self v s)
           (ItemConfig.conf_at override v s) (ItemConfig.conf_at merged v s).
Proof.
  intros [Hnd Hst]. unfold ItemConfig.add_over, p_copy.
  destruct (p_add _ _) as [conf|]; [|done]. cbn [mbind result_bind].
  destruct (for_each _ _ _) as [vers|] eqn:E; [|done]. cbn [mbind result_bind].
  intros [= <-]. split_and!; [done..|]. intros v s.
  pose proof (merge_versions_get _ _ _ Hnd Hst E v) as H.
  unfold ItemConfig.conf_at. cbn [ItemConfig.versions].
  destruct (dict_get (ItemConfig.versions override) v) as [st|]; cbn.
  - destruct H as (st' & -> & H). cbn. specialize (H s).
    by destruct (dict_get (ItemConfig.versions self) v).
  - rewrite H. by destruct (dict_get (ItemConfig.versions self) v ≫= _).
Qed.

Lemma itemconfig_add_over_merges_witness :
  merged_entry
    (Some (PBlock None [PBlock (Some "Ours") []]))
    (Some (PBlock None [PBlock (Some "Theirs") []]))
    (Some (PBlock None [PBlock (Some "Ours") []; PBlock (Some "Theirs") []])).
Proof.
  pose proof (itemconfig_add_over_merges
                (ex_item_config "VER_DEFAULT" "CLEAN" "Ours")
                (ex_item_config "VER_DEFAULT" "CLEAN" "Theirs")
                {| ItemConfig.id := "ITEM";
                   ItemConfig.versions :=
                     [("VER_DEFAULT",
                       [("CLEAN", PBlock None [PBlock (Some "Ours") [];
                                               PBlock (Some "Theirs") []])])];
                   ItemConfig.all_conf := PBlock None [] |}) as H.
  apply H with (v := "VER_DEFAULT") (s := "CLEAN").
  - split.
    + apply NoDup_singleton.
    + intros v styles [[= -> ->]|Hin%elem_of_nil]%elem_of_cons; [|done].
      apply NoDup_singleton.
  - reflexivity.
Defined.

(** ** Voice lines *)

Lemma Property_tree_ind (P : Property → Prop) :
  (∀ n v, P (PLeaf n v)) →
  (∀ n l, Forall P l → P (PBlock n l)) →
  ∀ p, P p.
Proof.
  intros Hleaf Hblock. fix IH 1. intros [n v|n l]; [apply Hleaf|].
  apply Hblock. induction l as [|c l IHl]; constructor; [apply IH|exact IHl].
Qed.

Lemma strip_block n cs d :
  QuotePack.strip_quote_data (PBlock n cs) d
    = PBlock n (map (stripped_child d)
                  (filter (λ c, dropped d (p_contains (PBlock n cs) "id") c = false) cs)).
Proof.
  cbn [QuotePack.strip_quote_data]. f_equal.
  generalize (p_contains (PBlock n cs) "id"). intros has_id.
  induction cs as [|c cs IH]; [done|].
  destruct ((d =? 3)%nat
            && (name_is "trans" c || name_is "name" c && has_id)) eqn:EA.
  - rewrite filter_cons_False by (unfold dropped; by rewrite EA). exact IH.
  - destruct ((d =? 2)%nat && name_is "name" c) eqn:EB.
    + rewrite filter_cons_False
        by (unfold dropped; rewrite EA, EB; done).
      exact IH.
    + rewrite filter_cons_True by (unfold dropped; by rewrite EA, EB).
      cbn [map]. by rewrite <- IH.
Qed.

Lemma stripped_child_name d c : p_real_name (stripped_child d c) = p_real_name c.
Proof. by destruct c as [n v|n [|x l]]. Qed.

Lemma name_is_stripped k d c : name_is k (stripped_child d c) = name_is k c.
Proof. unfold name_is, p_name. by rewrite stripped_child_name. Qed.

Lemma dropped_stripped d b d' c : dropped d b (stripped_child d' c) = dropped d b c.
Proof. unfold dropped. by rewrite !name_is_stripped. Qed.

Lemma dropped_id d b c : name_is "id" c = true → dropped d b c = false.
Proof.
  intros H. unfold dropped.
  rewrite (name_is_other "id" "trans" c), (name_is_other "id" "name" c) by done.
  by rewrite !andb_false_r.
Qed.

Lemma existsb_id_kept d b cs :
  existsb (name_is "id")
    (map (stripped_child d) (filter (λ c, dropped d b c = false) cs))
  = existsb (name_is "id") cs.
Proof.
  induction cs as [|c cs IH]; [done|]. cbn [existsb].
  destruct (name_is "id" c) eqn:E.
  - rewrite filter_cons_True by by apply dropped_id.
    cbn [map existsb]. by rewrite name_is_stripped, E.
  - destruct (dropped d b c) eqn:Ed.
    + rewrite filter_cons_False by by rewrite Ed. exact IH.
    + rewrite filter_cons_True by done.
      cbn [map existsb]. rewrite name_is_stripped, E. exact IH.
Qed.

Lemma strip_keeps_id n cs d :
  p_contains (QuotePack.strip_quote_data (PBlock n cs) d) "id"
    = p_contains (PBlock n cs) "id".
Proof.
  rewrite strip_block. unfold p_contains. cbn [p_children].
  apply existsb_id_kept.
Qed.

Lemma filter_map_kept {A} (P : A → Prop) `{∀ x, Decision (P x)} (f : A → A) l :
  (∀ x, P (f x) ↔ P x) → filter P (map f (filter P l)) = map f (filter P l).
Proof.
  intros Hf. induction l as [|x l IH]; [done|].
  destruct (decide (P x)).
  - rewrite filter_cons_True by done. cbn [map].
    rewrite filter_cons_True by by apply Hf. by rewrite IH.
  - by rewrite filter_cons_False.
Qed.

(** X9: stripping is idempotent: the copy of a block, stripped again at
    the same depth, is the copy. *)
Theorem strip_quote_data_idempotent (prop : Property) (depth : nat) :
  has_children prop = true →
  QuotePack.strip_quote_data (QuotePack.strip_quote_data prop depth) depth
    = QuotePack.strip_quote_data prop depth.
Proof.
  revert depth. induction prop as [n v|n cs IH] using Property_tree_ind;
    intros d Hc; [done|clear Hc].
  rewrite (strip_block n cs d), strip_block. f_equal.
  replace (p_contains (PBlock n (map _ _)) "id")
    with (p_contains (PBlock n cs) "id")
    by (symmetry; apply existsb_id_kept).
  rewrite filter_map_kept by (intros x; by rewrite dropped_stripped).
  rewrite map_map. apply map_ext_Forall.
  apply Forall_forall. intros c [_ Hc]%list_elem_of_filter.
  rewrite Forall_forall in IH.
  destruct c as [cn cv|cn ccs]; [done|].
  cbn [stripped_child].
  rewrite (strip_block cn ccs (S d)) at 1. cbn [stripped_child].
  rewrite <- strip_block. by apply IH.
Qed.

Lemma strip_quote_data_idempotent_witness :
  QuotePack.strip_quote_data (QuotePack.strip_quote_data ex_quotes 0) 0
    = QuotePack.strip_quote_data ex_quotes 0.
Proof. apply (strip_quote_data_idempotent ex_quotes 0). reflexivity. Defined.

Lemma level_leaf k n v : level (S k) (PLeaf n v) = [].
Proof. reflexivity. Qed.

(** Below a copy made at depth [d], the nodes that the loop at depth
    [d + k] has let through are not dropped by it. *)
Lemma strip_level (bad : Property → bool) (at_depth : nat) :
  (∀ b c, bad c = true → dropped at_depth b c = true) →
  (∀ d c, bad (stripped_child d c) = bad c) →
  ∀ k d n cs, d + k = at_depth →
    Forall (λ c, bad c = false)
      (level (S k) (QuotePack.strip_quote_data (PBlock n cs) d)).
Proof.
  intros Hbad Hname. induction k as [|k IH]; intros d n cs Hd.
  - rewrite strip_block. cbn [level p_children flat_map].
    rewrite Nat.add_0_r in Hd. subst d.
    generalize (p_contains (PBlock n cs) "id"). intros b.
    induction cs as [|c cs IHcs]; [constructor|].
    destruct (dropped at_depth b c) eqn:E.
    + rewrite filter_cons_False by by rewrite E. exact IHcs.
    + rewrite filter_cons_True by done. cbn [map flat_map app].
      constructor; [|exact IHcs]. rewrite Hname.
      destruct (bad c) eqn:Eb; [|done]. by rewrite (Hbad _ _ Eb) in E.
  - rewrite strip_block. cbn [level p_children].
    apply Forall_flat_map, Forall_forall.
    intros x (c & -> & _)%list_elem_of_fmap.
    destruct c as [cn cv|cn ccs]; [by constructor|].
    cbn [stripped_child]. apply IH. lia.
Qed.

Lemma strip_untouched p d :
  has_children p = true →
  (∀ k, Forall (λ c, name_is "trans" c = false ∧ name_is "name" c = false)
          (level (S k) p)) →
  QuotePack.strip_quote_data p d = p.
Proof.
  revert d. induction p as [|n cs IH] using Property_tree_ind;
    intros d Hc Hall; [done|clear Hc].
  rewrite strip_block. f_equal.
  generalize (p_contains (PBlock n cs) "id"). intros b.
  pose proof (Hall 0) as H1. cbn [level p_children flat_map] in H1.
  assert (Forall (λ c, ∀ k, Forall (λ c, name_is "trans" c = false
                                        ∧ name_is "name" c = false)
                              (level (S k) c)) cs) as Hdeep.
  { apply Forall_forall. intros c Hc k. specialize (Hall (S k)).
    cbn [level p_children] in Hall. rewrite Forall_flat_map in Hall.
    rewrite Forall_forall in Hall. by apply Hall. }
  clear Hall. induction cs as [|c cs IHcs]; [done|].
  apply Forall_cons in IH as [IHc IH]. apply Forall_cons in Hdeep as [Hc Hdeep].
  cbn [flat_map] in H1. apply Forall_app in H1 as [Hc1 H1].
  apply Forall_cons in Hc1 as [[Ht Hn] _].
  rewrite filter_cons_True by (unfold dropped; by rewrite Ht, Hn, !andb_false_r).
  cbn [map]. f_equal.
  - destruct c as [|cn ccs]; [done|]. cbn [stripped_child]. by apply IHc.
  - by apply IHcs.
Qed.

(** X10: in the copy made for the export (depth 0) no node four levels
    down, a child of a [Line] block, is named [trans], and no node three
    levels down, a child of a quote block, is named [name]; and a block
    with no node named [trans] or [name] below it is copied as it is,
    at whatever depth. *)
Theorem strip_quote_data_lines (prop : Property) :
  has_children prop = true →
  Forall (λ c, name_is "trans" c = false)
    (level 4 (QuotePack.strip_quote_data prop 0)) ∧
  Forall (λ c, name_is "name" c = false)
    (level 3 (QuotePack.strip_quote_data prop 0)) ∧
  ((∀ k, Forall (λ c, name_is "trans" c = false ∧ name_is "name" c = false)
           (level (S k) prop)) →
   ∀ depth, QuotePack.strip_quote_data prop depth = prop).
Proof.
  intros Hc. destruct prop as [|n cs]; [done|]. split_and!.
  - apply (strip_level (name_is "trans") 3); [| |done].
    + intros b c H. unfold dropped. by rewrite H.
    + intros d c. apply name_is_stripped.
  - apply (strip_level (name_is "name") 2); [| |done].
    + intros b c H. unfold dropped. by rewrite H.
    + intros d c. apply name_is_stripped.
  - intros Hall depth. by apply strip_untouched.
Qed.

Lemma strip_quote_data_lines_witness :
  QuotePack.strip_quote_data ex_quotes 0
    = PBlock (Some "Quotes")
        [PBlock (Some "Group")
           [PLeaf (Some "Name") "Chamber";
            PBlock (Some "Quote")
              [PBlock (Some "Line")
                 [PLeaf (Some "ID") "hello";
                  PLeaf (Some "Snd") "vo/hello.wav"]]]] ∧
  Forall (λ c, name_is "trans" c = false)
    (level 4 (QuotePack.strip_quote_data ex_quotes 0)).
Proof.
  split; [reflexivity|].
  apply (strip_quote_data_lines ex_quotes). reflexivity.
Defined.

(** ** Loops over the matches of a path *)

Section VisitFind.
Context {S : Type}.
Variable body : S → Property → result (S * Property).

Lemma visit_all_shape keys st p st' p' :
  visit_all body keys st p = Ok (st', p') →
  keys ≠ [] ∨ p' = p.
Proof. destruct keys; [intros [= _ <-]; by right|by left]. Qed.

Lemma visit_all_name k ks st p st' p' :
  visit_all body (k :: ks) st p = Ok (st', p') →
  p_real_name p' = p_real_name p ∧ has_children p' = has_children p.
Proof.
  destruct p as [n v|n l]; cbn [visit_all]; [by intros [= _ <-]|].
  destruct (visit_children _ _ _ _) as [[s1 l']|]; [|done].
  by intros [= _ <-].
Qed.

Hypothesis body_name :
  ∀ st c st' c', body st c = Ok (st', c') → p_real_name c' = p_real_name c.

Lemma name_is_real k c c' : p_real_name c' = p_real_name c → name_is k c' = name_is k c.
Proof. unfold name_is, p_name. by intros ->. Qed.

Lemma visit_all_find_all keys st p st' p' :
  visit_all body keys st p = Ok (st', p') →
  Forall2 (λ c c', ∃ s1 s2, body s1 c = Ok (s2, c'))
    (find_all keys p) (find_all keys p').
Proof.
  revert st p st' p'. induction keys as [|k ks IH]; intros st p st' p';
    [by intros [= _ <-]|].
  destruct p as [n v|n l]; cbn [visit_all];
    [intros [= _ <-]; destruct ks; constructor|].
  destruct (visit_children _ _ _ _) as [[s1 l']|] eqn:E; [|done].
  intros [= <- <-]. revert st s1 l' E.
  destruct ks as [|k2 ks].
  - cbn [find_all p_children].
    induction l as [|c l IHl]; intros st s1 l'; cbn [visit_children].
    + intros [= <- <-]. constructor.
    + destruct (name_is k c) eqn:Ek.
      * destruct (body st c) as [[s2 c']|] eqn:Eb; [|done].
        cbn [mbind result_bind].
        destruct (visit_children _ _ _ l) as [[s3 r']|] eqn:Er; [|done].
        intros [= <- <-].
        rewrite filter_cons_True by done.
        rewrite filter_cons_True
          by (by rewrite (name_is_real _ _ _ (body_name _ _ _ _ Eb))).
        constructor; eauto.
      * cbn [mbind result_bind].
        destruct (visit_children _ _ _ l) as [[s3 r']|] eqn:Er; [|done].
        intros [= <- <-]. rewrite !filter_cons_False by by rewrite Ek.
        eauto.
  - change (find_all (k :: k2 :: ks) (PBlock n ?x))
      with (flat_map (λ c, if name_is k c && has_children c
                           then find_all (k2 :: ks) c else []) x).
    induction l as [|c l IHl]; intros st s1 l'; cbn [visit_children].
    + intros [= <- <-]. constructor.
    + destruct (name_is k c) eqn:Ek.
      * destruct (has_children c) eqn:Ec.
        -- destruct (visit_all body (k2 :: ks) st c) as [[s2 c']|] eqn:Eb; [|done].
           cbn [mbind result_bind].
           destruct (visit_children _ _ _ l) as [[s3 r']|] eqn:Er; [|done].
           intros [= <- <-]. cbn [flat_map].
           destruct (visit_all_name _ _ _ _ _ _ Eb) as [Hn Hc].
           rewrite (name_is_real _ _ _ Hn), Hc, Ek, Ec. cbn [andb].
           apply Forall2_app; eauto.
        -- cbn [mbind result_bind].
           destruct (visit_children _ _ _ l) as [[s3 r']|] eqn:Er; [|done].
           intros [= <- <-]. cbn [flat_map]. rewrite Ek, Ec. cbn. eauto.
      * cbn [mbind result_bind].
        destruct (visit_children _ _ _ l) as [[s3 r']|] eqn:Er; [|done].
        intros [= <- <-]. cbn [flat_map]. rewrite Ek. cbn. eauto.
Qed.
End VisitFind.

Lemma visit_all_last {S} (body : S → Property → result (S * Property))
    k st n l :
  visit_all body [k] st (PBlock n l)
    = '(st', l') ← visit_children k body st l; Ok (st', PBlock n l').
Proof. reflexivity. Qed.

Lemma visit_all_deep {S} (body : S → Property → result (S * Property))
    k k2 ks st n l :
  visit_all body (k :: k2 :: ks) st (PBlock n l)
    = '(st', l') ← visit_children k
                     (λ st c, if has_children c
                              then visit_all body (k2 :: ks) st c
                              else Ok (st, c)) st l;
      Ok (st', PBlock n l').
Proof. reflexivity. Qed.

(** The children that a path of two or more names does not enter stay
    as they are, and every child keeps its name. *)
Lemma visit_all_other {S} (body : S → Property → result (S * Property))
    k k2 ks st n l st' p' :
  visit_all body (k :: k2 :: ks) st (PBlock n l) = Ok (st', p') →
  ∃ l', p' = PBlock n l' ∧
    Forall2 (λ c c', p_real_name c' = p_real_name c ∧
                     (name_is k c = false → c' = c)) l l'.
Proof.
  rewrite visit_all_deep.
  destruct (visit_children _ _ _ _) as [[s1 l']|] eqn:E; [|done].
  intros [= <- <-]. exists l'. split; [done|].
  revert st s1 l' E. induction l as [|c l IHl]; intros st s1 l';
    cbn [visit_children].
  - intros [= <- <-]. constructor.
  - destruct (name_is k c) eqn:Ek.
    + destruct (has_children c) eqn:Ec.
      * destruct (visit_all body (k2 :: ks) st c) as [[s2 c']|] eqn:Eb; [|done].
        cbn [mbind result_bind].
        destruct (visit_children _ _ _ l) as [[s3 r']|] eqn:Er; [|done].
        intros [= <- <-]. constructor; [|eauto].
        split; [|congruence]. by destruct (visit_all_name _ _ _ _ _ _ _ Eb).
      * cbn [mbind result_bind].
        destruct (visit_children _ _ _ l) as [[s3 r']|] eqn:Er; [|done].
        intros [= <- <-]. constructor; eauto.
    + cbn [mbind result_bind].
      destruct (visit_children _ _ _ l) as [[s3 r']|] eqn:Er; [|done].
      intros [= <- <-]. constructor; eauto.
Qed.

(** Loops without state. *)
Section VisitEach.
Variable f : Property → result Property.
Hypothesis f_name : ∀ c c', f c = Ok c' → p_real_name c' = p_real_name c.

Lemma visit_each_find_all keys p p' :
  visit_each f keys p = Ok p' →
  Forall2 (λ c c', f c = Ok c') (find_all keys p) (find_all keys p').
Proof.
  unfold visit_each.
  destruct (visit_all _ keys tt p) as [[[] q]|] eqn:E; [|done].
  intros [= <-]. apply visit_all_find_all in E.
  - eapply Forall2_impl; [exact E|]. intros c c' (s1 & s2 & H).
    destruct (f c) as [x|]; cbn in H; [|done]. by injection H as _ <-.
  - intros st c st' c' H. destruct (f c) as [x|] eqn:Ef; cbn in H; [|done].
    injection H as _ <-. by apply f_name.
Qed.

(** A second loop whose body [g] does not see what [f] did gives what
    it gives on the tree as it was. *)
Variable g : Property → result Property.
Hypothesis g_after_f : ∀ c c', f c = Ok c' → g c' = g c.

Lemma visit_each_after keys p p' :
  visit_each f keys p = Ok p' → visit_each g keys p' = visit_each g keys p.
Proof.
  unfold visit_each.
  destruct (visit_all _ keys tt p) as [[[] q]|] eqn:E; [|done].
  intros [= <-].
  enough (visit_all (λ (_ : unit) c, c' ← g c; Ok (tt, c')) keys tt q
          = visit_all (λ (_ : unit) c, c' ← g c; Ok (tt, c')) keys tt p)
    as -> by done.
  revert p q E. induction keys as [|k ks IH]; intros p q;
    [by intros [= <-]|].
  destruct p as [n v|n l]; [by intros [= <-]|].
  destruct ks as [|k2 ks].
  - rewrite !visit_all_last.
    destruct (visit_children _ _ _ _) as [[[] l']|] eqn:E; [|done].
    intros [= <-]. rewrite visit_all_last. f_equal.
    revert l' E. induction l as [|c l IHl]; intros l'; cbn [visit_children].
    { by intros [= <-]. }
    destruct (name_is k c) eqn:Ek.
    + destruct (f c) as [c1|] eqn:Ef; [|done]. cbn [mbind result_bind].
      destruct (visit_children _ _ _ l) as [[[] r']|] eqn:Er; [|done].
      intros [= <-]. cbn [visit_children].
      rewrite (name_is_real _ _ _ (f_name _ _ Ef)), Ek.
      rewrite (g_after_f _ _ Ef). destruct (g c) as [c2|]; [|done].
      cbn [mbind result_bind]. by rewrite (IHl _ eq_refl).
    + cbn [mbind result_bind].
      destruct (visit_children _ _ _ l) as [[[] r']|] eqn:Er; [|done].
      intros [= <-]. cbn [visit_children]. rewrite Ek.
      cbn [mbind result_bind]. by rewrite (IHl _ eq_refl).
  - rewrite !visit_all_deep.
    destruct (visit_children _ _ _ _) as [[[] l']|] eqn:E; [|done].
    intros [= <-]. rewrite visit_all_deep. f_equal.
    revert l' E. induction l as [|c l IHl]; intros l'; cbn [visit_children].
    { by intros [= <-]. }
    destruct (name_is k c) eqn:Ek.
    + destruct (has_children c) eqn:Ec.
      * destruct (visit_all _ (k2 :: ks) tt c) as [[[] c1]|] eqn:Ef; [|done].
        cbn [mbind result_bind].
        destruct (visit_children _ _ _ l) as [[[] r']|] eqn:Er; [|done].
        intros [= <-]. cbn [visit_children].
        destruct (visit_all_name _ _ _ _ _ _ _ Ef) as [Hn Hc].
        rewrite (name_is_real _ _ _ Hn), Ek, Hc, Ec.
        rewrite (IH _ _ Ef). clear Ef.
        destruct (visit_all _ (k2 :: ks) tt c) as [[[] c2]|]; [|done].
        cbn [mbind result_bind]. by rewrite (IHl _ eq_refl).
      * cbn [mbind result_bind].
        destruct (visit_children _ _ _ l) as [[[] r']|] eqn:Er; [|done].
        intros [= <-]. cbn [visit_children]. rewrite Ek, Ec.
        cbn [mbind result_bind]. by rewrite (IHl _ eq_refl).
    + cbn [mbind result_bind].
      destruct (visit_children _ _ _ l) as [[[] r']|] eqn:Er; [|done].
      intros [= <-]. cbn [visit_children]. rewrite Ek.
      cbn [mbind result_bind]. by rewrite (IHl _ eq_refl).
Qed.
End VisitEach.

(** ** Sources of conditions *)

Lemma set_item_name p k v p' : set_item p k v = Ok p' → p_real_name p' = p_real_name p.
Proof.
  destruct p as [|n l]; [done|]. unfold set_item.
  by destruct (last_index _ _); intros [= <-].
Qed.

Lemma last_index_snoc {A} (f : A → bool) l x :
  f x = true → last_index f (l ++ [x]) = Some (length l).
Proof.
  intros Hx. induction l as [|a l IH]; cbn [app last_index length].
  - by rewrite Hx.
  - by rewrite IH.
Qed.

Lemma alter_alter {A} (g1 g2 : A → A) i (l : list A) :
  alter g2 i (alter g1 i l) = alter (g2 ∘ g1) i l.
Proof.
  revert i. induction l as [|a l IH]; intros [|i]; cbn; [done..|].
  f_equal. apply IH.
Qed.

Lemma alter_snoc {A} (g : A → A) (l : list A) x :
  alter g (length l) (l ++ [x]) = l ++ [g x].
Proof. induction l as [|a l IH]; cbn; [done|]. f_equal. apply IH. Qed.

(** Setting a key again replaces what the first assignment left. *)
Lemma set_item_again p k v1 v2 p1 :
  set_item p k v1 = Ok p1 → set_item p1 k v2 = set_item p k v2.
Proof.
  destruct p as [|n l]; [done|]. unfold set_item.
  destruct (last_index (name_is k) l) as [i|] eqn:Ei; intros [= <-].
  - rewrite last_index_alter, Ei by (intros x; by apply name_is_mk_prop).
    rewrite alter_alter. do 2 f_equal. apply list_alter_ext; [|done..].
    intros x _. cbn. by destruct v1, x.
  - rewrite last_index_snoc by apply name_is_self.
    rewrite alter_snoc. by destruct v1.
Qed.

(** X11: after [set_cond_source] every [Condition] block of a
    [Conditions] block carries the source in its [__src__] key, and
    there are as many such blocks as before. *)
Theorem set_cond_source_marks (props props' : Property) (source : string) :
  set_cond_source props source = Ok props' →
  Forall (λ cond, get_value cond "__src__" None = Some (VStr source))
    (find_all ["Conditions"; "Condition"] props') ∧
  length (find_all ["Conditions"; "Condition"] props')
    = length (find_all ["Conditions"; "Condition"] props).
Proof.
  intros H. apply visit_each_find_all in H.
  2:{ intros c c'. apply set_item_name. }
  split; [|symmetry; by eapply Forall2_length].
  apply Forall_forall. intros c' Hc'.
  apply list_elem_of_lookup in Hc' as [i Hi].
  destruct (Forall2_lookup_r _ _ _ _ _ H Hi) as (c & _ & Hset).
  by eapply get_value_set_item.
Qed.

Lemma set_cond_source_marks_witness :
  Forall (λ cond, get_value cond "__src__" None = Some (VStr "Style <CLEAN>"))
    (find_all ["Conditions"; "Condition"]
       (PBlock None
          [PBlock (Some "Conditions")
             [PBlock (Some "Condition")
                [PLeaf (Some "instance") "a.vmf";
                 PLeaf (Some "__src__") "Style <CLEAN>"];
              PBlock (Some "Condition")
                [PLeaf (Some "__src__") "Style <CLEAN>";
                 PLeaf (Some "instance") "b.vmf"]];
           PBlock (Some "Options") []])).
Proof.
  apply (set_cond_source_marks ex_conditions _ "Style <CLEAN>"). reflexivity.
Defined.

(** X12: the source set last is the one that stays: marking a tree that
    was marked before gives what marking the tree as it was gives, so
    that marking twice with one source changes nothing the second
    time. *)
Theorem set_cond_source_again (props marked : Property) (first second : string) :
  set_cond_source props first = Ok marked →
  set_cond_source marked second = set_cond_source props second ∧
  set_cond_source marked first = Ok marked.
Proof.
  intros H.
  assert (∀ s, set_cond_source marked s = set_cond_source props s) as Hs.
  { intros s. revert H. apply visit_each_after.
    - intros c c'. apply set_item_name.
    - intros c c'. apply set_item_again. }
  split; [apply Hs|]. by rewrite Hs.
Qed.

Lemma set_cond_source_again_witness :
  ∃ marked,
    set_cond_source ex_conditions "<Item A>" = Ok marked ∧
    set_cond_source marked "<Item B>" = set_cond_source ex_conditions "<Item B>" ∧
    set_cond_source marked "<Item A>" = Ok marked.
Proof.
  eexists. split; [reflexivity|].
  apply (set_cond_source_again ex_conditions _ "<Item A>" "<Item B>").
  reflexivity.
Defined.

(** ** Configuration files *)

Lemma length_append (a b : string) :
  String.length (a +:+ b) = String.length a + String.length b.
Proof.
  induction a as [|c a IH]; [done|]. rewrite append_cons. simpl. by rewrite IH.
Qed.

Lemma get_in_range n (s : string) : n < String.length s → is_Some (String.get n s).
Proof.
  revert n. induction s as [|c s IH]; intros n; simpl; [lia|].
  destruct n as [|n]; [eauto|]. intros H. apply IH. lia.
Qed.

Lemma config_path_defined (folder value extension : string) :
  3 ≤ String.length folder → is_ok (config_path folder value extension) = true.
Proof.
  unfold config_path. set (base := folder +:+ "/" +:+ value). intros Hf.
  assert (4 ≤ String.length base) as Hlen.
  { unfold base. rewrite !length_append. simpl. lia. }
  destruct (String.length base <? 3)%nat eqn:E3; [done|].
  destruct (String.length base <? 4)%nat eqn:E4;
    [apply Nat.ltb_lt in E4; lia|].
  destruct (get_in_range (String.length base - 4) base) as [c ->]; [lia|].
  by destruct (bool_decide (c = "."%char)).
Qed.





(** ** Data shown in the selector windows *)

Lemma py_or_assoc x y z : py_or x (py_or y z) = py_or (py_or x y) z.
Proof. unfold py_or. destruct (truthy x) eqn:Ex; cbn; by rewrite ?Ex. Qed.

(** X15: joining is associative when joining descriptions is: merging
    two overrides one after the other into an object gives what merging
    their join gives. *)
Theorem join_selitem_data_assoc
    (md_join : MarkdownData → MarkdownData → MarkdownData)
    (a b c : SelitemData) :
  (∀ x y z, md_join (md_join x y) z = md_join x (md_join y z)) →
  join_selitem_data md_join (join_selitem_data md_join a b) c
    = join_selitem_data md_join a (join_selitem_data md_join b c).
Proof.
  intros Hassoc. unfold join_selitem_data. cbn. f_equal.
  - by rewrite app_assoc.
  - by destruct (sel_icon a).
  - by destruct (sel_large_icon a).
  - apply Hassoc.
  - apply py_or_assoc.
  - apply py_or_assoc.
Qed.

Lemma join_selitem_data_assoc_witness :
  join_selitem_data ex_md_join
    (join_selitem_data ex_md_join (ex_selitem "Clean" None EmptyString)
       (ex_selitem "Over" (Some (VStr "over.png")) "Group"))
    (ex_selitem "Last" (Some (VStr "last.png")) EmptyString)
  = join_selitem_data ex_md_join (ex_selitem "Clean" None EmptyString)
      (join_selitem_data ex_md_join
         (ex_selitem "Over" (Some (VStr "over.png")) "Group")
         (ex_selitem "Last" (Some (VStr "last.png")) EmptyString)).
Proof.
  apply (join_selitem_data_assoc ex_md_join).
  intros [x] [y] [z]. unfold ex_md_join.
  by rewrite !append_assoc.
Defined.

(** ** What the registry holds *)

Lemma queue_override_kept ty id data l reg comp_type obj_id pd reg' :
  kept ty id data l reg →
  queue_override reg comp_type obj_id pd = Ok reg' →
  kept ty id data l reg'.
Proof.
  intros [Hreg [more Hq]]. unfold queue_override, dict_item.
  destruct (dict_get (obj_override reg) comp_type) as [over|] eqn:Eo; [|done].
  intros [= <-]. split; [done|]. unfold queued in *. cbn.
  rewrite dict_get_set. destruct (str_eqb comp_type ty) eqn:Et.
  - apply str_eqb_eq in Et as ->. rewrite Eo in Hq. cbn in *.
    rewrite dict_get_set. destruct (str_eqb obj_id id) eqn:Ei.
    + apply str_eqb_eq in Ei as ->. cbn. rewrite Hq.
      exists (more ++ [pd]). by rewrite app_assoc.
    + by exists more.
  - by exists more.
Qed.

Lemma declare_object_kept ty id data l pack comp_type allow reg obj reg' :
  kept ty id data l reg →
  declare_object pack comp_type allow reg obj = Ok reg' →
  kept ty id data l reg'.
Proof.
  intros Hk. unfold declare_object, dict_item.
  destruct (object_id obj) as [obj_id|]; [|done]. cbn [mbind result_bind].
  destruct (dict_get (all_obj reg) comp_type) as [objs|] eqn:Eo; [|done].
  cbn [mbind result_bind].
  destruct (dict_mem objs obj_id) eqn:Em.
  - destruct allow; [|done]. by apply queue_override_kept.
  - intros [= <-]. destruct Hk as [Hreg Hq]. split; [|done].
    intros d ->. specialize (Hreg d eq_refl). unfold registered in *. cbn.
    rewrite dict_get_set. destruct (str_eqb comp_type ty) eqn:Et; [|done].
    apply str_eqb_eq in Et as ->. rewrite Eo in Hreg. cbn in *.
    rewrite dict_get_set. destruct (str_eqb obj_id id) eqn:Ei; [|done].
    apply str_eqb_eq in Ei as ->. unfold dict_mem in Em. by rewrite Hreg in Em.
Qed.

Lemma declare_type_kept ty id data l pack reg entry reg' :
  kept ty id data l reg →
  declare_type pack reg entry = Ok reg' →
  kept ty id data l reg'.
Proof.
  intros Hk. destruct entry as [comp_type t]. unfold declare_type.
  destruct (for_each (declare_override pack comp_type) reg _) as [reg1|] eqn:E1;
    [|done].
  cbn [mbind result_bind]. intros E2.
  eapply (for_each_invariant (kept ty id data l)); [| |exact E2].
  - intros a x a' _ Ha. by apply declare_object_kept.
  - eapply (for_each_invariant (kept ty id data l)); [|exact Hk|exact E1].
    intros a x a' _ Ha. unfold declare_override.
    destruct (object_id x) as [obj_id|]; [|done]. cbn [mbind result_bind].
    by apply queue_override_kept.
Qed.

(** X16: [parse_package] never replaces or removes what is registered:
    a declaration registered for an identifier stays the one registered
    for it, and the overrides queued for an identifier stay queued, in
    their order, before any that the package adds. *)
Theorem parse_package_keeps (OBJ_TYPES : dict ObjType) (packages : list string)
    (has_tag has_mel : bool) (log log' : list string) (reg reg' : Registry)
    (pack : Package) (comp_type obj_id : string) :
  parse_package OBJ_TYPES packages has_tag has_mel log reg pack
    = Ok (log', reg') →
  (∀ data, registered reg comp_type obj_id = Some data →
           registered reg' comp_type obj_id = Some data) ∧
  ∃ more, queued reg' comp_type obj_id = queued reg comp_type obj_id ++ more.
Proof.
  unfold parse_package.
  assert (kept comp_type obj_id (registered reg comp_type obj_id)
            (queued reg comp_type obj_id) reg) as Hk.
  { split; [by intros d ->|]. exists []. by rewrite app_nil_r. }
  destruct (prerequisites_met _ _ _ _ _ _) as [[log1 []]|]; [| |done].
  - destruct (for_each _ reg OBJ_TYPES) as [reg1|] eqn:E; [|done].
    cbn [mbind result_bind]. intros [= _ <-].
    eapply (for_each_invariant _) in E; [|clear E|exact Hk].
    + destruct E as [H1 H2]. split; [|done]. intros data Hd. apply H1.
      by rewrite Hd.
    + intros a x a' _ Ha. by apply declare_type_kept.
  - intros [= _ <-]. split; [done|]. exists []. by rewrite app_nil_r.
Qed.

Lemma parse_package_keeps_witness :
  ∃ reg',
    parse_package ex_obj_types ["PAK_ONE"; "PAK_TWO"] false false [] ex_registry
      (ex_package "ITEM_B") = Ok ([], reg') ∧
    registered reg' "Item" "ITEM_A"
      = Some (mkObjData "one.zip" (ex_decl "ITEM_A") "PAK_ONE" "One") ∧
    registered reg' "Item" "ITEM_B"
      = Some (mkObjData "two.zip" (ex_decl "ITEM_B") "PAK_TWO" "Two").
Proof.
  eexists. split; [vm_compute; reflexivity|]. split; [|reflexivity].
  eapply (parse_package_keeps ex_obj_types ["PAK_ONE"; "PAK_TWO"] false false
            [] [] ex_registry _ (ex_package "ITEM_B") "Item" "ITEM_A");
    reflexivity.
Defined.

Lemma prerequisites_unmet packages has_tag has_mel pack log pre bad post v :
  Forall (λ p, ∃ s, p_value p = VStr s ∧ ¬ unmet packages has_tag has_mel s) pre →
  p_value bad = VStr v → unmet packages has_tag has_mel v →
  prerequisites_met packages has_tag has_mel (pak_id pack) log
    (pre ++ bad :: post) = Ok (log ++ unmet_warning pack v, false).
Proof.
  intros Hpre Hbad Hv. unfold unmet_warning.
  induction Hpre as [|p pre (s & Hs & Hmet) _ IH]; cbn [app prerequisites_met].
  - rewrite Hbad. destruct Hv as [[-> ->]|[[-> ->]|(H1 & H2 & H3)]].
    + rewrite (bool_decide_eq_true_2 (_ ∨ _)) by (by left).
      by rewrite app_nil_r.
    + rewrite (bool_decide_eq_true_2 (_ ∨ _)) by (by right).
      by rewrite app_nil_r.
    + rewrite !bool_decide_eq_false_2; [done|tauto|done..].
  - rewrite Hs. unfold unmet in Hmet.
    repeat case_bool_decide; repeat case_match; subst; try done;
      exfalso; apply Hmet; tauto.
Qed.

(** X17: a package with a prerequisite that is not met is passed over
    without an error: when the entries of its [Prerequisites] block
    before the first one that is not met are plain values,
    [parse_package] leaves the registry as it was; it logs the warning
    [Package "<id>" required for "<package>" - ignoring package!] for a
    package that is missing, and nothing for music that was not
    copied. *)
Theorem parse_package_unmet (OBJ_TYPES : dict ObjType) (packages : list string)
    (has_tag has_mel : bool) (log : list string) (reg : Registry)
    (pack : Package) (block : Property) (pre post : list Property)
    (bad : Property) (v : string) :
  find_key (pak_info pack) "Prerequisites" = Some block →
  p_children block = pre ++ bad :: post →
  Forall (λ p, ∃ s, p_value p = VStr s ∧ ¬ unmet packages has_tag has_mel s) pre →
  p_value bad = VStr v →
  unmet packages has_tag has_mel v →
  parse_package OBJ_TYPES packages has_tag has_mel log reg pack
    = Ok (log ++ unmet_warning pack v, reg).
Proof.
  intros Hb Hc Hpre Hbad Hv. unfold parse_package. rewrite Hb, Hc.
  by rewrite (prerequisites_unmet _ _ _ pack log _ _ _ _ Hpre Hbad Hv).
Qed.

Lemma parse_package_unmet_witness :
  parse_package ex_obj_types ["PAK_ONE"; "PAK_NEEDY"] false false []
    ex_registry ex_needy_package
  = Ok ([ignoring_msg "PAK_MISSING" "PAK_NEEDY"], ex_registry).
Proof.
  apply (parse_package_unmet ex_obj_types ["PAK_ONE"; "PAK_NEEDY"] false false
           [] ex_registry ex_needy_package
           (PBlock (Some "Prerequisites") [PLeaf (Some "Package") "PAK_MISSING"])
           [] [] (PLeaf (Some "Package") "PAK_MISSING") "PAK_MISSING");
    [reflexivity|reflexivity|constructor|reflexivity|].
  right. right. split_and!; [discriminate|discriminate|].
  intros H. by repeat (apply elem_of_cons in H as [?|H]; [discriminate|]);
    apply elem_of_nil in H.
Defined.

(** ** The export of an item *)

Lemma mapM_result_Forall2 {A B} (f : A → result B) l l' :
  mapM f l = Ok l' → Forall2 (λ c c', f c = Ok c') l l'.
Proof.
  revert l'. induction l as [|x l IH]; intros l'; cbn [mapM].
  - intros [= <-]. constructor.
  - destruct (f x) as [y|] eqn:E; [|done]. cbn [mbind result_bind].
    destruct (mapM f l) as [r|]; [|done]. cbn. intros [= <-].
    constructor; auto.
Qed.

Lemma Forall2_same {A} (l l' : list A) : Forall2 (λ c c', c' = c) l l' → l' = l.
Proof. induction 1; [done|]. by subst. Qed.

Lemma visit_children_same {S} k (deeper : S → Property → result (S * Property))
    st l st' l' :
  (∀ s1 c s2 c', deeper s1 c = Ok (s2, c') → c' = c) →
  visit_children k deeper st l = Ok (st', l') → l' = l.
Proof.
  intros Hd. revert st st' l'. induction l as [|c l IH]; intros st st' l';
    cbn [visit_children]; [by intros [= _ <-]|].
  destruct (if name_is k c then deeper st c else Ok (st, c))
    as [[s1 c1]|] eqn:E; [|done].
  cbn [mbind result_bind].
  destruct (visit_children k deeper s1 l) as [[s2 r]|] eqn:Er; [|done].
  intros [= _ <-]. rewrite (IH _ _ _ Er). f_equal.
  destruct (name_is k c); [by eapply Hd|by injection E].
Qed.

Lemma visit_all_same {S} (body : S → Property → result (S * Property))
    keys st p st' p' :
  (∀ s1 c s2 c', body s1 c = Ok (s2, c') → c' = c) →
  visit_all body keys st p = Ok (st', p') → p' = p.
Proof.
  intros Hb. revert st p st' p'.
  induction keys as [|k ks IH]; intros st p st' p'; [by intros [= _ <-]|].
  destruct p as [n v|n l]; [by intros [= _ <-]|].
  destruct ks as [|k2 ks].
  - rewrite visit_all_last.
    destruct (visit_children _ _ _ _) as [[s1 l']|] eqn:E; [|done].
    cbn [mbind result_bind]. intros [= _ <-]. f_equal.
    exact (visit_children_same _ _ _ _ _ _ Hb E).
  - rewrite visit_all_deep.
    destruct (visit_children _ _ _ _) as [[s1 l']|] eqn:E; [|done].
    cbn [mbind result_bind]. intros [= _ <-]. f_equal.
    eapply visit_children_same; [|exact E].
    intros s2 c s3 c'. cbn beta. destruct (has_children c); [apply IH|].
    by intros [= _ <-].
Qed.

Lemma set_item_other p k v p' k2 d :
  set_item p k v = Ok p' → casefold k ≠ casefold k2 →
  get_value p' k2 d = get_value p k2 d.
Proof.
  destruct p as [|n l]; [done|]. unfold set_item, get_value, find_key.
  intros H Hne. cbn [p_children].
  destruct (last_index (name_is k) l) as [i|] eqn:Ei; injection H as <-;
    cbn [p_children].
  - pose proof (last_index_find (name_is k) l) as Hl. rewrite Ei in Hl.
    destruct Hl as (x & Hx & Hkx & _).
    apply list_elem_of_split_length in Hx as (l1 & l2 & -> & ->).
    rewrite alter_app_r_alt, Nat.sub_diag by lia.
    cbn [alter list_alter]. rewrite !rev_app_distr. cbn [rev].
    rewrite <- !app_assoc. cbn [app].
    destruct (find (name_is k2) (rev l2)) as [y|] eqn:E2.
    + by rewrite !(find_app_Some _ _ _ _ E2).
    + rewrite !(find_app_None _ _ _ E2). cbn [find].
      rewrite (name_is_mk_prop k2 _ v x eq_refl).
      by rewrite (name_is_other _ _ _ Hkx Hne).
  - rewrite rev_app_distr. cbn [rev app find].
    assert (name_is k2 (mk_prop (Some k) v) = false) as ->; [|done].
    apply (name_is_other k); [apply name_is_self|done].
Qed.

Lemma Forall2_reversed {A B} (R : A → B → Prop) l l' :
  Forall2 R l l' → Forall2 R (rev l) (rev l').
Proof.
  induction 1 as [|x y l l' Hxy _ IH]; [constructor|]. cbn [rev].
  apply Forall2_app; [done|]. by constructor.
Qed.

Lemma find_rev_other (key k : string) l l' :
  casefold k ≠ casefold key →
  Forall2 (λ c c', p_real_name c' = p_real_name c ∧
                   (name_is k c = false → c' = c)) l l' →
  find (name_is key) (rev l') = find (name_is key) (rev l).
Proof.
  intros Hne H. apply Forall2_reversed in H.
  induction H as [|c c' r r' [Hn Hc] _ IH]; [done|]. cbn [find].
  rewrite (name_is_real _ _ _ Hn). destruct (name_is key c) eqn:E; [|done].
  f_equal. apply Hc. apply (name_is_other key); [done|congruence].
Qed.

(** A loop over the matches of a path of two or more names leaves the
    keys of the tree other than the first name of the path alone. *)
Lemma visit_all_get_value {S} (body : S → Property → result (S * Property))
    k k2 ks st p st' p' key d :
  visit_all body (k :: k2 :: ks) st p = Ok (st', p') →
  casefold k ≠ casefold key →
  get_value p' key d = get_value p key d.
Proof.
  intros H Hne. destruct p as [n v|n l]; [by injection H as _ <-|].
  apply visit_all_other in H as (l' & -> & H).
  unfold get_value, find_key. cbn [p_children].
  by rewrite (find_rev_other _ _ _ _ Hne H).
Qed.

Lemma set_item_p_name p k v p' : set_item p k v = Ok p' → p_name p' = p_name p.
Proof. intros H. unfold p_name. by rewrite (set_item_name _ _ _ _ H). Qed.

(** X18: the stage that applies configured defaults gives every
    property of a [Properties] section that is not flagged
    [BEE2_ignore] and has a configured value that value as its
    [DefaultValue]; with nothing configured it returns the editor block
    as it was. *)
Theorem export_defaults_applies (prop_overrides : dict string)
    (new_editor exported : Property) :
  export_defaults prop_overrides new_editor = Ok exported →
  Forall (λ prop_section,
            Forall (λ item_prop,
                      ∀ name v,
                        p_name item_prop = Some name →
                        p_bool item_prop "BEE2_ignore" = Ok false →
                        dict_get prop_overrides (casefold name) = Some v →
                        get_value item_prop "DefaultValue" None = Some (VStr v))
              (p_children prop_section))
    (find_all ["Editor"; "Properties"] exported) ∧
  (prop_overrides = [] → exported = new_editor).
Proof.
  unfold export_defaults.
  destruct (visit_all _ _ tt new_editor) as [[[] ed]|] eqn:E; [|done].
  cbn [mbind result_bind]. intros [= <-]. split.
  - apply visit_all_find_all in E.
    2:{ intros st [n v|n cs] st' c'; [by intros [= _ <-]|].
        destruct (mapM _ cs); [|done]. by intros [= _ <-]. }
    apply Forall_forall. intros sec' Hsec'.
    apply list_elem_of_lookup in Hsec' as [i Hi].
    destruct (Forall2_lookup_r _ _ _ _ _ E Hi) as (sec & _ & s1 & s2 & Hbody).
    destruct sec as [n v|n cs]; [injection Hbody as _ <-; constructor|].
    destruct (mapM _ cs) as [cs'|] eqn:Em; [|done]. injection Hbody as _ <-.
    apply mapM_result_Forall2 in Em. cbn [p_children].
    apply Forall_forall. intros c' Hc'.
    apply list_elem_of_lookup in Hc' as [j Hj].
    destruct (Forall2_lookup_r _ _ _ _ _ Em Hj) as (c & _ & Hc).
    intros name v Hname Hign Hv. cbn beta in Hc.
    destruct (p_bool c "BEE2_ignore") as [[]|] eqn:Ei;
      [injection Hc as <-; congruence| |done].
    cbn [mbind result_bind] in Hc.
    destruct (p_name c) as [n0|] eqn:En; [|done].
    destruct (dict_get prop_overrides (casefold n0)) as [v0|] eqn:Ev.
    + rewrite (set_item_p_name _ _ _ _ Hc), En in Hname. injection Hname as <-.
      rewrite Ev in Hv. injection Hv as <-. by eapply get_value_set_item.
    + injection Hc as <-. rewrite En in Hname. injection Hname as <-. congruence.
  - intros ->. eapply visit_all_same; [|exact E].
    intros s1 [n v|n cs] s2 c'; [by intros [= _ <-]|].
    destruct (mapM _ cs) as [cs'|] eqn:Em; [|done]. intros [= _ <-]. f_equal.
    apply mapM_result_Forall2 in Em. apply Forall2_same.
    eapply Forall2_impl; [exact Em|]. intros c c' Hc. cbn beta in Hc.
    destruct (p_bool c "BEE2_ignore") as [[]|]; [by injection Hc| |done].
    cbn [mbind result_bind] in Hc.
    destruct (p_name c); [|done]. by injection Hc.
Qed.

Lemma export_defaults_applies_witness :
  ∃ exported,
    export_defaults [("startenabled", "1"); ("timerdelay", "10")] ex_props_editor
      = Ok exported ∧
    find_all ["Editor"; "Properties"] exported
      = [PBlock (Some "Properties")
           [PBlock (Some "StartEnabled") [PLeaf (Some "DefaultValue") "1"];
            PBlock (Some "TimerDelay")
              [PLeaf (Some "DefaultValue") "3"; PLeaf (Some "BEE2_ignore") "1"]]] ∧
    Forall (λ prop_section,
              Forall (λ item_prop,
                        ∀ name v,
                          p_name item_prop = Some name →
                          p_bool item_prop "BEE2_ignore" = Ok false →
                          dict_get [("startenabled", "1"); ("timerdelay", "10")]
                            (casefold name) = Some v →
                          get_value item_prop "DefaultValue" None = Some (VStr v))
                (p_children prop_section))
      (find_all ["Editor"; "Properties"] exported).
Proof.
  eexists. split; [reflexivity|]. split; [reflexivity|].
  apply (export_defaults_applies _ ex_props_editor). reflexivity.
Defined.

(** X19: the editor block that the export returns carries the id of
    the item under the key [Type], whatever the folder of the variant
    said there. *)
Theorem export_data_type (h : heap) (log log' : list string) (self : Item)
    (pal_list : list (string * nat)) (ver_id style_id : string)
    (prop_conf : dict (dict string)) (ed extra conf : Property) :
  get_export_data h log self pal_list ver_id style_id prop_conf
    = Ok (log', (ed, extra, conf)) →
  get_value ed "type" None = Some (VStr (item_id self)).
Proof.
  unfold get_export_data.
  destruct (dict_item (versions self) ver_id) as [vers|]; [|done].
  cbn [mbind result_bind].
  destruct (dict_item (styles vers) style_id) as [[item_data| |]|]; try done.
  cbn [mbind result_bind].
  destruct (read_prop h (editor item_data)) as [base|]; [|done].
  cbn [mbind result_bind].
  destruct (set_item _ "type" _) as [ed0|] eqn:E0; [|done].
  cbn [mbind result_bind].
  destruct (export_palette _ _ _ ed0) as [ed1|] eqn:E1; [|done].
  cbn [mbind result_bind].
  destruct (export_defaults _ ed1) as [ed2|] eqn:E2; [|done].
  cbn [mbind result_bind].
  destruct (export_voxels _ _ ed2) as [[log2 ed3]|] eqn:E3; [|done].
  cbn [mbind result_bind].
  destruct (read_prop h (editor_extra item_data)) as [x|]; [|done].
  cbn [mbind result_bind].
  destruct (read_prop h (vbsp_config item_data)) as [c|]; [|done].
  cbn [mbind result_bind].
  destruct (p_add _ c) as [a|]; [|done]. intros [= <- <- <- <-].
  apply (get_value_set_item _ _ _ _ None) in E0.
  unfold export_palette in E1.
  destruct (visit_all _ _ 0 ed0) as [[s1 q1]|] eqn:V1; [|done].
  injection E1 as ->.
  unfold export_defaults in E2.
  destruct (visit_all _ _ tt ed1) as [[s2 q2]|] eqn:V2; [|done].
  injection E2 as ->.
  unfold export_voxels in E3.
  destruct (visit_all _ _ log ed2) as [[s3 q3]|] eqn:V3; [|done].
  cbn [mbind result_bind] in E3.
  rewrite (visit_all_get_value _ _ _ _ _ _ _ _ "type" None E3) by done.
  rewrite (visit_all_get_value _ _ _ _ _ _ _ _ "type" None V3) by done.
  rewrite (visit_all_get_value _ _ _ _ _ _ _ _ "type" None V2) by done.
  by rewrite (visit_all_get_value _ _ _ _ _ _ _ _ "type" None V1).
Qed.

Lemma export_data_type_witness :
  ∃ log' ed extra conf,
    get_export_data ex_heap_props [] ex_props_item [] "VER_DEFAULT" "CLEAN"
      ex_prop_conf = Ok (log', (ed, extra, conf)) ∧
    get_value ex_props_editor "type" None = Some (VStr "FOLDER") ∧
    get_value ed "type" None = Some (VStr "ITEM").
Proof.
  eexists _, _, _, _. split; [vm_compute; reflexivity|]. split; [reflexivity|].
  eapply (export_data_type ex_heap_props [] _ ex_props_item [] "VER_DEFAULT"
            "CLEAN" ex_prop_conf).
  vm_compute; reflexivity.
Defined.

(** ** Configuration errors met by the completion engine *)

Lemma for_each_raise_inv {A B} (P : A → Prop) (f : A → B → result A)
    a pre x post e :
  P a →
  (∀ a0 y a1, y ∈ pre → P a0 → f a0 y = Ok a1 → P a1) →
  (∀ a0, P a0 → f a0 x = Raise e) →
  ∃ e', for_each f a (pre ++ x :: post) = Raise e' ∧
        (is_ok (for_each f a pre) = true → e' = e).
Proof.
  intros Ha Hstep Hx. rewrite for_each_app.
  destruct (for_each f a pre) as [a1|e1] eqn:E.
  - cbn [mbind result_bind for_each].
    rewrite (Hx a1); [by exists e|].
    eapply for_each_invariant; [|exact Ha|exact E]. eauto.
  - exists e1. by split.
Qed.

Lemma eval_slot_other item ver st k st' k0 x :
  eval_slot item ver st k = Ok st' → k0 ≠ k →
  dict_get (ev_styles st) k0 = Some x → dict_get (ev_styles st') k0 = Some x.
Proof.
  intros Hs Hne Hx.
  destruct (eval_slot_get _ _ _ _ _ _ _ Hs Hx) as (y & Hy & Hsame & _).
  by rewrite Hy, (Hsame Hne).
Qed.

Lemma eval_slot_no_base item ver st k props n :
  dict_get (ev_styles st) k = Some (SBlock props) → p_name props = Some n →
  truthy (get_value props "base" None) = false →
  eval_slot item ver st k = Raise (Exception (no_base_msg item k)).
Proof.
  intros Hk Hn Hb. unfold eval_slot. rewrite Hk, Hn.
  destruct (get_value props "base" None) as [[[|c s]|[|c l]]|]; done.
Qed.

Lemma fill_run_head bases is_def def_styles d l st st' k ks :
  for_each (fill_style bases is_def def_styles d) st l = Ok st' →
  dict_keys st = k :: ks → ∃ ks', dict_keys st' = k :: ks'.
Proof.
  intros Hrun Hst.
  eapply (for_each_invariant (λ x, ∃ ks, dict_keys x = k :: ks));
    [|by eauto|exact Hrun].
  clear. intros a [k0 s] a' _ [ks Ha]. unfold fill_style.
  destruct (dict_mem a k0) eqn:Em; [intros [= <-]; eauto|].
  assert (∀ v, ∃ ks', dict_keys (dict_set a k0 v) = k :: ks') as Hset.
  { intros v. rewrite dict_set_keys, Ha, Em. cbn. eauto. }
  destruct (find _ _).
  - destruct (dict_item a _); [|done]. intros [= <-]. apply Hset.
  - destruct is_def.
    + destruct (def_style_slot a _); [|done]. intros [= <-]. apply Hset.
    + destruct (dict_item def_styles k0); [|done]. intros [= <-]. apply Hset.
Qed.

(** X20: a slot that modifies another one without naming its base makes
    the completion of the version fail; when it is the first slot that
    the version declares, and the fill pass went through, the error is
    [No base for "<item>", in "<style>" style.] *)
Theorem completion_needs_base (all_styles : dict Style)
    (bases : dict (list Style)) (item : string) (is_def : bool)
    (def_styles : dict Slot) (h : heap) (vers : Version)
    (sty_id : string) (props : Property) (n : string) :
  dict_get (styles vers) sty_id = Some (SBlock props) →
  p_name props = Some n →
  truthy (get_value props "base" None) = false →
  (∃ e, complete_version all_styles bases item is_def def_styles h vers
        = Raise e) ∧
  (∀ rest, styles vers = (sty_id, SBlock props) :: rest →
     is_ok (fill_pass all_styles bases is_def def_styles (def_style vers)
              (styles vers)) = true →
     complete_version all_styles bases item is_def def_styles h vers
       = Raise (Exception (no_base_msg item sty_id))).
Proof.
  intros Hk Hn Hb. unfold complete_version, fill_pass.
  destruct (for_each _ (styles vers) all_styles) as [filled|e] eqn:Ef;
    [|split; [by exists e|done]].
  cbn [mbind result_bind].
  pose proof (fill_run_mono _ _ _ _ _ _ _ _ _ Ef Hk) as Hfilled.
  assert (sty_id ∈ dict_keys filled) as Hin
    by (apply dict_get_is_Some; eauto).
  split.
  - apply list_elem_of_split_l in Hin as (pre & post & Hkeys & Hpre).
    rewrite Hkeys.
    edestruct (for_each_raise_inv
                 (λ st, dict_get (ev_styles st) sty_id = Some (SBlock props))
                 (eval_slot item (ver_id vers))
                 {| ev_styles := filled; ev_lookups := []; ev_heap := h |}
                 pre sty_id post) as (e' & -> & _); [done| | |by exists e'].
    + intros a0 y a1 Hy Ha0 Hs. eapply eval_slot_other; [done| |done].
      intros ->. done.
    + intros a0 Ha0. by eapply eval_slot_no_base.
  - intros rest Hrest _.
    destruct (fill_run_head _ _ _ _ _ _ _ sty_id (dict_keys rest) Ef)
      as [ks ->]; [by rewrite Hrest|].
    cbn [for_each].
    by rewrite (eval_slot_no_base item (ver_id vers)
                  {| ev_styles := filled; ev_lookups := []; ev_heap := h |}
                  sty_id props n Hfilled Hn Hb).
Qed.

Lemma completion_needs_base_witness :
  complete_version (build_all_styles ex_chain_styles) ex_chain_bases "ITEM"
    true (styles ex_no_base_version) ex_heap ex_no_base_version
  = Raise (Exception (no_base_msg "ITEM" "Mid")) ∧
  ∃ e, complete_version (build_all_styles ex_chain_styles) ex_chain_bases
         "ITEM" true (styles ex_no_base_version) ex_heap ex_no_base_version
       = Raise e.
Proof.
  split; [reflexivity|].
  apply (completion_needs_base _ _ _ _ _ _ ex_no_base_version "Mid"
           (PBlock (Some "Mid") [PLeaf (Some "ent_count") "2"]) "mid");
    reflexivity.
Defined.

Lemma eval_slot_lookup_kept item ver st k st' k0 props :
  eval_slot item ver st k = Ok st' →
  dict_get (ev_styles st) k0 = Some (SBlock props) → p_name props = None →
  dict_get (ev_styles st') k0 = Some (SBlock props) ∧
  (k = k0 ∨ dict_get (ev_lookups st) k0 = Some (p_value props) →
   dict_get (ev_lookups st') k0 = Some (p_value props)).
Proof.
  intros Hs Hk0 Hn. split.
  - destruct (eval_slot_get _ _ _ _ _ _ _ Hs Hk0) as (y & Hy & Hne & Heq).
    destruct (decide (k0 = k)) as [->|Hd]; [|by rewrite Hy, (Hne Hd)].
    specialize (Heq eq_refl). unfold evaluated, is_modification in Heq.
    rewrite Hn in Heq. by rewrite Hy, Heq.
  - rewrite (eval_slot_lookups _ _ _ _ _ k0 Hs).
    intros [->|Hl].
    + by rewrite Hk0, Hn, str_eqb_refl.
    + destruct (dict_get (ev_styles st) k) as [[iv|str|p]|] eqn:E; try done.
      destruct (p_name p) eqn:Ep; [done|].
      destruct (str_eqb k k0) eqn:Ek; [|done].
      apply str_eqb_eq in Ek as ->. rewrite Hk0 in E. by injection E as <-.
Qed.

Lemma eval_run_lookup item ver ks st st' k0 props :
  for_each (eval_slot item ver) st ks = Ok st' →
  dict_get (ev_styles st) k0 = Some (SBlock props) → p_name props = None →
  k0 ∈ ks ∨ dict_get (ev_lookups st) k0 = Some (p_value props) →
  dict_get (ev_lookups st') k0 = Some (p_value props).
Proof.
  intros Hrun Hk0 Hn. revert st Hrun Hk0.
  induction ks as [|k ks IH]; intros st Hrun Hk0 Hin.
  - injection Hrun as <-. destruct Hin as [Hin%elem_of_nil|]; done.
  - cbn [for_each] in Hrun.
    destruct (eval_slot item ver st k) as [st1|] eqn:Es; [|done].
    cbn [mbind result_bind] in Hrun.
    destruct (eval_slot_lookup_kept _ _ _ _ _ _ _ Es Hk0 Hn) as [H1 H2].
    apply (IH st1 Hrun H1).
    destruct Hin as [[->|Hin]%elem_of_cons|Hl]; [right; auto|by left|right; auto].
Qed.

Lemma eval_run_keys item ver ks st st' :
  for_each (eval_slot item ver) st ks = Ok st' →
  dict_keys (ev_styles st') = dict_keys (ev_styles st) ∧
  (∀ k0 pv, (k0, pv) ∈ ev_lookups st' →
     (k0, pv) ∈ ev_lookups st ∨ k0 ∈ dict_keys (ev_styles st)).
Proof.
  revert st. induction ks as [|k ks IH]; intros st Hrun.
  - injection Hrun as <-. split; [done|]. intros; by left.
  - cbn [for_each] in Hrun.
    destruct (eval_slot item ver st k) as [st1|] eqn:Es; [|done].
    cbn [mbind result_bind] in Hrun.
    destruct (IH _ Hrun) as [Hkeys Hl].
    rewrite (eval_slot_keys _ _ _ _ _ Es) in Hkeys, Hl. split; [done|].
    intros k0 pv [Hin|Hin]%Hl; [|by right].
    apply (eval_slot_lookups_elem _ _ _ _ _ _ _ Es) in Hin
      as [Hin|(-> & p & Hp & _)]; [by left|right].
    apply dict_get_is_Some. eauto.
Qed.

Lemma apply_lookup_mem item st entry st' k :
  apply_lookup item st entry = Ok st' → dict_mem st (entry.1) = true →
  dict_mem st' k = dict_mem st k.
Proof.
  destruct entry as [to_id [from_id|]]; [|done]. cbn [apply_lookup fst].
  destruct (dict_get st from_id) as [v|]; [|done]. intros [= <-] Hm.
  rewrite dict_mem_set. destruct (str_eqb to_id k) eqn:E; [|done].
  apply str_eqb_eq in E as <-. by rewrite Hm.
Qed.

(** X21: a slot that looks up a style which the version does not
    declare and which is not among the known styles makes the
    completion of the version fail. *)
Theorem completion_needs_target (all_styles : dict Style)
    (bases : dict (list Style)) (item : string) (is_def : bool)
    (def_styles : dict Slot) (h : heap) (vers : Version)
    (sty_id target : string) (props : Property) :
  dict_get (styles vers) sty_id = Some (SBlock props) →
  p_name props = None → p_value props = VStr target →
  dict_get (styles vers) target = None →
  target ∉ dict_keys all_styles →
  ∃ e, complete_version all_styles bases item is_def def_styles h vers
       = Raise e.
Proof.
  intros Hk Hn Hv Ht Hknown. unfold complete_version, fill_pass.
  destruct (for_each _ (styles vers) all_styles) as [filled|e] eqn:Ef;
    [|by exists e].
  cbn [mbind result_bind].
  pose proof (fill_run_mono _ _ _ _ _ _ _ _ _ Ef Hk) as Hfilled.
  pose proof (fill_run_mem _ _ _ _ _ _ _ target Ef) as Hmem.
  rewrite bool_decide_eq_false_2, orb_false_r in Hmem by exact Hknown.
  unfold dict_mem at 2 in Hmem. rewrite Ht in Hmem.
  destruct (for_each (eval_slot _ _) _ _) as [ev|e] eqn:Ee; [|by exists e].
  cbn [mbind result_bind].
  destruct (eval_run_keys _ _ _ _ _ Ee) as [Hkeys Hl]. cbn in Hkeys, Hl.
  assert (dict_get (ev_lookups ev) sty_id = Some (VStr target)) as Hlook.
  { rewrite <- Hv. eapply eval_run_lookup; [exact Ee|exact Hfilled|done|].
    left. apply dict_get_is_Some. eauto. }
  apply dict_get_elem, list_elem_of_split in Hlook as (pre & post & Hsplit).
  rewrite Hsplit.
  assert (Forall (λ e, e.1 ∈ dict_keys filled) (ev_lookups ev)) as Hall.
  { apply Forall_forall. intros [k0 pv] Hin.
    destruct (Hl _ _ Hin) as [Hin'%elem_of_nil|]; done. }
  rewrite Hsplit in Hall. apply Forall_app in Hall as [Hpre _].
  edestruct (for_each_raise_inv
               (λ st, dict_mem st target = false ∧ dict_keys st = dict_keys filled)
               (apply_lookup item) (ev_styles ev) pre
               (sty_id, VStr target) post) as (e' & -> & _); [| | |by exists e'].
  - split; [|done].
    apply dict_mem_false. rewrite Hkeys. by apply dict_mem_false.
  - intros a0 y a1 Hy [Ha0 Hka] Hs.
    rewrite Forall_forall in Hpre. specialize (Hpre _ Hy).
    assert (dict_mem a0 y.1 = true) as Hm
      by (apply dict_mem_true; by rewrite Hka).
    split; [by rewrite (apply_lookup_mem _ _ _ _ _ Hs Hm)|].
    destruct y as [to_id [from_id|]]; [|done]. cbn [apply_lookup] in Hs.
    destruct (dict_get a0 from_id); [|done]. injection Hs as <-.
    cbn [fst] in Hm. by rewrite dict_set_keys, Hm.
  - intros a0 [Ha0 _]. cbn [apply_lookup]. unfold dict_mem in Ha0.
    by destruct (dict_get a0 target).
Qed.

Lemma completion_needs_target_witness :
  ∃ e, complete_version (build_all_styles ex_chain_styles) ex_chain_bases
         "ITEM" true (styles ex_bad_ref_version) ex_heap ex_bad_ref_version
       = Raise e.
Proof.
  apply (completion_needs_target _ _ _ _ _ _ ex_bad_ref_version "Mid" "Gone"
           (PLeaf None "Gone")); try reflexivity.
  cbn. intros H.
  repeat (apply elem_of_cons in H as [?|H]; [discriminate|]).
  by apply elem_of_nil in H.
Defined.

(** ** Values replaced by a modification *)

Lemma modify_values_fields h self props vals :
  modify_values h self props = Ok vals →
  (if p_contains props "config"
   then ∃ c, find_key props "config" = Some c ∧
             mv_config vals = p_set_name None c
   else read_prop h (vbsp_config self) = Ok (mv_config vals)) ∧
  (if p_contains props "description" then desc_parse props
   else read_desc h (desc self)) = Ok (mv_desc vals) ∧
  (if p_contains props "authors"
   then ∃ a, sep_values (default (VStr EmptyString)
                           (get_value props "authors" None)) = Ok a ∧
             mv_authors vals = Some a
   else mv_authors vals = None) ∧
  (if p_contains props "tags"
   then sep_values (default (VStr EmptyString) (get_value props "tags" None))
   else read_list h (tags self)) = Ok (mv_tags vals).
Proof.
  unfold modify_values.
  destruct (if p_contains props "config" then _ else _) as [c|] eqn:Ec; [|done].
  cbn [mbind result_bind].
  destruct (if p_contains props "description" then _ else _) as [d|] eqn:Ed;
    [|done].
  cbn [mbind result_bind].
  destruct (if p_contains props "authors" then _ else _) as [a|] eqn:Ea; [|done].
  cbn [mbind result_bind].
  destruct (if p_contains props "tags" then _ else _) as [t|] eqn:Et; [|done].
  cbn [mbind result_bind].
  destruct (read_prop h (editor self)); [|done]. cbn [mbind result_bind].
  destruct (read_prop h (editor_extra self)); [|done]. cbn [mbind result_bind].
  destruct (read_dict h (icons self)); [|done]. cbn [mbind result_bind].
  intros [= <-]. cbn. split_and!; [| done | | done].
  - destruct (p_contains props "config").
    + destruct (find_key props "config") as [c0|]; [|done].
      injection Ec as <-. eauto.
    + destruct (read_prop h (vbsp_config self)); [|done]. by injection Ec as <-.
  - destruct (p_contains props "authors"); [|by injection Ea].
    destruct (sep_values _) as [x|]; [|done]. injection Ea as <-. eauto.
Qed.

(** X22: what a modification gives replaces what the base holds: a
    [config] block becomes the configuration (without its name), the
    [authors] and [tags] values are split into the new lists, a
    [description] is parsed anew, [ent_count] and [url] are taken when
    given; a new author list is a new object, and without [authors] the
    variant refers to the author list of the base.  No object of the
    base is changed, whatever the modification. *)
Theorem modify_overrides (h h' : heap) (self v : ItemVariant)
    (props : Property) (src : string) :
  modify h self props src = Ok (v, h') →
  (∀ l, l < length h → h' !! l = h !! l) ∧
  (if p_contains props "authors"
   then sep_values (default (VStr EmptyString) (get_value props "authors" None))
          = read_list h' (authors v) ∧ length h ≤ authors v
   else authors v = authors self) ∧
  (p_contains props "tags" = true →
   sep_values (default (VStr EmptyString) (get_value props "tags" None))
     = read_list h' (tags v)) ∧
  (p_contains props "config" = true →
   ∃ c, find_key props "config" = Some c ∧
        read_prop h' (vbsp_config v) = Ok (p_set_name None c)) ∧
  (p_contains props "description" = true →
   desc_parse props = read_desc h' (desc v)) ∧
  ent_count v = default (ent_count self) (get_value props "ent_count" None) ∧
  url v = get_value props "url" (url self) ∧
  source v = src +:+ " from " +:+ source self.
Proof.
  unfold modify.
  destruct (modify_values h self props) as [vals|] eqn:Ev; [|done].
  cbn [mbind result_bind].
  destruct (for_each _ _ _) as [st|]; [|done]. cbn [mbind result_bind].
  destruct (modify_instances _ _) as [final|]; [|done]. cbn [mbind result_bind].
  destruct (modify_values_fields _ _ _ _ Ev) as (Hc & Hd & Ha & Ht).
  destruct (mv_authors vals) as [a|] eqn:Eauth; cbn [alloc];
    rewrite !length_app; cbn [length];
    rewrite <- !app_assoc; cbn [app]; intros [= <- <-];
    cbn [editor editor_extra vbsp_config tags desc icons ent_count url
         all_name all_icon authors source];
    (split_and!; [intros l Hl; by apply read_alloc_old| | | | |done..]).
  - destruct (p_contains props "authors"); [|done].
    destruct Ha as (a' & -> & [= <-]). split; [|lia]. symmetry. read_new.
  - intros E. rewrite E in Ht. rewrite Ht. symmetry. read_new.
  - intros E. rewrite E in Hc. destruct Hc as (c & Hc & ->).
    exists c. split; [done|]. read_new.
  - intros E. rewrite E in Hd. rewrite Hd. symmetry. read_new.
  - destruct (p_contains props "authors"); [|done]. by destruct Ha as (? & _ & ?).
  - intros E. rewrite E in Ht. rewrite Ht. symmetry. read_new.
  - intros E. rewrite E in Hc. destruct Hc as (c & Hc & ->).
    exists c. split; [done|]. read_new.
  - intros E. rewrite E in Hd. rewrite Hd. symmetry. read_new.
Qed.

Lemma modify_overrides_witness :
  ∃ v h',
    modify ex_heap (ex_var "base") ex_authors_delta "<ITEM:VER.Mid>" = Ok (v, h') ∧
    read_list h' (authors v) = Ok ["Carl"; "Valve"] ∧
    read_list h' (authors (ex_var "base")) = Ok [] ∧
    read_list h' (tags v) = Ok ["Cube"] ∧
    ent_count v = VStr "4" ∧
    ∀ l, l < length ex_heap → h' !! l = ex_heap !! l.
Proof.
  eexists _, _. split; [vm_compute; reflexivity|].
  split_and!; [reflexivity..|].
  eapply (modify_overrides ex_heap _ (ex_var "base") _ ex_authors_delta
            "<ITEM:VER.Mid>").
  vm_compute; reflexivity.
Defined.

Lemma palette_step_group src n st item st' :
  palette_step src n st item = Ok st' →
  if bool_decide (p_name item = Some "all")
  then pal_all_name st' = get_value item "pal_name" None ∧
       pal_all_icon st' = get_value item "icon" None ∧
       pal_editor st' = pal_editor st
  else pal_all_name st' = pal_all_name st ∧ pal_all_icon st' = pal_all_icon st.
Proof.
  unfold palette_step. case_bool_decide; [by intros [= <-]|].
  destruct (subtype_index _ _); [|done].
  destruct (update_match _ _ _ _); [|done]. by intros [= <-].
Qed.

(** X23: the last [all] entry of the palette block of a modification
    sets the name and the icon of the group, both of them: the one it
    does not give is cleared, whatever the base holds.  Without an [all]
    entry the group keeps the name and the icon of the base. *)
Theorem modify_group_entry (h h' : heap) (self v : ItemVariant)
    (props : Property) (src : string) :
  modify h self props src = Ok (v, h') →
  (∀ pre entry post,
     find_children ["Palette"] props = pre ++ entry :: post →
     p_name entry = Some "all" →
     Forall (λ item, p_name item ≠ Some "all") post →
     all_name v = get_value entry "pal_name" None ∧
     all_icon v = get_value entry "icon" None) ∧
  (Forall (λ item, p_name item ≠ Some "all") (find_children ["Palette"] props) →
   all_name v = all_name self ∧ all_icon v = all_icon self).
Proof.
  unfold modify.
  destruct (modify_values h self props) as [vals|]; [|done].
  cbn [mbind result_bind].
  destruct (for_each _ _ _) as [st|] eqn:Erun; [|done]. cbn [mbind result_bind].
  destruct (modify_instances _ _) as [final|]; [|done]. cbn [mbind result_bind].
  assert (∀ l a b, Forall (λ item, p_name item ≠ Some "all") l →
            for_each (palette_step src
                        (length (find_all ["Editor"; "SubType"] (mv_editor vals))))
              a l = Ok b →
            pal_all_name b = pal_all_name a ∧ pal_all_icon b = pal_all_icon a)
    as Hkeep.
  { intros l a b Hl Hrun.
    eapply (for_each_invariant
              (λ x, pal_all_name x = pal_all_name a
                    ∧ pal_all_icon x = pal_all_icon a)); [|done|exact Hrun].
    intros a0 x a1 Hx [H1 H2] Hs. rewrite Forall_forall in Hl.
    apply palette_step_group in Hs.
    rewrite bool_decide_eq_false_2 in Hs by by apply Hl.
    destruct Hs as [-> ->]. done. }
  assert (all_name v = pal_all_name st ∧ all_icon v = pal_all_icon st →
          (∀ pre entry post,
             find_children ["Palette"] props = pre ++ entry :: post →
             p_name entry = Some "all" →
             Forall (λ item, p_name item ≠ Some "all") post →
             all_name v = get_value entry "pal_name" None ∧
             all_icon v = get_value entry "icon" None) ∧
          (Forall (λ item, p_name item ≠ Some "all")
             (find_children ["Palette"] props) →
           all_name v = all_name self ∧ all_icon v = all_icon self)) as Hgoal.
  { intros [-> ->]. split.
    - intros pre entry post Hsplit Hname Hpost. rewrite Hsplit in Erun.
      rewrite for_each_app in Erun.
      destruct (for_each _ _ pre) as [s1|]; [|done].
      cbn [mbind result_bind for_each] in Erun.
      destruct (palette_step _ _ s1 entry) as [s2|] eqn:Es; [|done].
      cbn [mbind result_bind] in Erun.
      apply palette_step_group in Es.
      rewrite bool_decide_eq_true_2 in Es by done.
      destruct Es as (<- & <- & _). by apply (Hkeep post).
    - intros Hall. by apply (Hkeep _ _ _ Hall Erun). }
  destruct (mv_authors vals); cbn [alloc]; intros [= <- <-]; by apply Hgoal.
Qed.

Lemma modify_group_entry_witness :
  ∃ v h',
    modify ex_heap ex_grouped_var ex_all_delta "<ITEM:VER.Mid>" = Ok (v, h') ∧
    all_name v = Some (VStr "Buttons") ∧ all_icon v = None ∧
    all_icon ex_grouped_var = Some (VStr "old_icon.png").
Proof.
  eexists _, _. split; [vm_compute; reflexivity|].
  destruct (modify_group_entry ex_heap _ ex_grouped_var _ ex_all_delta
              "<ITEM:VER.Mid>" eq_refl) as [H _].
  destruct (H [] ex_all_entry [] eq_refl eq_refl ltac:(constructor)) as [H1 H2].
  split_and!; [exact H1|exact H2|reflexivity].
Defined.

(** ** Chains without repetition *)

Lemma style_in_elem b base :
  style_in b base = false → style_id b ∉ map style_id base.
Proof.
  unfold style_in. intros H Hin.
  apply list_elem_of_fmap in Hin as (s & Hs & Hin).
  assert (existsb (λ s, str_eqb (style_id s) (style_id b)) base = true) as E.
  { apply existsb_exists. exists s. split; [by apply list_elem_of_In|].
    apply str_eqb_eq. congruence. }
  congruence.
Qed.

Lemma walk_bases_distinct fuel A base b l :
  NoDup (map style_id base) →
  walk_bases fuel A base b = Some (Ok l) → NoDup (map style_id l).
Proof.
  revert base b. induction fuel as [|fuel IH]; intros base b Hnd;
    (destruct b as [b|]; simpl;
     [destruct (style_in b base) eqn:Ein; [done|]|]); try done.
  - by intros [= <-].
  - apply IH. rewrite map_app. apply NoDup_app. split_and!; [done| |].
    + intros x Hx ->%list_elem_of_singleton. by apply style_in_elem in Ein.
    + apply NoDup_singleton.
  - by intros [= <-].
Qed.

(** X24: no style occurs twice in a resolved chain: the ids of the
    entries of [bases] for a style are distinct. *)
Theorem resolved_bases_distinct (style_data : list Style)
    (bases : dict (list Style)) (s : Style) :
  resolve_bases style_data = Some (Ok bases) →
  s ∈ dict_values (build_all_styles style_data) →
  NoDup (map style_id (bases_of bases s)).
Proof.
  intros Hres Hs.
  destruct (resolve_bases_lookup _ _ _ Hres Hs) as (l & Hg & Hl).
  unfold bases_of. rewrite Hg. cbn. unfold style_bases in Hl.
  eapply walk_bases_distinct; [|exact Hl]. constructor.
Qed.

Lemma resolved_bases_distinct_witness :
  NoDup (map style_id (bases_of ex_chain_bases ex_leaf)).
Proof.
  apply (resolved_bases_distinct ex_chain_styles ex_chain_bases ex_leaf).
  - reflexivity.
  - right. right. left.
Defined.

(** ** The flag of a package *)

(** X25: what [set_enabled] stores is what [enabled] reads: for a
    package other than the clean style package that has a section in
    the configuration, the setter succeeds, the getter then returns the
    value set, and the flag of every other package reads as before. *)
Theorem set_enabled_read_back (cfg : gmap string (gmap string string))
    (self : Package) (value : bool) (sec : gmap string string) :
  pak_id self ≠ CLEAN_PACKAGE →
  cfg !! pak_id self = Some sec →
  ∃ cfg', set_enabled cfg self value = (cfg', Ok tt) ∧
    enabled cfg' self = value ∧
    ∀ other, pak_id other ≠ pak_id self → enabled cfg' other = enabled cfg other.
Proof.
  intros Hne Hsec. unfold set_enabled.
  apply str_eqb_neq in Hne. rewrite Hne, Hsec. eexists. split; [done|].
  split.
  - unfold enabled, get_bool. rewrite Hne, lookup_insert_eq, lookup_insert_eq.
    by destruct value.
  - intros other Ho. unfold enabled, get_bool.
    destruct (str_eqb (pak_id other) CLEAN_PACKAGE); [done|].
    by rewrite lookup_insert_ne.
Qed.

Lemma set_enabled_read_back_witness :
  ∃ cfg', set_enabled ex_pack_config (ex_package "ITEM_A") true = (cfg', Ok tt) ∧
    enabled ex_pack_config (ex_package "ITEM_A") = false ∧
    enabled cfg' (ex_package "ITEM_A") = true.
Proof.
  destruct (set_enabled_read_back ex_pack_config (ex_package "ITEM_A") true
              {[ "Enabled" := "0" ]}) as (cfg' & H1 & H2 & _);
    [discriminate|reflexivity|].
  exists cfg'. split_and!; [exact H1|reflexivity|exact H2].
Defined.

(** ** What the completion engine leaves alone *)

Lemma modify_extends h self props src v h' :
  modify h self props src = Ok (v, h') → ∃ more, h' = h ++ more.
Proof.
  unfold modify.
  destruct (modify_values h self props) as [vals|]; [|done].
  cbn [mbind result_bind].
  destruct (for_each _ _ _) as [st|]; [|done]. cbn [mbind result_bind].
  destruct (modify_instances _ _) as [final|]; [|done]. cbn [mbind result_bind].
  destruct (mv_authors vals); cbn [alloc]; intros [= _ <-];
    rewrite <- !app_assoc; eauto.
Qed.

Lemma eval_slot_extends item ver st k st' :
  eval_slot item ver st k = Ok st' → ∃ more, ev_heap st' = ev_heap st ++ more.
Proof.
  unfold eval_slot.
  assert (∃ more, ev_heap st = ev_heap st ++ more) as Hsame
    by (exists []; by rewrite app_nil_r).
  destruct (dict_get (ev_styles st) k) as [[iv|str|p]|]; try (by intros [= <-]).
  destruct (p_name p) as [n|]; [|by intros [= <-]].
  destruct (default _ _) as [[|c base]|[|]]; try done.
  destruct (dict_get (ev_styles st) _) as [[iv|str|q]|]; try done.
  destruct (modify _ _ _ _) as [[v h]|] eqn:Em; [|done].
  intros [= <-]. by apply modify_extends in Em.
Qed.

Lemma eval_slot_variant item ver st k st' k0 iv :
  eval_slot item ver st k = Ok st' →
  dict_get (ev_styles st) k0 = Some (SVariant iv) →
  dict_get (ev_styles st') k0 = Some (SVariant iv) ∧
  (k0 ∉ dict_keys (ev_lookups st) → k0 ∉ dict_keys (ev_lookups st')).
Proof.
  intros Hs Hk0.
  destruct (eval_slot_get _ _ _ _ _ _ _ Hs Hk0) as (y & Hy & Hne & Heq). split.
  - destruct (decide (k0 = k)) as [->|Hd]; [|by rewrite Hy, (Hne Hd)].
    rewrite Hy. f_equal. by apply Heq.
  - intros Hn Hin. apply dict_get_is_Some in Hin as [pv Hpv].
    rewrite (eval_slot_lookups _ _ _ _ _ k0 Hs) in Hpv.
    apply dict_get_None in Hn.
    destruct (dict_get (ev_styles st) k) as [[|?|p]|] eqn:E; try congruence.
    destruct (p_name p); [congruence|].
    destruct (str_eqb k k0) eqn:Ek; [|congruence].
    apply str_eqb_eq in Ek as ->. congruence.
Qed.

(** X26: completion keeps what the author defined: a slot that a
    version declares as a variant holds that variant after the version
    is completed, and the objects the heap held before are as they
    were. *)
Theorem completion_keeps_variants (all_styles : dict Style)
    (bases : dict (list Style)) (item : string) (is_def : bool)
    (def_styles : dict Slot) (h h' : heap) (vers vers' : Version)
    (sty_id : string) (iv : ItemVariant) :
  complete_version all_styles bases item is_def def_styles h vers
    = Ok (vers', h') →
  dict_get (styles vers) sty_id = Some (SVariant iv) →
  dict_get (styles vers') sty_id = Some (SVariant iv) ∧
  ∀ l, l < length h → h' !! l = h !! l.
Proof.
  unfold complete_version, fill_pass. intros Hrun Hk.
  destruct (for_each _ (styles vers) all_styles) as [filled|] eqn:Ef; [|done].
  cbn [mbind result_bind] in Hrun.
  destruct (for_each (eval_slot _ _) _ _) as [ev|] eqn:Ee; [|done].
  cbn [mbind result_bind] in Hrun.
  destruct (for_each (apply_lookup _) _ _) as [resolved|] eqn:El; [|done].
  cbn [mbind result_bind] in Hrun.
  destruct (def_style_slot resolved _) as [dslot|]; [|done].
  injection Hrun as <- <-. cbn [styles].
  pose proof (fill_run_mono _ _ _ _ _ _ _ _ _ Ef Hk) as Hfilled.
  assert (dict_get (ev_styles ev) sty_id = Some (SVariant iv)
          ∧ (sty_id ∉ dict_keys (ev_lookups ev))
          ∧ ∃ more, ev_heap ev = h ++ more) as (Hev & Hlook & more & Hheap).
  { eapply (for_each_invariant
              (λ st, dict_get (ev_styles st) sty_id = Some (SVariant iv)
                     ∧ (sty_id ∉ dict_keys (ev_lookups st))
                     ∧ ∃ more, ev_heap st = h ++ more)); [| |exact Ee].
    - intros a x a' _ (H1 & H2 & more & H3) Hs.
      destruct (eval_slot_variant _ _ _ _ _ _ _ Hs H1) as [H1' H2'].
      destruct (eval_slot_extends _ _ _ _ _ Hs) as [more' H3'].
      split_and!; [done|by apply H2'|].
      exists (more ++ more'). by rewrite H3', H3, app_assoc.
    - cbn. split_and!; [done|apply not_elem_of_nil|].
      exists []. by rewrite app_nil_r. }
  split.
  - revert El.
    assert (Forall (λ e, e.1 ≠ sty_id) (ev_lookups ev)) as Hall.
    { apply Forall_forall. intros [k0 pv] Hin <-. apply Hlook.
      by apply (list_elem_of_fmap_2 fst _ (k0, pv)). }
    revert Hall Hev. generalize (ev_styles ev) (ev_lookups ev).
    intros st ls Hall. revert st.
    induction Hall as [|[to from] ls Hto _ IH]; intros st Hst;
      cbn [for_each]; [by intros [= <-]|].
    destruct (apply_lookup item st (to, from)) as [st1|] eqn:Ea; [|done].
    cbn [mbind result_bind]. apply IH.
    destruct from as [from_id|]; [|done]. cbn [apply_lookup] in Ea.
    destruct (dict_get st from_id) as [x|]; [|done]. injection Ea as <-.
    rewrite dict_get_set. cbn in Hto.
    by rewrite (proj2 (str_eqb_neq to sty_id) Hto).
  - intros l Hl. rewrite Hheap. by apply lookup_app_l.
Qed.

Lemma completion_keeps_variants_witness :
  ∃ vers' h',
    complete_version (build_all_styles ex_chain_styles) ex_chain_bases "ITEM"
      true ex_declared ex_heap
      (mkVersion "Regular" "VER_DEFAULT" ex_declared (DName "Root"))
    = Ok (vers', h') ∧
    dict_get (styles vers') "Mid" = Some (SVariant (ex_var "mid")) ∧
    dict_get (styles vers') "Leaf" = Some (SVariant (ex_var "mid")).
Proof.
  eexists _, _. split; [vm_compute; reflexivity|]. split; [|reflexivity].
  eapply (completion_keeps_variants (build_all_styles ex_chain_styles)
            ex_chain_bases "ITEM" true ex_declared ex_heap _
            (mkVersion "Regular" "VER_DEFAULT" ex_declared (DName "Root")) _
            "Mid" (ex_var "mid")); reflexivity.
Defined.

(** ** Instances replaced by a modification *)

Lemma find_key_snoc_other n l key c :
  name_is key c = false →
  find_key (PBlock n (l ++ [c])) key = find_key (PBlock n l) key.
Proof.
  intros Hc. unfold find_key. cbn [p_children].
  rewrite rev_app_distr. cbn. by rewrite Hc.
Qed.

Lemma find_key_delete_other n l key i y :
  l !! i = Some y → name_is key y = false →
  find_key (PBlock n (delete i l)) key = find_key (PBlock n l) key.
Proof.
  intros Hi Hy. unfold find_key. cbn [p_children].
  apply list_elem_of_split_length in Hi as (l1 & l2 & -> & ->).
  rewrite delete_middle, !rev_app_distr. cbn [rev].
  rewrite <- app_assoc. cbn [app].
  destruct (find (name_is key) (rev l2)) as [x|] eqn:E.
  - by rewrite !(find_app_Some _ _ _ _ E).
  - rewrite !(find_app_None _ _ _ E). cbn. by rewrite Hy.
Qed.

(** [ensure_exists]: the block found afterwards under the key is the one
    that was changed. *)
Lemma with_ensured_find key f p p' :
  (∀ c c', f c = Ok c' → p_real_name c' = p_real_name c) →
  with_ensured key f p = Ok p' →
  ∃ c c', f c = Ok c' ∧ name_is key c = true ∧ find_key p' key = Some c'.
Proof.
  intros Hname. destruct p as [|n l]; [done|]. unfold with_ensured.
  pose proof (last_index_find (name_is key) l) as Hl.
  destruct (last_index (name_is key) l) as [i|] eqn:Ei.
  - destruct Hl as (c & Hc & Hkc & _). rewrite Hc.
    destruct (f c) as [c'|] eqn:Ef; [|done]. cbn. intros [= <-].
    exists c, c'. split_and!; [done..|].
    eapply find_key_insert; [done..|].
    by rewrite (name_is_real _ _ _ (Hname _ _ Ef)).
  - destruct (f (PBlock (Some key) [])) as [c'|] eqn:Ef; [|done]. cbn.
    intros [= <-]. exists (PBlock (Some key) []), c'.
    assert (name_is key (PBlock (Some key) []) = true) as Hk
      by apply (name_is_self key (VBlock [])).
    split_and!; [done..|]. apply find_key_snoc.
    by rewrite (name_is_real _ _ _ (Hname _ _ Ef)).
Qed.

Lemma p_append_name p c p' : p_append p c = Ok p' → p_real_name p' = p_real_name p.
Proof. destruct p; [done|]. by intros [= <-]. Qed.

Lemma del_key_name p k p' : del_key p k = Ok p' → p_real_name p' = p_real_name p.
Proof.
  destruct p as [|n l]; [done|]. unfold del_key.
  destruct (last_index _ _); [|done]. by intros [= <-].
Qed.

Lemma instance_step_name instances inst instances' :
  instance_step instances inst = Ok instances' →
  p_real_name instances' = p_real_name instances.
Proof.
  unfold instance_step. destruct (p_real_name inst) as [rn|]; [|done].
  assert (p_real_name (match del_key instances rn with
                       | Ok x => x
                       | Raise _ => instances
                       end) = p_real_name instances) as Hc.
  { destruct (del_key instances rn) eqn:E; [by eapply del_key_name|done]. }
  destruct (_ || _); intros H%p_append_name; congruence.
Qed.

Lemma instance_entry_name inst rn :
  p_real_name inst = Some rn → name_is rn (instance_entry inst rn) = true.
Proof.
  intros Hn. unfold instance_entry, p_copy.
  destruct (_ || _); unfold name_is, p_name; [rewrite Hn|]; cbn;
    apply str_eqb_refl.
Qed.

Lemma instance_step_sets instances inst rn instances' :
  instance_step instances inst = Ok instances' → p_real_name inst = Some rn →
  find_key instances' rn = Some (instance_entry inst rn).
Proof.
  unfold instance_step. intros H Hn. rewrite Hn in H.
  pose proof (instance_entry_name _ _ Hn) as He. unfold instance_entry in *.
  destruct (match del_key instances rn with Ok x => x | Raise _ => instances end)
    as [|n l]; [by destruct (_ || _)|].
  destruct (_ || _); injection H as <-; by apply find_key_snoc.
Qed.

Lemma instance_step_other instances inst rn instances' x :
  instance_step instances inst = Ok instances' → name_is rn inst = false →
  find_key instances rn = Some x → find_key instances' rn = Some x.
Proof.
  unfold instance_step. intros H Hn Hx.
  destruct (p_real_name inst) as [rn2|] eqn:E2; [|done].
  assert (∀ y, p_real_name y = Some rn2 → name_is rn y = false) as Hother.
  { intros y Hy. rewrite <- Hn. apply name_is_real. congruence. }
  assert (find_key (match del_key instances rn2 with
                    | Ok c => c
                    | Raise _ => instances
                    end) rn = Some x) as Hc.
  { destruct instances as [|n l]; [done|]. unfold del_key.
    pose proof (last_index_find (name_is rn2) l) as Hl.
    destruct (last_index (name_is rn2) l) as [i|]; [|done].
    destruct Hl as (y & Hy & Hky & _).
    rewrite (find_key_delete_other _ _ _ _ _ Hy); [done|].
    rewrite <- Hn. unfold name_is in *.
    destruct (p_name y) as [ny|] eqn:Ey; [|done].
    apply str_eqb_eq in Hky as ->. unfold p_name. by rewrite E2. }
  destruct (match del_key instances rn2 with Ok c => c | Raise _ => instances end)
    as [|n l]; [by destruct (_ || _)|].
  destruct (_ || _); injection H as <-; rewrite find_key_snoc_other; try done;
    by apply Hother.
Qed.

Lemma instance_run_sets pre inst post rn instances instances' :
  for_each instance_step instances (pre ++ inst :: post) = Ok instances' →
  p_real_name inst = Some rn →
  Forall (λ x, name_is rn x = false) post →
  find_key instances' rn = Some (instance_entry inst rn).
Proof.
  intros Hrun Hn Hpost. rewrite for_each_app in Hrun.
  destruct (for_each instance_step instances pre) as [s1|]; [|done].
  cbn [mbind result_bind for_each] in Hrun.
  destruct (instance_step s1 inst) as [s2|] eqn:Es; [|done].
  cbn [mbind result_bind] in Hrun.
  pose proof (instance_step_sets _ _ _ _ Es Hn) as H2. clear Es.
  revert s2 H2 Hrun. induction Hpost as [|x post Hx _ IH]; intros s2 H2;
    cbn [for_each]; [by intros [= <-]|].
  destruct (instance_step s2 x) as [s3|] eqn:Es; [|done].
  cbn [mbind result_bind]. apply IH.
  by eapply instance_step_other.
Qed.

Lemma for_each_name {B} (f : Property → B → result Property) a l a' :
  (∀ x y x', f x y = Ok x' → p_real_name x' = p_real_name x) →
  for_each f a l = Ok a' → p_real_name a' = p_real_name a.
Proof.
  intros Hf. apply (for_each_invariant (λ x, p_real_name x = p_real_name a));
    [|done].
  intros x y x' _ Hx Hs. by rewrite (Hf _ _ _ Hs).
Qed.

Lemma with_ensured_name key f p p' :
  with_ensured key f p = Ok p' → p_real_name p' = p_real_name p.
Proof.
  destruct p as [|n l]; [done|]. unfold with_ensured.
  destruct (last_index _ _) as [i|].
  - destruct (l !! i) as [c|]; [|done]. destruct (f c); [|done].
    by intros [= <-].
  - destruct (f _); [|done]. by intros [= <-].
Qed.

(** X27: an entry of the [Instances] block of a modification is what a
    lookup of its name finds afterwards: in the editor block of the new
    variant, looking the name up in the [Instances] block of the
    [Exporting] block gives the entry given, or for a plain value under
    a numeric name a block with that value as its [Name].  This holds
    for the last entry given for a name; whether an earlier instance of
    that name is still among the children is not stated. *)
Theorem modify_instance_entry (h h' : heap) (self v : ItemVariant)
    (props : Property) (src : string) (pre post : list Property)
    (inst : Property) (rn : string) :
  modify h self props src = Ok (v, h') →
  find_children ["Instances"] props = pre ++ inst :: post →
  p_real_name inst = Some rn →
  Forall (λ x, name_is rn x = false) post →
  ∃ ed exporting instances,
    read_prop h' (editor v) = Ok ed ∧
    find_key ed "Exporting" = Some exporting ∧
    find_key exporting "Instances" = Some instances ∧
    find_key instances rn = Some (instance_entry inst rn).
Proof.
  unfold modify. intros Hrun Hsplit Hn Hpost.
  destruct (modify_values h self props) as [vals|]; [|done].
  cbn [mbind result_bind] in Hrun.
  destruct (for_each _ _ _) as [st|]; [|done]. cbn [mbind result_bind] in Hrun.
  destruct (modify_instances _ _) as [final|] eqn:Ei; [|done].
  cbn [mbind result_bind] in Hrun.
  assert (∃ exporting instances,
            find_key final "Exporting" = Some exporting ∧
            find_key exporting "Instances" = Some instances ∧
            find_key instances rn = Some (instance_entry inst rn))
    as (exporting & instances & H1 & H2 & H3).
  { unfold modify_instances in Ei.
    apply with_ensured_find in Ei as (c & c' & Ec & _ & Hfind);
      [|intros ??; apply with_ensured_name].
    apply with_ensured_find in Ec as (d & d' & Ed & _ & Hfind');
      [|intros ??; apply for_each_name; intros ???; apply instance_step_name].
    exists c', d'. split_and!; [done..|].
    rewrite Hsplit in Ed. by eapply instance_run_sets. }
  exists final, exporting, instances. split_and!; [|done..].
  destruct (mv_authors vals); cbn [alloc] in Hrun;
    rewrite !length_app in Hrun; cbn [length] in Hrun;
    rewrite <- !app_assoc in Hrun; cbn [app] in Hrun;
    injection Hrun as <- <-; cbn [editor]; read_new.
Qed.

Lemma modify_instance_entry_witness :
  ∃ v h' ed exporting instances,
    modify ex_heap_instances (ex_var "base") ex_instance_delta "<ITEM:VER.Mid>"
      = Ok (v, h') ∧
    read_prop h' (editor v) = Ok ed ∧
    find_key ed "Exporting" = Some exporting ∧
    find_key exporting "Instances" = Some instances ∧
    find_key instances "0"
      = Some (PBlock (Some "0") [PLeaf (Some "Name") "new.vmf"]) ∧
    p_children instances
      = [PBlock (Some "1") [PLeaf (Some "Name") "other.vmf"];
         PBlock (Some "0") [PLeaf (Some "Name") "new.vmf"]].
Proof.
  destruct (modify_instance_entry ex_heap_instances
              (ex_heap_instances ++
               [OProp (PBlock None []); ODesc (Markdown EmptyString); OList [];
                OProp (PBlock (Some "Item")
                         [PBlock (Some "Exporting")
                            [PBlock (Some "Instances")
                               [PBlock (Some "1") [PLeaf (Some "Name") "other.vmf"];
                                PBlock (Some "0") [PLeaf (Some "Name") "new.vmf"]]]]);
                OProp (PBlock None []); ODict []])
              (ex_var "base")
              (mkVariant 10 11 7 "<ITEM:VER.Mid> from base" 3 9 8 12
                 (VStr EmptyString) None None None)
              ex_instance_delta "<ITEM:VER.Mid>" []
              [] (PLeaf (Some "0") "new.vmf") "0")
    as (ed & exporting & instances & H1 & H2 & H3 & H4);
    [vm_compute; reflexivity|reflexivity|reflexivity|constructor|].
  eexists _, _, ed, exporting, instances.
  split; [vm_compute; reflexivity|].
  split_and!; [exact H1|exact H2|exact H3|exact H4|].
  vm_compute in H1. injection H1 as <-.
  vm_compute in H2. injection H2 as <-.
  vm_compute in H3. injection H3 as <-. reflexivity.
Defined.

(** ** Merging a folder into a variant *)

Lemma read_list_insert h l x l' :
  l < length h → read_list (<[l := OList x]> h) l' =
    if decide (l = l') then Ok x else read_list h l'.
Proof.
  intros Hl. unfold read_list, heap, loc in *. destruct (decide (l = l')) as [<-|Hne].
  - by rewrite list_lookup_insert_eq.
  - by rewrite list_lookup_insert_ne.
Qed.

Lemma read_list_lt h l x : read_list h l = Ok x → l < length h.
Proof.
  unfold read_list. destruct (h !! l) eqn:E; [|done]. intros _.
  by eapply lookup_lt_Some.
Qed.

(** X28: [override_from_folder] adds the authors of the other variant
    to the author list of the variant, in place; it does not add the
    tags of the other variant: the tag list of the variant is extended
    by itself.  The tag list of the other variant stays as it is when
    it is another object. *)
Theorem override_from_folder_lists
    (md_join : MarkdownData → MarkdownData → MarkdownData)
    (h h' : heap) (self other self' : ItemVariant)
    (a oa t ot : list string) :
  override_from_folder md_join h self other = Ok (self', h') →
  read_list h (authors self) = Ok a →
  read_list h (authors other) = Ok oa →
  read_list h (tags self) = Ok t →
  read_list h (tags other) = Ok ot →
  authors self ≠ tags self →
  authors self' = authors self ∧ tags self' = tags self ∧
  read_list h' (authors self) = Ok (a ++ oa) ∧
  read_list h' (tags self) = Ok (t ++ t) ∧
  (tags other ≠ tags self → tags other ≠ authors self →
   read_list h' (tags other) = Ok ot).
Proof.
  unfold override_from_folder, list_extend.
  intros Hrun Ha Hoa Ht Hot Hne.
  pose proof (read_list_lt _ _ _ Ha) as La.
  pose proof (read_list_lt _ _ _ Ht) as Lt.
  rewrite Hoa, Ha in Hrun. cbn [mbind result_bind] in Hrun.
  rewrite (read_list_insert _ _ _ _ La) in Hrun.
  rewrite decide_False, Ht in Hrun by done. cbn [mbind result_bind] in Hrun.
  set (h2 := <[tags self := OList (t ++ t)]>
               (<[authors self := OList (a ++ oa)]> h)) in *.
  destruct (read_prop h2 (vbsp_config self)) as [c|] eqn:Ec; [|done].
  cbn [mbind result_bind] in Hrun.
  destruct (read_prop h2 (vbsp_config other)) as [oc|]; [|done].
  cbn [mbind result_bind] in Hrun.
  destruct (p_add c oc) as [m|]; [|done]. cbn [mbind result_bind] in Hrun.
  destruct (read_desc _ (desc self)) as [d|]; [|done].
  cbn [mbind result_bind] in Hrun.
  destruct (read_desc _ (desc other)) as [od|]; [|done].
  cbn [mbind result_bind alloc] in Hrun. injection Hrun as <- <-.
  cbn [authors tags].
  assert (vbsp_config self ≠ authors self ∧ vbsp_config self ≠ tags self)
    as [Hca Hct].
  { unfold read_prop, h2, heap, loc in *. split; intros E; rewrite E in Ec.
    - rewrite list_lookup_insert_ne, list_lookup_insert_eq in Ec by done. done.
    - rewrite list_lookup_insert_eq in Ec; [done|].
      by rewrite length_insert. }
  assert (∀ l x, l ≠ vbsp_config self → read_list h2 l = Ok x →
            read_list (<[vbsp_config self := OProp m]> h2 ++
                       [ODesc (md_join d od)]) l = Ok x) as Hkeep.
  { intros l x Hl Hx. pose proof (read_list_lt _ _ _ Hx) as Ll.
    unfold read_list, heap, loc in *.
    rewrite lookup_app_l by (by rewrite length_insert).
    by rewrite list_lookup_insert_ne. }
  assert (length (<[authors self := OList (a ++ oa)]> h) = length h) as Hlen
    by apply length_insert.
  split_and!; [done|done| | |].
  - apply Hkeep; [done|]. unfold h2.
    rewrite read_list_insert, decide_False by (done || lia).
    by rewrite read_list_insert, decide_True by done.
  - apply Hkeep; [done|]. unfold h2.
    by rewrite read_list_insert, decide_True by (done || lia).
  - intros H1 H2. apply Hkeep.
    + intros E. unfold read_prop, read_list, h2, heap, loc in *.
      rewrite <- E in Ec.
      rewrite !list_lookup_insert_ne in Ec by done.
      revert Hot Ec. intros Hot Ec. repeat case_match; congruence.
    + unfold h2. rewrite read_list_insert, decide_False by (done || lia).
      by rewrite read_list_insert, decide_False by done.
Qed.

Lemma override_from_folder_lists_witness :
  ∃ self' h',
    override_from_folder ex_md_join ex_heap_tagged ex_var_tagged ex_var_other
      = Ok (self', h') ∧
    read_list h' (authors ex_var_tagged) = Ok ["Carl"] ∧
    read_list h' (tags ex_var_tagged) = Ok ["Button"; "Button"] ∧
    read_list h' (tags ex_var_other) = Ok ["Cube"].
Proof.
  pose proof (λ self' h' Hrun,
                override_from_folder_lists ex_md_join ex_heap_tagged h'
                  ex_var_tagged ex_var_other self' [] ["Carl"] ["Button"]
                  ["Cube"] Hrun eq_refl eq_refl eq_refl eq_refl
                  ltac:(discriminate)) as H.
  eexists _, _. split; [vm_compute; reflexivity|].
  edestruct H as (_ & _ & H1 & H2 & H3); [vm_compute; reflexivity|].
  split_and!; [exact H1|exact H2|apply H3; discriminate].
Defined.

(** ** Models replaced by a modification *)

Lemma find_all_one k p : find_all [k] p = filter (λ c, name_is k c = true) (p_children p).
Proof. reflexivity. Qed.

Lemma model_entry_name model : name_is "Model" (model_entry model) = true.
Proof. reflexivity. Qed.

Lemma append_models st models st' :
  for_each (λ st model, p_append st (model_entry model)) st models = Ok st' →
  find_all ["Model"] st' = find_all ["Model"] st ++ map model_entry models.
Proof.
  revert st. induction models as [|m models IH]; intros st; cbn [for_each].
  - intros [= <-]. by rewrite app_nil_r.
  - destruct st as [|n l]; [done|]. cbn [p_append mbind result_bind].
    intros H. rewrite (IH _ H), !find_all_one. cbn [p_children].
    rewrite filter_app, filter_cons_True by apply model_entry_name.
    rewrite filter_nil. cbn [map]. by rewrite <- app_assoc.
Qed.

Lemma name_is_casefold k1 k2 c :
  casefold k1 = casefold k2 → name_is k1 c = name_is k2 c.
Proof. unfold name_is. by intros ->. Qed.

Lemma del_all_models subtype : find_all ["Model"] (del_all subtype "model") = [].
Proof.
  destruct subtype as [|n l]; [done|]. rewrite find_all_one. cbn [del_all p_children].
  induction l as [|c l IH]; [done|].
  destruct (name_is "model" c) eqn:E.
  - by rewrite filter_cons_False by by rewrite E.
  - rewrite filter_cons_True by done.
    rewrite filter_cons_False; [done|]. rewrite not_true_iff_false.
    by rewrite (name_is_casefold "Model" "model" c eq_refl).
Qed.

Lemma set_item_find_all p k v p' k2 :
  set_item p k v = Ok p' → casefold k ≠ casefold k2 →
  find_all [k2] p' = find_all [k2] p.
Proof.
  destruct p as [|n l]; [done|]. unfold set_item. intros H Hne.
  rewrite !find_all_one. cbn [p_children].
  destruct (last_index (name_is k) l) as [i|] eqn:Ei; injection H as <-;
    cbn [p_children].
  - pose proof (last_index_find (name_is k) l) as Hl. rewrite Ei in Hl.
    destruct Hl as (x & Hx & Hkx & _).
    apply list_elem_of_split_length in Hx as (l1 & l2 & -> & ->).
    rewrite alter_app_r_alt, Nat.sub_diag by lia. cbn [alter list_alter].
    rewrite !filter_app. f_equal.
    rewrite !filter_cons_False; [done|..].
    + by rewrite (name_is_other _ _ _ Hkx Hne).
    + rewrite (name_is_mk_prop k2 _ v x eq_refl).
      by rewrite (name_is_other _ _ _ Hkx Hne).
  - rewrite filter_app, filter_cons_False, filter_nil, app_nil_r; [done|].
    by rewrite (name_is_other k k2 _ (name_is_self k v) Hne).
Qed.

Lemma with_ensured_find_all key f p p' k2 :
  with_ensured key f p = Ok p' → casefold key ≠ casefold k2 →
  (∀ c c', f c = Ok c' → p_real_name c' = p_real_name c) →
  find_all [k2] p' = find_all [k2] p.
Proof.
  destruct p as [|n l]; [done|]. unfold with_ensured. intros H Hne Hname.
  rewrite !find_all_one. cbn [p_children].
  pose proof (last_index_find (name_is key) l) as Hl.
  destruct (last_index (name_is key) l) as [i|] eqn:Ei.
  - destruct Hl as (x & Hx & Hkx & _). rewrite Hx in H.
    destruct (f x) as [x'|] eqn:Ef; [|done]. injection H as <-.
    cbn [p_children].
    apply list_elem_of_split_length in Hx as (l1 & l2 & -> & ->).
    rewrite insert_app_r_alt, Nat.sub_diag by lia. cbn [insert list_insert].
    rewrite !filter_app. f_equal.
    rewrite !filter_cons_False; [done|..].
    + by rewrite (name_is_other _ _ _ Hkx Hne).
    + rewrite (name_is_real _ _ _ (Hname _ _ Ef)).
      by rewrite (name_is_other _ _ _ Hkx Hne).
  - destruct (f _) as [x'|] eqn:Ef; [|done]. injection H as <-.
    cbn [p_children].
    rewrite filter_app, filter_cons_False, filter_nil, app_nil_r; [done|].
    rewrite (name_is_real _ _ _ (Hname _ _ Ef)).
    by rewrite (name_is_other key k2 (PBlock (Some key) [])
                  (name_is_self key (VBlock [])) Hne).
Qed.

(** X29: a palette entry that comes with models replaces the models of
    the subtype: whatever [Model] blocks the subtype held, afterwards
    it holds one [Model] block for each model given, in their order,
    and no other. *)
Theorem subtype_models_replaced (item : Property)
    (pal_icon pal_name : option PValue) (subtype subtype' model_prop : Property) :
  subtype_patch item pal_icon pal_name subtype = Ok subtype' →
  model_override item = Some model_prop →
  find_all ["Model"] subtype' = map model_entry (override_models model_prop).
Proof.
  unfold subtype_patch. intros H Hm. rewrite Hm in H.
  fold (override_models model_prop) in H.
  destruct (for_each _ (del_all subtype "model") _) as [st1|] eqn:E1; [|done].
  cbn [mbind result_bind] in H.
  apply append_models in E1. rewrite del_all_models in E1. cbn [app] in E1.
  rewrite <- E1. clear E1.
  destruct (if truthy (get_value item "name" None) then _ else _)
    as [st2|] eqn:E2; [|done].
  cbn [mbind result_bind] in H.
  assert (find_all ["Model"] st2 = find_all ["Model"] st1) as <-.
  { destruct (truthy _); [|by injection E2 as <-].
    destruct (get_item item "name") as [v|]; [|done].
    cbn [mbind result_bind] in E2. by eapply set_item_find_all. }
  destruct (truthy pal_name || truthy pal_icon); [|by injection H as <-].
  eapply with_ensured_find_all; [exact H|done|].
  intros c c' Hc.
  assert (∀ (o : option PValue) k p p',
            match o with
            | Some v => if truthy o then set_item p k v else Ok p
            | None => Ok p
            end = Ok p' → p_real_name p' = p_real_name p) as Hstep.
  { intros o k p p' Ho. destruct o as [v|]; [|by injection Ho as <-].
    case_match; [by eapply set_item_name|by injection Ho as <-]. }
  cbv beta in Hc.
  match type of Hc with
  | context [match pal_name with Some v => @?a v | None => ?b end] =>
      destruct (match pal_name with Some v => a v | None => b end)
        as [p1|] eqn:Ep; [|done]
  end.
  cbn [mbind result_bind] in Hc.
  by rewrite (Hstep _ _ _ _ Hc), (Hstep _ _ _ _ Ep).
Qed.

Lemma subtype_models_replaced_witness :
  ∃ subtype',
    subtype_patch ex_models_entry None (Some (VStr "Cubes")) ex_model_subtype
      = Ok subtype' ∧
    find_all ["Model"] subtype'
      = [PBlock (Some "Model") [PLeaf (Some "ModelName") "cube.mdl"];
         PBlock (Some "Model") [PLeaf (Some "ModelName") "sphere.mdl"]].
Proof.
  eexists. split; [vm_compute; reflexivity|].
  exact (subtype_models_replaced ex_models_entry None (Some (VStr "Cubes"))
           ex_model_subtype _
           (PBlock (Some "Models")
              [PLeaf (Some "Model") "cube.mdl";
               PLeaf (Some "Model") "sphere.mdl"])
           eq_refl eq_refl).
Defined.

(** ** The priority of the fallback, through the whole completion *)

(** A concrete variant that the first pass leaves in a slot is still
    there after the modifications and the lookups are resolved. *)
Lemma completed_variant_kept item ver h filled ev resolved k iv :
  for_each (eval_slot item ver)
    {| ev_styles := filled; ev_lookups := []; ev_heap := h |}
    (dict_keys filled) = Ok ev →
  for_each (apply_lookup item) (ev_styles ev) (ev_lookups ev) = Ok resolved →
  dict_get filled k = Some (SVariant iv) →
  dict_get resolved k = Some (SVariant iv) ∧ ∃ more, ev_heap ev = h ++ more.
Proof.
  intros Ee El Hk.
  assert (dict_get (ev_styles ev) k = Some (SVariant iv)
          ∧ (k ∉ dict_keys (ev_lookups ev))
          ∧ ∃ more, ev_heap ev = h ++ more) as (Hev & Hlook & Hheap).
  { eapply (for_each_invariant
              (λ st, dict_get (ev_styles st) k = Some (SVariant iv)
                     ∧ (k ∉ dict_keys (ev_lookups st))
                     ∧ ∃ more, ev_heap st = h ++ more)); [| |exact Ee].
    - intros a x a' _ (H1 & H2 & more & H3) Hs.
      destruct (eval_slot_variant _ _ _ _ _ _ _ Hs H1) as [H1' H2'].
      destruct (eval_slot_extends _ _ _ _ _ Hs) as [more' H3'].
      split_and!; [done|by apply H2'|].
      exists (more ++ more'). by rewrite H3', H3, app_assoc.
    - cbn. split_and!; [done|apply not_elem_of_nil|].
      exists []. by rewrite app_nil_r. }
  split; [|done]. revert El.
  assert (Forall (λ e, e.1 ≠ k) (ev_lookups ev)) as Hall.
  { apply Forall_forall. intros [k0 pv] Hin <-. apply Hlook.
    by apply (list_elem_of_fmap_2 fst _ (k0, pv)). }
  revert Hall Hev. generalize (ev_styles ev) (ev_lookups ev).
  intros st ls Hall. revert st.
  induction Hall as [|[to from] ls Hto _ IH]; intros st Hst;
    cbn [for_each]; [by intros [= <-]|].
  destruct (apply_lookup item st (to, from)) as [st1|] eqn:Ea; [|done].
  cbn [mbind result_bind]. apply IH.
  destruct from as [from_id|]; [|done]. cbn [apply_lookup] in Ea.
  destruct (dict_get st from_id) as [x|]; [|done]. injection Ea as <-.
  rewrite dict_get_set. cbn in Hto.
  by rewrite (proj2 (str_eqb_neq to k) Hto).
Qed.

(** The priority through the completion of one version: the first pass
    [filled] is as [fill_pass_priority] says, and every concrete variant
    of [filled] is the completed slot. *)
Lemma complete_version_priority (style_data : list Style) (bases : dict (list Style))
    (item : string) (is_def : bool) (def_styles : dict Slot) (h h' : heap)
    (vers vers' : Version) (pre post : list (string * Style)) (s : Style) :
  let A := build_all_styles style_data in
  let m := styles vers in
  resolve_bases style_data = Some (Ok bases) →
  A = pre ++ (style_id s, s) :: post →
  complete_version A bases item is_def def_styles h vers = Ok (vers', h') →
  ∃ filled,
    fill_pass A bases is_def def_styles (def_style vers) m = Ok filled ∧
    (∀ k iv, dict_get filled k = Some (SVariant iv) →
             dict_get (styles vers') k = Some (SVariant iv)) ∧
    (∀ k v, dict_get m k = Some v → dict_get filled k = Some v) ∧
    is_Some (dict_get filled (style_id s)) ∧
    (dict_mem m (style_id s) = false →
     match find (λ b, dict_mem m (style_id b)) (bases_of bases s) with
     | Some a => dict_get filled (style_id s) = dict_get m (style_id a)
     | None =>
         if is_def then
           ∃ k, def_style vers = DName k ∧
                dict_get filled (style_id s) = dict_get filled k
         else
           match find (λ b, bool_decide (style_id b ∈ pre.*1))
                   (bases_of bases s) with
           | Some b => dict_get filled (style_id s) = dict_get filled (style_id b)
           | None => dict_get filled (style_id s)
                       = dict_get def_styles (style_id s)
           end
     end).
Proof.
  intros A m Hres EA Hrun. unfold complete_version in Hrun.
  destruct (fill_pass A bases is_def def_styles (def_style vers) (styles vers))
    as [filled|] eqn:Ef; [|done].
  cbn [mbind result_bind] in Hrun.
  destruct (for_each (eval_slot _ _) _ _) as [ev|] eqn:Ee; [|done].
  cbn [mbind result_bind] in Hrun.
  destruct (for_each (apply_lookup _) _ _) as [resolved|] eqn:El; [|done].
  cbn [mbind result_bind] in Hrun.
  destruct (def_style_slot resolved _) as [dslot|]; [|done].
  injection Hrun as <- <-. cbn [styles].
  exists filled. split; [done|]. split.
  - intros k iv Hk.
    by destruct (completed_variant_kept _ _ _ _ _ _ _ _ Ee El Hk).
  - exact (fill_pass_priority style_data bases is_def def_styles m filled
             (def_style vers) pre post s Hres EA Ef).
Qed.

(** ** The versions of a completed item *)

Lemma fill_pass_default (A : dict Style) bases d1 d2 d m :
  fill_pass A bases true d1 d m = fill_pass A bases true d2 d m.
Proof.
  unfold fill_pass. revert m. induction A as [|[k s] A IH]; intros m; [done|].
  cbn [for_each].
  replace (fill_style bases true d2 d m (k, s))
    with (fill_style bases true d1 d m (k, s)) by reflexivity.
  destruct (fill_style bases true d1 d m (k, s)); [|done]. apply IH.
Qed.

Lemma complete_version_id (A : dict Style) bases item is_def def_styles h v v' h' :
  complete_version A bases item is_def def_styles h v = Ok (v', h') →
  ver_id v' = ver_id v.
Proof.
  unfold complete_version.
  destruct (fill_pass _ _ _ _ _ _); [|done]. cbn [mbind result_bind].
  destruct (for_each (eval_slot _ _) _ _); [|done]. cbn [mbind result_bind].
  destruct (for_each (apply_lookup _) _ _); [|done]. cbn [mbind result_bind].
  destruct (def_style_slot _ _); [|done]. by intros [= <- _].
Qed.

Lemma complete_others_each (A : dict Style) bases item def_styles
    (sel : Version → bool) todo vs h vs' h' :
  NoDup (todo.*1) →
  for_each
    (λ '(vs, h) '(k, v),
       '(v', h') ← complete_version A bases item (sel v) def_styles h v;
       Ok (dict_set vs k v', h'))
    (vs, h) todo = Ok (vs', h') →
  (∀ k, k ∉ todo.*1 → dict_get vs' k = dict_get vs k) ∧
  (∀ k v, (k, v) ∈ todo →
     ∃ v' ha hb,
       complete_version A bases item (sel v) def_styles ha v = Ok (v', hb) ∧
       dict_get vs' k = Some v').
Proof.
  revert vs h. induction todo as [|[k v] todo IH]; intros vs h Hnd Hrun.
  - injection Hrun as <- <-. split; [done|]. intros k v Hin.
    by apply elem_of_nil in Hin.
  - cbn [for_each] in Hrun.
    destruct (complete_version A bases item (sel v) def_styles h v)
      as [[v1 h1]|] eqn:E; [|done]. cbn [mbind result_bind] in Hrun.
    rewrite fmap_cons in Hnd. apply NoDup_cons in Hnd as [Hk Hnd].
    cbn [fst] in Hk.
    destruct (IH _ _ Hnd Hrun) as [Hout Hin]. split.
    + intros k' Hk'. rewrite fmap_cons in Hk'. cbn [fst] in Hk'.
      apply not_elem_of_cons in Hk' as [Hne Hk'].
      rewrite (Hout _ Hk'), dict_get_set.
      by rewrite (proj2 (str_eqb_neq k k')).
    + intros k' v' [[= -> ->]|Hin']%elem_of_cons; [|by apply Hin].
      exists v1, h, h1. split; [done|].
      by rewrite (Hout _ Hk), dict_get_set, str_eqb_refl.
Qed.

(** Every version of a completed item is the completion of the version
    declared under its key: the default version first, the others with
    the completed default version at hand. *)
Lemma complete_item_versions (A : dict Style) bases h item item' h' :
  NoDup (dict_keys (versions item)) →
  complete_item A bases h item = Ok (item', h') →
  ∃ dv dv' h1,
    dict_get (versions item) (def_ver item) = Some dv ∧
    complete_version A bases (item_id item) true (styles dv) h dv
      = Ok (dv', h1) ∧
    dict_get (versions item') (def_ver item) = Some dv' ∧
    ∀ k v, dict_get (versions item) k = Some v → k ≠ def_ver item →
      ∃ v' ha hb,
        complete_version A bases (item_id item)
          (bool_decide (ver_id v = ver_id dv')) (styles dv') ha v
          = Ok (v', hb) ∧
        dict_get (versions item') k = Some v'.
Proof.
  intros Hnd. unfold complete_item.
  destruct (dict_get (versions item) (def_ver item)) as [dv|] eqn:Ed; [|done].
  destruct (complete_version A bases (item_id item) true (styles dv) h dv)
    as [[dv' h1]|] eqn:E; [|done]. cbn [mbind result_bind].
  destruct (for_each _ _ _) as [[vs h2]|] eqn:Erun; [|done].
  cbn [mbind result_bind]. intros [= <- <-]. cbn [versions].
  apply (complete_others_each A bases (item_id item) (styles dv')
           (λ v, bool_decide (ver_id v = ver_id dv'))) in Erun
    as [Hout Hin].
  2:{ unfold other_versions. eapply sublist_NoDup; [exact Hnd|].
      apply fmap_sublist, sublist_filter. }
  exists dv, dv', h1. split_and!; [done|done| |].
  - rewrite Hout, dict_get_set, str_eqb_refl; [done|].
    intros [[k' v'] [Heq [Hne _]%list_elem_of_filter]]%list_elem_of_fmap.
    simpl in *. congruence.
  - intros k v Hv Hne. apply Hin.
    apply list_elem_of_filter. split; [done|]. by apply dict_get_elem.
Qed.




(** ** The palette stage within the whole export *)

Lemma visit_list_app {S} (body : S → Property → result (S * Property))
    st l1 l2 :
  visit_list body st (l1 ++ l2) =
    '(st1, l1') ← visit_list body st l1;
    '(st2, l2') ← visit_list body st1 l2;
    Ok (st2, l1' ++ l2').
Proof.
  revert st. induction l1 as [|c l1 IH]; intros st.
  - cbn. by destruct (visit_list body st l2) as [[? ?]|].
  - cbn [app visit_list]. destruct (body st c) as [[st1 c']|]; [|done].
    cbn [mbind result_bind]. rewrite IH.
    destruct (visit_list body st1 l1) as [[st2 l1']|]; [|done]. cbn.
    by destruct (visit_list body st2 l2) as [[st3 l2']|].
Qed.

(** A loop over the matches of a path runs its body over the list of
    the matches, in their order, and the tree it leaves has the changed
    matches at that path. *)
Lemma visit_all_visit_list {S} (body : S → Property → result (S * Property))
    keys st p st' p' :
  (∀ st c st' c', body st c = Ok (st', c') → p_real_name c' = p_real_name c) →
  visit_all body keys st p = Ok (st', p') →
  visit_list body st (find_all keys p) = Ok (st', find_all keys p').
Proof.
  intros body_name. revert st p st' p'.
  induction keys as [|k ks IH]; intros st p st' p'; [by intros [= <- <-]|].
  destruct p as [n v|n l]; cbn [visit_all];
    [intros [= <- <-]; by destruct ks|].
  destruct (visit_children _ _ _ _) as [[s1 l']|] eqn:E; [|done].
  intros [= <- <-]. revert st s1 l' E.
  destruct ks as [|k2 ks].
  - cbn [find_all p_children].
    induction l as [|c l IHl]; intros st s1 l'; cbn [visit_children].
    + by intros [= <- <-].
    + destruct (name_is k c) eqn:Ek.
      * destruct (body st c) as [[s2 c']|] eqn:Eb; [|done].
        cbn [mbind result_bind].
        destruct (visit_children _ _ _ l) as [[s3 r']|] eqn:Er; [|done].
        intros [= <- <-].
        rewrite filter_cons_True by done.
        rewrite filter_cons_True
          by (by rewrite (name_is_real _ _ _ (body_name _ _ _ _ Eb))).
        cbn [visit_list]. rewrite Eb. cbn [mbind result_bind].
        by rewrite (IHl _ _ _ Er).
      * cbn [mbind result_bind].
        destruct (visit_children _ _ _ l) as [[s3 r']|] eqn:Er; [|done].
        intros [= <- <-]. rewrite !filter_cons_False by by rewrite Ek.
        eauto.
  - change (find_all (k :: k2 :: ks) (PBlock n ?x))
      with (flat_map (λ c, if name_is k c && has_children c
                           then find_all (k2 :: ks) c else []) x).
    induction l as [|c l IHl]; intros st s1 l'; cbn [visit_children].
    + by intros [= <- <-].
    + destruct (name_is k c) eqn:Ek.
      * destruct (has_children c) eqn:Ec.
        -- destruct (visit_all body (k2 :: ks) st c) as [[s2 c']|] eqn:Eb; [|done].
           cbn [mbind result_bind].
           destruct (visit_children _ _ _ l) as [[s3 r']|] eqn:Er; [|done].
           intros [= <- <-]. cbn [flat_map].
           destruct (visit_all_name _ _ _ _ _ _ _ Eb) as [Hn Hc].
           rewrite (name_is_real _ _ _ Hn), Hc, Ek, Ec. cbn [andb].
           rewrite visit_list_app, (IH _ _ _ _ Eb). cbn [mbind result_bind].
           by rewrite (IHl _ _ _ Er).
        -- cbn [mbind result_bind].
           destruct (visit_children _ _ _ l) as [[s3 r']|] eqn:Er; [|done].
           intros [= <- <-]. cbn [flat_map]. rewrite Ek, Ec. cbn. eauto.
      * cbn [mbind result_bind].
        destruct (visit_children _ _ _ l) as [[s3 r']|] eqn:Er; [|done].
        intros [= <- <-]. cbn [flat_map]. rewrite Ek. cbn. eauto.
Qed.

(** Children that keep their name, their kind and what a path finds in
    them give the same matches of a longer path. *)
Lemma find_all_children_same k k2 ks n n' l l' :
  Forall2 (λ c c', p_real_name c' = p_real_name c ∧
                   has_children c' = has_children c ∧
                   find_all (k2 :: ks) c' = find_all (k2 :: ks) c) l l' →
  find_all (k :: k2 :: ks) (PBlock n' l') = find_all (k :: k2 :: ks) (PBlock n l).
Proof.
  change (find_all (k :: k2 :: ks) (PBlock ?m ?x))
    with (flat_map (λ c, if name_is k c && has_children c
                         then find_all (k2 :: ks) c else []) x).
  induction 1 as [|c c' l l' (Hn & Hc & Hf) _ IH]; [done|].
  cbn [flat_map]. by rewrite (name_is_real _ _ _ Hn), Hc, Hf, IH.
Qed.

(** Children that change under another name only give the same
    matches. *)
Lemma find_all_children_other k k' ks n n' l l' :
  casefold k ≠ casefold k' →
  Forall2 (λ c c', p_real_name c' = p_real_name c ∧
                   (name_is k c = false → c' = c)) l l' →
  find_all (k' :: ks) (PBlock n' l') = find_all (k' :: ks) (PBlock n l).
Proof.
  intros Hne H. destruct ks as [|k2 ks].
  - rewrite !find_all_one. cbn [p_children].
    induction H as [|c c' l l' [Hn Hc] _ IH]; [done|].
    destruct (name_is k' c) eqn:E.
    + rewrite (Hc (name_is_other k' k c E (not_eq_sym Hne))).
      rewrite !filter_cons_True by done. by rewrite IH.
    + rewrite (filter_cons_False _ c) by by rewrite E.
      by rewrite filter_cons_False by by rewrite (name_is_real _ _ _ Hn), E.
  - change (find_all (k' :: k2 :: ks) (PBlock ?m ?x))
      with (flat_map (λ c, if name_is k' c && has_children c
                           then find_all (k2 :: ks) c else []) x).
    induction H as [|c c' l l' [Hn Hc] _ IH]; [done|].
    cbn [flat_map]. rewrite IH. f_equal.
    destruct (name_is k' c) eqn:E.
    + by rewrite (Hc (name_is_other k' k c E (not_eq_sym Hne))), E.
    + by rewrite (name_is_real _ _ _ Hn), E.
Qed.

Lemma visit_all_find_other {S} (body : S → Property → result (S * Property))
    k k2 ks st p st' p' k' ks' :
  visit_all body (k :: k2 :: ks) st p = Ok (st', p') →
  casefold k ≠ casefold k' →
  find_all (k' :: ks') p' = find_all (k' :: ks') p.
Proof.
  intros H Hne. destruct p as [n v|n l]; [by injection H as _ <-|].
  apply visit_all_other in H as (l' & -> & H).
  by apply (find_all_children_other k).
Qed.

Lemma visit_children_other {S} k (body : S → Property → result (S * Property))
    st l st' l' :
  (∀ st c st' c', body st c = Ok (st', c') → p_real_name c' = p_real_name c) →
  visit_children k body st l = Ok (st', l') →
  Forall2 (λ c c', p_real_name c' = p_real_name c ∧
                   (name_is k c = false → c' = c)) l l'.
Proof.
  intros Hname. revert st st' l'.
  induction l as [|c l IH]; intros st st' l'; cbn [visit_children].
  - intros [= <- <-]. constructor.
  - destruct (name_is k c) eqn:Ek.
    + destruct (body st c) as [[s2 c']|] eqn:Eb; [|done].
      cbn [mbind result_bind].
      destruct (visit_children _ _ _ l) as [[s3 r']|] eqn:Er; [|done].
      intros [= <- <-]. constructor; [|eauto]. split; [eauto|congruence].
    + cbn [mbind result_bind].
      destruct (visit_children _ _ _ l) as [[s3 r']|] eqn:Er; [|done].
      intros [= <- <-]. constructor; eauto.
Qed.

(** A loop over the matches of [k], [k2] leaves the matches of [k],
    [k3] as they are. *)
Lemma visit_all_find_sibling {S} (body : S → Property → result (S * Property))
    k k2 k3 st p st' p' :
  (∀ st c st' c', body st c = Ok (st', c') → p_real_name c' = p_real_name c) →
  visit_all body [k; k2] st p = Ok (st', p') →
  casefold k2 ≠ casefold k3 →
  find_all [k; k3] p' = find_all [k; k3] p.
Proof.
  intros Hname H Hne. destruct p as [n v|n l]; [by injection H as _ <-|].
  rewrite visit_all_deep in H.
  destruct (visit_children _ _ _ _) as [[s1 l']|] eqn:E; [|done].
  injection H as _ <-. apply find_all_children_same.
  revert st s1 l' E. induction l as [|c l IH]; intros st s1 l';
    cbn [visit_children].
  - intros [= <- <-]. constructor.
  - destruct (name_is k c && has_children c) eqn:Ek.
    + apply andb_true_iff in Ek as [-> ->].
      destruct (visit_all body [k2] st c) as [[s2 c']|] eqn:Eb; [|done].
      cbn [mbind result_bind].
      destruct (visit_children _ _ _ l) as [[s3 r']|] eqn:Er; [|done].
      intros [= <- <-]. constructor; [|eauto].
      destruct (visit_all_name _ _ _ _ _ _ _ Eb) as [Hn Hc].
      split_and!; [done..|].
      destruct c as [cn v|cn cl]; [by injection Eb as _ <-|].
      rewrite visit_all_last in Eb.
      destruct (visit_children k2 body st cl) as [[s4 cl']|] eqn:Ec; [|done].
      injection Eb as _ <-.
      apply (find_all_children_other k2); [done|].
      by eapply visit_children_other.
    + assert ((if name_is k c
               then if has_children c then visit_all body [k2] st c
                    else Ok (st, c)
               else Ok (st, c)) = Ok (st, c)) as ->.
      { destruct (name_is k c); [|done]. by destruct (has_children c). }
      cbn [mbind result_bind].
      destruct (visit_children _ _ _ l) as [[s3 r']|] eqn:Er; [|done].
      intros [= <- <-]. constructor; eauto.
Qed.

Lemma set_item_find_deep p k v p' k2 ks :
  set_item p k v = Ok p' → casefold k ≠ casefold k2 →
  find_all (k2 :: ks) p' = find_all (k2 :: ks) p.
Proof.
  destruct p as [|n l]; [done|]. unfold set_item. intros H Hne.
  destruct (last_index (name_is k) l) as [i|] eqn:Ei; injection H as <-.
  - apply (find_all_children_other k); [done|].
    pose proof (last_index_find (name_is k) l) as Hl. rewrite Ei in Hl.
    destruct Hl as (x & Hx & Hkx & _).
    apply list_elem_of_split_length in Hx as (l1 & l2 & -> & ->).
    rewrite alter_app_r_alt, Nat.sub_diag by lia. cbn [alter list_alter].
    apply Forall2_app; [by apply Forall_Forall2_diag, Forall_true|].
    constructor; [|by apply Forall_Forall2_diag, Forall_true].
    split; [by destruct v, x|congruence].
  - destruct ks as [|k3 ks].
    + rewrite !find_all_one. cbn [p_children].
      rewrite filter_app, filter_cons_False, filter_nil, app_nil_r; [done|].
      by rewrite (name_is_other k k2 _ (name_is_self k v) Hne).
    + change (find_all (k2 :: k3 :: ks) (PBlock ?m ?x))
        with (flat_map (λ c, if name_is k2 c && has_children c
                             then find_all (k3 :: ks) c else []) x).
      rewrite flat_map_app. cbn [flat_map].
      rewrite (name_is_other k k2 _ (name_is_self k v) Hne). cbn.
      by rewrite app_nil_r.
Qed.

Lemma export_subtype_name item_data pos index c st' c' :
  export_subtype item_data pos index c = Ok (st', c') →
  p_real_name c' = p_real_name c.
Proof.
  destruct c as [n v|n cs]; cbn [export_subtype]; [by intros [= _ <-]|].
  destruct (palette_children _ _ _ cs); [|done]. by intros [= _ <-].
Qed.

Lemma export_defaults_subtypes prop_overrides ed ed' :
  export_defaults prop_overrides ed = Ok ed' →
  find_all ["Editor"; "Subtype"] ed' = find_all ["Editor"; "Subtype"] ed.
Proof.
  unfold export_defaults.
  destruct (visit_all _ _ tt ed) as [[[] q]|] eqn:E; [|done].
  intros [= <-]. eapply visit_all_find_sibling; [|exact E|done].
  intros st [n v|n cs] st' c'; [by intros [= _ <-]|].
  destruct (mapM _ cs); [|done]. by intros [= _ <-].
Qed.

Lemma export_voxels_subtypes item log ed log' ed' :
  export_voxels item log ed = Ok (log', ed') →
  find_all ["Editor"; "Subtype"] ed' = find_all ["Editor"; "Subtype"] ed.
Proof.
  unfold export_voxels.
  destruct (visit_all _ _ log ed) as [[log1 ed1]|] eqn:E1; [|done].
  cbn [mbind result_bind]. intros E2.
  rewrite (visit_all_find_other _ _ _ _ _ _ _ _ "Editor" ["Subtype"] E2) by done.
  by rewrite (visit_all_find_other _ _ _ _ _ _ _ _ "Editor" ["Subtype"] E1).
Qed.

(** C7 (as amended): when the export of an item succeeds whose editor
    block has two subtypes, of which only subtype 1 is on the palette,
    the exported editor data still has two subtypes: the block of subtype
    0 under its name, without its first [Palette] block, and the block of
    subtype 1, in which every [Palette] block has the [Position] made of
    the palette index as grid coordinates, [index mod 4], [index div 4]
    and [0]. *)
Theorem export_palette_placement (h : heap) (log log' : list string)
    (self : Item) (pal_list : list (string * nat)) (ver_id style_id : string)
    (prop_conf : dict (dict string)) (vers : Version) (item_data : ItemVariant)
    (base ed extra conf : Property) (idx : nat) (n0 n1 : option string)
    (u w cs1 : list Property) (p0 : Property) :
  dict_get (versions self) ver_id = Some vers →
  dict_get (styles vers) style_id = Some (SVariant item_data) →
  read_prop h (editor item_data) = Ok base →
  find_all ["Editor"; "Subtype"] base
    = [PBlock n0 (u ++ p0 :: w); PBlock n1 cs1] →
  Forall (λ x, p_name x ≠ Some "palette") u → p_name p0 = Some "palette" →
  palette_positions (item_id self) 0 pal_list = {[1 := idx]} →
  get_export_data h log self pal_list ver_id style_id prop_conf
    = Ok (log', (ed, extra, conf)) →
  ∃ cs1',
    find_all ["Editor"; "Subtype"] ed
      = [PBlock n0 (u ++ w); PBlock n1 cs1'] ∧
    Forall2 (λ x x', if bool_decide (p_name x = Some "palette")
                     then place_palette item_data true idx x = Ok x' ∧
                          get_value x' "Position" None = Some (grid_position idx)
                     else x' = x) cs1 cs1'.
Proof.
  intros Hv Hs Hb Hsub Hu Hp0 Hpal. unfold get_export_data, dict_item.
  rewrite Hv. cbn [mbind result_bind]. rewrite Hs. cbn [mbind result_bind].
  rewrite Hb. cbn [mbind result_bind]. unfold p_copy.
  destruct (set_item base "type" _) as [ed0|] eqn:E0; [|done].
  cbn [mbind result_bind].
  destruct (export_palette _ _ _ ed0) as [ed1|] eqn:E1; [|done].
  cbn [mbind result_bind].
  destruct (export_defaults _ ed1) as [ed2|] eqn:E2; [|done].
  cbn [mbind result_bind].
  destruct (export_voxels _ _ ed2) as [[log2 ed3]|] eqn:E3; [|done].
  cbn [mbind result_bind].
  destruct (read_prop h (editor_extra item_data)) as [x|]; [|done].
  cbn [mbind result_bind].
  destruct (read_prop h (vbsp_config item_data)) as [c|]; [|done].
  cbn [mbind result_bind].
  destruct (p_add _ c) as [a|]; [|done]. intros [= <- <- <- <-].
  rewrite (export_voxels_subtypes _ _ _ _ _ E3).
  rewrite (export_defaults_subtypes _ _ _ E2).
  unfold export_palette in E1.
  destruct (visit_all _ _ 0 ed0) as [[s1 q1]|] eqn:V1; [|done].
  injection E1 as ->.
  apply visit_all_visit_list in V1; [|by apply export_subtype_name].
  rewrite (set_item_find_deep _ _ _ _ "Editor" ["Subtype"] E0), Hsub in V1
    by done.
  rewrite Hpal in V1. cbn [visit_list export_subtype] in V1.
  rewrite lookup_singleton_ne in V1 by done.
  rewrite (palette_children_off _ _ _ _ _ Hu Hp0) in V1.
  cbn [mbind result_bind] in V1.
  rewrite lookup_singleton_eq, map_size_singleton in V1.
  rewrite bool_decide_eq_true_2 in V1 by done.
  destruct (palette_children item_data true (Some idx) cs1) as [cs1'|] eqn:E;
    [|done].
  cbn [mbind result_bind] in V1. injection V1 as _ V1.
  exists cs1'. split; [by symmetry|]. by apply palette_children_on.
Qed.

Lemma export_palette_placement_witness :
  ∃ log' ed extra conf,
    get_export_data ex_heap_palette [] ex_props_item ex_pal_list
      "VER_DEFAULT" "CLEAN" ex_prop_conf = Ok (log', (ed, extra, conf)) ∧
    find_all ["Editor"; "Subtype"] ed
      = [PBlock (Some "SubType") [PLeaf (Some "Name") "First"];
         PBlock (Some "SubType")
           [PLeaf (Some "Name") "Second";
            PBlock (Some "Palette")
              [PLeaf (Some "Tooltip") "Second";
               PLeaf (Some "Image") "second.png";
               PLeaf (Some "Position") "2 1 0"]]] ∧
    ∃ cs1',
      find_all ["Editor"; "Subtype"] ed
        = [PBlock (Some "SubType") ([PLeaf (Some "Name") "First"] ++ []);
           PBlock (Some "SubType") cs1'] ∧
      Forall2 (λ x x', if bool_decide (p_name x = Some "palette")
                       then place_palette (ex_var "clean") true 6 x = Ok x' ∧
                            get_value x' "Position" None
                              = Some (grid_position 6)
                       else x' = x)
        ex_second_children cs1'.
Proof.
  eexists _, _, _, _. split; [vm_compute; reflexivity|].
  split; [reflexivity|].
  apply (export_palette_placement ex_heap_palette [] [] ex_props_item
           ex_pal_list "VER_DEFAULT" "CLEAN" ex_prop_conf
           (mkVersion "Regular" "VER_DEFAULT"
              [("CLEAN", SVariant (ex_var "clean"))] (DName "CLEAN"))
           (ex_var "clean") ex_editor _ (PBlock None []) (PBlock None [])
           6 (Some "SubType") (Some "SubType")
           [PLeaf (Some "Name") "First"] [] ex_second_children
           (PBlock (Some "Palette")
              [PLeaf (Some "Tooltip") "First"; PLeaf (Some "Image") "first.png"]));
    try (by repeat constructor); reflexivity.
Defined.

(** C7 as stated fails: the exported editor data still holds the block
    of subtype 0, with its name; only its palette block is gone. *)
Lemma export_palette_counterexample :
  ∃ log' ed extra conf,
    get_export_data ex_heap_palette [] ex_props_item ex_pal_list
      "VER_DEFAULT" "CLEAN" ex_prop_conf = Ok (log', (ed, extra, conf)) ∧
    palette_positions "ITEM" 0 ex_pal_list = {[1 := 6]} ∧
    length (find_all ["Editor"; "Subtype"] ex_editor) = 2 ∧
    find_all ["Editor"; "Subtype"] ed !! 0
      = Some (PBlock (Some "SubType") [PLeaf (Some "Name") "First"]).
Proof.
  eexists _, _, _, _.
  split_and!; [vm_compute; reflexivity|reflexivity..].
Qed.

(** ** Inputs on which the code goes wrong *)

(** C1: the guarantee fails by a slip of the second pass, which copies
    the slot that a lookup names as it is at that moment.  Completion
    succeeds on an item whose slot [A] looks up [B] while [B] looks up
    [C], and slot [A] still holds a lookup afterwards; with the lookup of
    [C] listed first, the same three slots are all completed. *)
Theorem completion_leaves_lookup :
  (∃ items' h' item' v',
     setup_style_tree [ex_alias_item] ex_abc_styles ex_heap
       = Some (Ok (items', h')) ∧
     items' = [item'] ∧
     dict_get (versions item') "VER_DEFAULT" = Some v' ∧
     dict_get (styles v') "A" = Some (ex_alias "C") ∧
     is_variant (ex_alias "C") = false ∧ is_lookup (ex_alias "C") = true) ∧
  (∃ items' h' item' v',
     setup_style_tree [ex_alias_item_rev] ex_abc_styles ex_heap
       = Some (Ok (items', h')) ∧
     items' = [item'] ∧
     dict_get (versions item') "VER_DEFAULT" = Some v' ∧
     styles v' = [("B", SVariant (ex_var "c")); ("A", SVariant (ex_var "c"));
                  ("C", SVariant (ex_var "c"))]).
Proof.
  split.
  - eexists _, _, _, _. split_and!; [vm_compute; reflexivity|reflexivity..].
  - eexists _, _, _, _. split_and!; [vm_compute; reflexivity|reflexivity..].
Qed.

(** C6: the expansion fails by a slip of the loop over the [Volume]
    regions, which deletes the last region of that name on every turn
    instead of the region at hand.  With two regions in the block the
    export raises [IndexError] on the second turn; with the region of
    corners [0 0 0] and [1 1 0] alone, the export succeeds without a
    warning and the block holds the four expanded entries, and with a
    region that lacks a corner alone, it succeeds with the warning and
    the block holds no entry. *)
Theorem export_second_volume_fails :
  get_export_data ex_heap_two_volumes [] ex_props_item [] "VER_DEFAULT" "CLEAN"
    [] = Raise (IndexError "volume") ∧
  (∃ ed extra conf,
    get_export_data ex_heap_voxel [] ex_props_item [] "VER_DEFAULT" "CLEAN" []
      = Ok ([], (ed, extra, conf)) ∧
    find_all ["Exporting"; "OccupiedVoxels"] ed
      = [PBlock (Some "OccupiedVoxels")
           [PBlock (Some "Voxel") [PLeaf (Some "Pos") "0 0 0"];
            PBlock (Some "Voxel") [PLeaf (Some "Pos") "0 1 0"];
            PBlock (Some "Voxel") [PLeaf (Some "Pos") "1 0 0"];
            PBlock (Some "Voxel") [PLeaf (Some "Pos") "1 1 0"]]]) ∧
  (∃ ed extra conf,
     get_export_data ex_heap_one_corner [] ex_props_item [] "VER_DEFAULT"
       "CLEAN" [] = Ok ([volume_warning "ITEM"], (ed, extra, conf)) ∧
     find_all ["Exporting"; "OccupiedVoxels"] ed
       = [PBlock (Some "OccupiedVoxels") []]).
Proof.
  split; [vm_compute; reflexivity|]. split.
  - eexists _, _, _. split; [vm_compute; reflexivity|reflexivity].
  - eexists _, _, _. split; [vm_compute; reflexivity|reflexivity].
Qed.
